(** * Verification of the [widgets] repository: the timing wheel
      (package [timeWheel]), the elastic worker pool (package
      [GoroutinePool]) and the registry of the container (package [di]).

    The Go code is embedded shallowly.  Go's [int] and [time.Duration] are
    64-bit two's complement integers, modelled as [Z] with the wrap-around
    written out; a [map[string]*list.Element] is a [gmap]; the elements of
    the [container/list] buckets live in an explicit store so that the
    aliasing between a bucket and the key index is kept. *)

From stdpp Require Import gmap strings list fin_maps sorting.
From Stdlib Require Import ZArith Lia.

Open Scope Z_scope.

#[local] Set Warnings "-clear-no-such-hyp".

(* ===================================================================== *)
(** * Part I: definitions                                                 *)
(* ===================================================================== *)

(** ** Go's 64-bit [int] *)

Definition int_min : Z := - 2 ^ 63.
Definition int_max : Z := 2 ^ 63 - 1.

(** Two's complement wrap-around of an unbounded result. *)
Definition wrap (z : Z) : Z := (z + 2 ^ 63) mod 2 ^ 64 - 2 ^ 63.

Definition is_int (z : Z) : Prop := int_min ≤ z ≤ int_max.

Definition int_add (a b : Z) : Z := wrap (a + b).
Definition int_sub (a b : Z) : Z := wrap (a - b).
Definition int_mul (a b : Z) : Z := wrap (a * b).

(** [a / b] truncates toward zero and panics on a zero divisor. *)
Definition int_quo (a b : Z) : option Z :=
  if decide (b = 0) then None else Some (wrap (a ÷ b)).

(** [a % b] has the sign of the dividend and panics on a zero divisor. *)
Definition int_rem (a b : Z) : option Z :=
  if decide (b = 0) then None else Some (Z.rem a b).

(** [len(s)] as a Go [int]. *)
Definition len {A} (l : list A) : Z := Z.of_nat (length l).

(* --------------------------------------------------------------------- *)
(** ** Package [timeWheel]                                                *)
(* --------------------------------------------------------------------- *)

(** A [func()] value is opaque to the wheel: it is only stored and later
    started in a goroutine.  It is represented by an identifier. *)
Definition Callback : Type := nat.

(** Address of a [list.Element] allocated by [PushBack].  Each element
    holds the pointer to its own [TaskElement], so one address stands for
    both. *)
Definition elem : Type := nat.

Record TaskElement := mkTask {
  task : Callback;
  pos : Z;
  cycle : Z;
  key : string
}.

Record TimeWheel := mkWheel {
  interval : Z;
  slots : list (list elem);
  taskMap : gmap string elem;
  curSlot : Z;
  (** the store of allocated list elements, and the next free address *)
  elems : gmap elem TaskElement;
  nextElem : elem;
  (** the goroutines started by [execute], oldest first *)
  launched : list elem
}.

Definition set_slots (f : list (list elem) → list (list elem)) (t : TimeWheel) :=
  mkWheel (interval t) (f (slots t)) (taskMap t) (curSlot t) (elems t)
          (nextElem t) (launched t).
Definition set_taskMap (f : gmap string elem → gmap string elem) (t : TimeWheel) :=
  mkWheel (interval t) (slots t) (f (taskMap t)) (curSlot t) (elems t)
          (nextElem t) (launched t).
Definition set_curSlot (c : Z) (t : TimeWheel) :=
  mkWheel (interval t) (slots t) (taskMap t) c (elems t)
          (nextElem t) (launched t).
Definition set_elems (f : gmap elem TaskElement → gmap elem TaskElement) (t : TimeWheel) :=
  mkWheel (interval t) (slots t) (taskMap t) (curSlot t) (f (elems t))
          (nextElem t) (launched t).
Definition set_nextElem (n : elem) (t : TimeWheel) :=
  mkWheel (interval t) (slots t) (taskMap t) (curSlot t) (elems t)
          n (launched t).
Definition set_launched (f : list elem → list elem) (t : TimeWheel) :=
  mkWheel (interval t) (slots t) (taskMap t) (curSlot t) (elems t)
          (nextElem t) (f (launched t)).

(** The outcome of a step of the control loop: it completes, or it panics
    and leaves the wheel as it was at the panic. *)
Inductive result :=
  | Ok (t : TimeWheel)
  | Panic (t : TimeWheel).

Definition state_of (r : result) : TimeWheel :=
  match r with Ok t | Panic t => t end.

Definition is_ok (r : result) : bool :=
  match r with Ok _ => true | Panic _ => false end.

(** [time.Second] in nanoseconds. *)
Definition Second : Z := 1000000000.

(** [NewTimeWheel]: the slot count is raised to 10 and a non-positive
    interval becomes one second. *)
Definition NewTimeWheel (slotNum interval : Z) : TimeWheel :=
  let slotNum := if decide (slotNum < 10) then 10 else slotNum in
  let interval := if decide (interval ≤ 0) then Second else interval in
  mkWheel interval (replicate (Z.to_nat slotNum) []) ∅ 0 ∅ 0%nat [].

(** [t.slots[i]]: an index outside [0, len) panics. *)
Definition slot_at (t : TimeWheel) (i : Z) : option (list elem) :=
  if decide (0 ≤ i) then slots t !! Z.to_nat i else None.

(** [l.Remove(e)] of [container/list]: [e] leaves [l] if it is in it. *)
Definition list_Remove (e : elem) (l : list elem) : list elem :=
  filter (λ x, x ≠ e) l.

(** [l.PushBack(v)]. *)
Definition list_PushBack (e : elem) (l : list elem) : list elem := l ++ [e].

(** [getPosAndCircle], from the delay [time.Until(executeAt)]. *)
Definition getPosAndCircle (t : TimeWheel) (delay : Z) : option (Z * Z) :=
  match int_quo delay (int_mul (interval t) (len (slots t))) with
  | None => None
  | Some cycle =>
    match int_quo delay (interval t) with
    | None => None
    | Some q =>
      match int_rem (int_add (curSlot t) q) (len (slots t)) with
      | None => None
      | Some pos => Some (pos, cycle)
      end
    end
  end.

(** [AddTask] builds the request that is handed to the control loop. *)
Definition AddTask (t : TimeWheel) (k : string) (f : Callback) (delay : Z)
  : option TaskElement :=
  match getPosAndCircle t delay with
  | None => None
  | Some (p, c) => Some (mkTask f p c k)
  end.

Definition removeTask (t : TimeWheel) (k : string) : result :=
  match taskMap t !! k with
  | None => Ok t
  | Some e =>
    let t1 := set_taskMap (delete k) t in
    match elems t1 !! e with
    | None => Panic t1
    | Some te =>
      match slot_at t1 (pos te) with
      | None => Panic t1
      | Some _ => Ok (set_slots (alter (list_Remove e) (Z.to_nat (pos te))) t1)
      end
    end
  end.

Definition addTask (t : TimeWheel) (te : TaskElement) : result :=
  match slot_at t (pos te) with
  | None => Panic t
  | Some _ =>
    let r := match taskMap t !! key te with
             | Some _ => removeTask t (key te)
             | None => Ok t
             end in
    match r with
    | Panic t1 => Panic t1
    | Ok t1 =>
      let e := nextElem t1 in
      Ok (set_taskMap (insert (key te) e)
           (set_slots (alter (list_PushBack e) (Z.to_nat (pos te)))
             (set_elems (insert e te)
               (set_nextElem (S e) t1))))
    end
  end.

Definition dec_cycle (te : TaskElement) : TaskElement :=
  mkTask (task te) (pos te) (cycle te - 1) (key te).

(** One iteration of the loop of [execute] on the element [e] of the
    bucket at index [i]. *)
Definition execute_one (i : nat) (e : elem) (t : TimeWheel) : result :=
  match elems t !! e with
  | None => Panic t
  | Some te =>
    if decide (cycle te > 0) then
      Ok (set_elems (insert e (dec_cycle te)) t)
    else
      Ok (set_taskMap (delete (key te))
           (set_slots (alter (list_Remove e) i)
             (set_launched (λ g, g ++ [e]) t)))
  end.

(** [execute] walks the bucket from the front; [es] is what remains to be
    visited.  Removing the visited element does not disturb the rest of
    the walk because its successor is read first. *)
Fixpoint execute (i : nat) (es : list elem) (t : TimeWheel) : result :=
  match es with
  | [] => Ok t
  | e :: es' =>
    match execute_one i e t with
    | Ok t' => execute i es' t'
    | Panic t' => Panic t'
    end
  end.

(** [circleIncr]; the wheel has at least one slot whenever it runs. *)
Definition circleIncr (t : TimeWheel) : result :=
  match int_rem (int_add (curSlot t) 1) (len (slots t)) with
  | None => Panic t
  | Some c => Ok (set_curSlot c t)
  end.

(** [tick]: [circleIncr] is deferred after the bucket has been read, so it
    also runs when [execute] panics. *)
Definition tick (t : TimeWheel) : result :=
  match slot_at t (curSlot t) with
  | None => Panic t
  | Some l =>
    match execute (Z.to_nat (curSlot t)) l t with
    | Ok t' => circleIncr t'
    | Panic t' => Panic (state_of (circleIncr t'))
    end
  end.

(** What the [select] of [run] can receive. *)
Inductive event :=
  | Tick
  | AddReq (te : TaskElement)
  | RemoveReq (k : string)
  | StopReq.

(** One iteration of the [select] in [run]; [None] when the loop returns
    because of the stop request. *)
Definition handle (ev : event) (t : TimeWheel) : option result :=
  match ev with
  | Tick => Some (tick t)
  | AddReq te => Some (addTask t te)
  | RemoveReq k => Some (removeTask t k)
  | StopReq => None
  end.

(** [run]: the loop returns on a stop request, and also after a panic,
    which its deferred [recover] only reports. *)
Fixpoint run (evs : list event) (t : TimeWheel) : TimeWheel :=
  match evs with
  | [] => t
  | ev :: evs' =>
    match handle ev t with
    | None => t
    | Some (Ok t') => run evs' t'
    | Some (Panic t') => t'
    end
  end.

(** *** Well-formed wheels *)

(** The cursor is a valid slot index (and the slot count is an [int]). *)
Definition cursor_ok (t : TimeWheel) : Prop :=
  0 ≤ curSlot t < len (slots t) ∧ len (slots t) ≤ int_max.

(** Every key of the index points at an element that carries this key and
    sits in the bucket named by its [pos]. *)
Definition index_sound (t : TimeWheel) : Prop :=
  ∀ k e, taskMap t !! k = Some e →
    ∃ te l, elems t !! e = Some te ∧ key te = k ∧ 0 ≤ pos te ∧
            slots t !! Z.to_nat (pos te) = Some l ∧ e ∈ l.

(** Every element of a bucket is the one the index records for its key,
    and the bucket is the one named by its [pos]. *)
Definition buckets_indexed (t : TimeWheel) : Prop :=
  ∀ i l e, slots t !! i = Some l → e ∈ l →
    ∃ te, elems t !! e = Some te ∧ pos te = Z.of_nat i ∧
          taskMap t !! key te = Some e.

(** A [list.Element] is linked at most once. *)
Definition buckets_nodup (t : TimeWheel) : Prop :=
  ∀ i l, slots t !! i = Some l → NoDup l.

(** Addresses in use are below the allocation pointer. *)
Definition store_bounded (t : TimeWheel) : Prop :=
  ∀ e, is_Some (elems t !! e) → (e < nextElem t)%nat.

(** A started task was unlinked from its bucket before. *)
Definition launched_unlinked (t : TimeWheel) : Prop :=
  ∀ e, e ∈ launched t →
    is_Some (elems t !! e) ∧ ∀ i l, slots t !! i = Some l → e ∉ l.

(** The invariant of the wheel: every active key appears in exactly one
    bucket, once, and has exactly one index entry, which points at that
    element. *)
Definition wheel_inv (t : TimeWheel) : Prop :=
  index_sound t ∧ buckets_indexed t ∧ buckets_nodup t ∧
  store_bounded t ∧ launched_unlinked t.

(** [e] is linked in no bucket. *)
Definition unlinked (t : TimeWheel) (e : elem) : Prop :=
  ∀ i l, slots t !! i = Some l → e ∉ l.

(** The key of the task stored at [e]. *)
Definition key_of (t : TimeWheel) (e : elem) : option string :=
  key <$> elems t !! e.

(** The element [e] is due: its cycle count is used up. *)
Definition due (t : TimeWheel) (e : elem) : bool :=
  match elems t !! e with
  | Some te => bool_decide (cycle te ≤ 0)
  | None => false
  end.

(** [execute] leaves [x] linked: it is not a due element of the scanned
    elements [es]. *)
Definition keeps (t : TimeWheel) (es : list elem) (x : elem) : Prop :=
  ¬ (x ∈ es ∧ due t x).

(** [execute] decrements [x]: it is a scanned element that is not due. *)
Definition waits (t : TimeWheel) (es : list elem) (x : elem) : Prop :=
  x ∈ es ∧ ¬ due t x.

#[export] Instance keeps_dec t es x : Decision (keeps t es x).
Proof. unfold keeps. apply _. Defined.

#[export] Instance waits_dec t es x : Decision (waits t es x).
Proof. unfold waits. apply _. Defined.

(** [e] is linked in some bucket. *)
Definition linked (t : TimeWheel) (e : elem) : Prop :=
  ∃ i l, slots t !! i = Some l ∧ e ∈ l.

(** The key [k] is active: the index holds it or a linked task carries it. *)
Definition active (t : TimeWheel) (k : string) : Prop :=
  is_Some (taskMap t !! k) ∨ ∃ e, linked t e ∧ key_of t e = Some k.

(** The invariant in the words of the specification: an active key has one
    index entry; the entry points at an element that carries the key and is
    linked exactly once, in the bucket named by its position; no other
    linked element carries the key. *)
Definition one_slot_one_entry (t : TimeWheel) : Prop :=
  ∀ k, active t k →
    ∃ e te l,
      taskMap t !! k = Some e ∧ elems t !! e = Some te ∧ key te = k ∧
      0 ≤ pos te ∧ slots t !! Z.to_nat (pos te) = Some l ∧
      e ∈ l ∧ NoDup l ∧
      ∀ j l' e', slots t !! j = Some l' → e' ∈ l' →
                 key_of t e' = Some k → e' = e ∧ j = Z.to_nat (pos te).

(** The wheel is as [NewTimeWheel] makes it: a positive interval, a valid
    cursor, and a revolution [interval * slotCount] that fits an [int]. *)
Definition wheel_ok (t : TimeWheel) : Prop :=
  0 < interval t ∧ cursor_ok t ∧ interval t * len (slots t) ≤ int_max.

(* --------------------------------------------------------------------- *)
(** ** Package [GoroutinePool]                                            *)
(* --------------------------------------------------------------------- *)

(** An [interface{}] value: [nil] or a boxed value. *)
Definition iface : Type := option nat.

(** An [error]: [nil] or an error with its message. *)
Definition error : Type := option string.

(** A [Task] is a [func() (interface{}, error)], possibly [nil].  The
    closure may answer differently each time it is called: [body k] is what
    its call number [k] (from 0) returns. *)
Inductive Task :=
  | nilTask
  | Func (body : nat → iface * error).

(** Callbacks are opaque to the pool; they are named by an identifier and
    their calls are recorded. *)
Inductive cb_event :=
  | ResultCalled (cb : nat) (result : iface)
  | ErrCalled (cb : nat) (err : error).

(** The [dispatch] goroutine: waiting to receive a task; holding a task
    while no worker is idle; having seen an idle worker; having popped a
    worker index and sending the task to that worker. *)
Inductive dispatcher :=
  | Receiving
  | Holding (t : Task)
  | Ready (t : Task)
  | Sending (t : Task) (workerIndex : Z).

(** A worker owns a mailbox, a channel of capacity 1.  [wid] is the serial
    number of its creation. *)
Record Worker := mkWorker {
  wid : nat;
  worker_taskQueue : list Task
}.

Record GoroutinePool := mkPool {
  workers : list Worker;
  workerStack : list Z;
  maxWorkers : Z;
  minWorkers : Z;
  (** the content of the buffered channel, oldest first *)
  taskQueue : list Task;
  taskQueueSize : Z;
  retryCount : Z;
  timeout : Z;
  resultCallback : option nat;
  errCallback : option nat;
  (** where the [dispatch] goroutine stands *)
  dispatching : dispatcher;
  (** how many workers were created so far *)
  spawned : nat;
  (** the callback calls made so far, oldest first *)
  called : list cb_event
}.

Definition set_workers (ws : list Worker) (p : GoroutinePool) :=
  mkPool ws (workerStack p) (maxWorkers p) (minWorkers p) (taskQueue p)
    (taskQueueSize p) (retryCount p) (timeout p) (resultCallback p)
    (errCallback p) (dispatching p) (spawned p) (called p).
Definition set_workerStack (st : list Z) (p : GoroutinePool) :=
  mkPool (workers p) st (maxWorkers p) (minWorkers p) (taskQueue p)
    (taskQueueSize p) (retryCount p) (timeout p) (resultCallback p)
    (errCallback p) (dispatching p) (spawned p) (called p).
Definition set_minWorkers (n : Z) (p : GoroutinePool) :=
  mkPool (workers p) (workerStack p) (maxWorkers p) n (taskQueue p)
    (taskQueueSize p) (retryCount p) (timeout p) (resultCallback p)
    (errCallback p) (dispatching p) (spawned p) (called p).
Definition set_taskQueue (q : list Task) (p : GoroutinePool) :=
  mkPool (workers p) (workerStack p) (maxWorkers p) (minWorkers p) q
    (taskQueueSize p) (retryCount p) (timeout p) (resultCallback p)
    (errCallback p) (dispatching p) (spawned p) (called p).
Definition set_taskQueueSize (n : Z) (p : GoroutinePool) :=
  mkPool (workers p) (workerStack p) (maxWorkers p) (minWorkers p)
    (taskQueue p) n (retryCount p) (timeout p) (resultCallback p)
    (errCallback p) (dispatching p) (spawned p) (called p).
Definition set_retryCount (n : Z) (p : GoroutinePool) :=
  mkPool (workers p) (workerStack p) (maxWorkers p) (minWorkers p)
    (taskQueue p) (taskQueueSize p) n (timeout p) (resultCallback p)
    (errCallback p) (dispatching p) (spawned p) (called p).
Definition set_timeout (d : Z) (p : GoroutinePool) :=
  mkPool (workers p) (workerStack p) (maxWorkers p) (minWorkers p)
    (taskQueue p) (taskQueueSize p) (retryCount p) d (resultCallback p)
    (errCallback p) (dispatching p) (spawned p) (called p).
Definition set_resultCallback (cb : option nat) (p : GoroutinePool) :=
  mkPool (workers p) (workerStack p) (maxWorkers p) (minWorkers p)
    (taskQueue p) (taskQueueSize p) (retryCount p) (timeout p) cb
    (errCallback p) (dispatching p) (spawned p) (called p).
Definition set_dispatching (t : dispatcher) (p : GoroutinePool) :=
  mkPool (workers p) (workerStack p) (maxWorkers p) (minWorkers p)
    (taskQueue p) (taskQueueSize p) (retryCount p) (timeout p)
    (resultCallback p) (errCallback p) t (spawned p) (called p).
Definition set_spawned (n : nat) (p : GoroutinePool) :=
  mkPool (workers p) (workerStack p) (maxWorkers p) (minWorkers p)
    (taskQueue p) (taskQueueSize p) (retryCount p) (timeout p)
    (resultCallback p) (errCallback p) (dispatching p) n (called p).
Definition set_called (c : list cb_event) (p : GoroutinePool) :=
  mkPool (workers p) (workerStack p) (maxWorkers p) (minWorkers p)
    (taskQueue p) (taskQueueSize p) (retryCount p) (timeout p)
    (resultCallback p) (errCallback p) (dispatching p) (spawned p) c.

(** *** Options ([option.go]) *)

(** [WithLock] replaces the lock and the condition variable, which the
    model does not carry. *)
Inductive Option :=
  | WithLock
  | WithMinWorkers (minWorkers : Z)
  | WithTimeout (timeout : Z)
  | WithResultCallBack (callback : option nat)
  | WithRetryCount (retryCount : Z)
  | WithTaskQueueSize (size : Z).

Definition apply_option (pool : GoroutinePool) (opt : Option) : GoroutinePool :=
  match opt with
  | WithLock => pool
  | WithMinWorkers n => set_minWorkers n pool
  | WithTimeout d => set_timeout d pool
  | WithResultCallBack cb => set_resultCallback cb pool
  | WithRetryCount n => set_retryCount n pool
  | WithTaskQueueSize n => set_taskQueueSize n pool
  end.

(** *** The pool ([NewGoroutinePool] and its methods) *)

Definition newWorker (serial : nat) : Worker := mkWorker serial [].

(** The loop of [NewGoroutinePool] that fills [workers] and [workerStack]. *)
Definition initial_workers (n : nat) : list Worker := newWorker <$> seq 0 n.
Definition initial_stack (n : nat) : list Z := Z.of_nat <$> seq 0 n.

(** [NewGoroutinePool]; [None] when a [make] panics on a negative size. *)
Definition NewGoroutinePool (maxWorkers : Z) (options : list Option)
  : option GoroutinePool :=
  let pool := mkPool [] [] maxWorkers maxWorkers [] 1000000 0 0 None None
                     Receiving 0%nat [] in
  let pool := foldl apply_option pool options in
  if decide (taskQueueSize pool < 0) then None
  else if decide (minWorkers pool < 0) then None
  else
    let n := Z.to_nat (minWorkers pool) in
    Some (set_spawned n
           (set_workerStack (initial_stack n)
             (set_workers (initial_workers n) pool))).

Definition GetRunning (pool : GoroutinePool) : Z :=
  int_sub (len (workers pool)) (len (workerStack pool)).

Definition GetWorkers (pool : GoroutinePool) : Z := len (workers pool).

Definition GetTaskQueenSize (pool : GoroutinePool) : Z := taskQueueSize pool.

(** [Submit]: the send completes when the buffer has room, or, the buffer
    being empty, when [dispatch] is waiting to receive; [None] when the
    caller stays blocked. *)
Definition Submit (task : Task) (pool : GoroutinePool) : option GoroutinePool :=
  if decide (len (taskQueue pool) < taskQueueSize pool) then
    Some (set_taskQueue (taskQueue pool ++ [task]) pool)
  else
    match taskQueue pool, dispatching pool with
    | [], Receiving => Some (set_dispatching (Holding task) pool)
    | _, _ => None
    end.

(** [popWorker]; [None] when the stack is empty (index out of range). *)
Definition popWorker (pool : GoroutinePool) : option (Z * GoroutinePool) :=
  match last (workerStack pool) with
  | None => None
  | Some workerIndex =>
    Some (workerIndex,
          set_workerStack (take (length (workerStack pool) - 1) (workerStack pool)) pool)
  end.

Definition pushWorker (workerIndex : Z) (pool : GoroutinePool) : GoroutinePool :=
  set_workerStack (workerStack pool ++ [workerIndex]) pool.

(** *** The worker ([worker.go]) *)

(** What one attempt gives to [executeTask]: the call returns, or it never
    does. *)
Inductive attempt :=
  | Returned (result : iface) (err : error)
  | Blocked.

Definition executeTaskWithoutTimeout (body : nat → iface * error) (k : nat)
  : attempt :=
  Returned (body k).1 (body k).2.

Definition timeout_error : error := Some "task timeout".

(** [executeTaskWithTimeout] starts a goroutine for the task body and waits
    in a [select].  Its two unbuffered channels and the context are
    modelled step by step. *)
Inductive body_state :=
  | BodyRunning
  | BodySelect (res : iface) (err : error)
  | BodyDone.

Inductive caller_state :=
  | CallerSelect
  | CallerWaitErr (result : iface)
  | CallerReturned (result : iface) (err : error).

Record timed := mkTimed {
  body_st : body_state;
  caller_st : caller_state;
  ctx_done : bool
}.

Definition timed_init : timed := mkTimed BodyRunning CallerSelect false.

Inductive timed_step (out : iface * error) : timed → timed → Prop :=
  (** [res, err := t()] returns and the goroutine reaches its [select] *)
  | body_returns c d :
      timed_step out (mkTimed BodyRunning c d)
                     (mkTimed (BodySelect out.1 out.2) c d)
  (** the deadline passes *)
  | deadline b c :
      timed_step out (mkTimed b c false) (mkTimed b c true)
  (** [resultChan <- res] meets [result = <-resultChan] *)
  | send_result res err d :
      timed_step out (mkTimed (BodySelect res err) CallerSelect d)
                     (mkTimed BodyDone (CallerWaitErr res) d)
  (** [errChan <- err] meets [err = <-errChan] *)
  | send_err res err result d :
      timed_step out (mkTimed (BodySelect res err) (CallerWaitErr result) d)
                     (mkTimed BodyDone (CallerReturned result err) d)
  (** the goroutine takes [<-ctx.Done()] *)
  | body_cancelled res err c :
      timed_step out (mkTimed (BodySelect res err) c true)
                     (mkTimed BodyDone c true)
  (** the caller takes [<-ctx.Done()] *)
  | caller_timeout b :
      timed_step out (mkTimed b CallerSelect true)
                     (mkTimed b (CallerReturned None timeout_error) true).

Definition timed_reachable (out : iface * error) : timed → Prop :=
  rtc (timed_step out) timed_init.

(** The two ways [executeTaskWithTimeout] can end, by whether the body
    hands over its result before the caller sees the deadline: the caller
    then waits for an error that is never sent; otherwise it returns the
    timeout error. *)
Definition executeTaskWithTimeout (body : nat → iface * error) (k : nat)
    (timely : bool) : attempt :=
  if timely then Blocked else Returned None timeout_error.

(** The loop of [executeTask] from iteration [i] on; [fuel] bounds the
    iterations left.  [sched k] tells whether attempt [k] is timely.  The
    result comes with the attempts made. *)
Fixpoint executeTask_loop (fuel : nat) (i : Z) (body : nat → iface * error)
    (pool : GoroutinePool) (sched : nat → bool) : attempt * list attempt :=
  match fuel with
  | O => (Returned None None, [])
  | S fuel' =>
    if decide (i ≤ retryCount pool) then
      let a := if decide (timeout pool > 0)
               then executeTaskWithTimeout body (Z.to_nat i) (sched (Z.to_nat i))
               else executeTaskWithoutTimeout body (Z.to_nat i) in
      match a with
      | Blocked => (Blocked, [a])
      | Returned result err =>
        if decide (err = None ∨ i = retryCount pool) then (a, [a])
        else
          let r := executeTask_loop fuel' (i + 1) body pool sched in
          (r.1, a :: r.2)
      end
    else (Returned None None, [])
  end.

Definition executeTask (body : nat → iface * error) (pool : GoroutinePool)
    (sched : nat → bool) : attempt * list attempt :=
  executeTask_loop (Z.to_nat (retryCount pool + 1)) 0 body pool sched.

Definition handleResult (result : iface) (err : error) (pool : GoroutinePool)
  : list cb_event :=
  match err, errCallback pool with
  | Some _, Some cb => [ErrCalled cb err]
  | _, _ =>
    match resultCallback pool with
    | Some cb => [ResultCalled cb result]
    | None => []
    end
  end.

(** What a worker does with one task taken from its mailbox: the attempts,
    the callback calls, and whether it comes back to push its index. *)
Record handled := mkHandled {
  attempts : list attempt;
  callbacks : list cb_event;
  finished : bool
}.

Definition worker_handle (t : Task) (pool : GoroutinePool) (sched : nat → bool)
  : handled :=
  match t with
  | nilTask => mkHandled [] [] true
  | Func body =>
    match executeTask body pool sched with
    | (Returned result err, log) =>
        mkHandled log (handleResult result err pool) true
    | (Blocked, log) => mkHandled log [] false
    end
  end.

(** How often each callback was called. *)
Definition is_result_call (ev : cb_event) : bool :=
  match ev with ResultCalled _ _ => true | ErrCalled _ _ => false end.
Definition is_err_call (ev : cb_event) : bool :=
  match ev with ResultCalled _ _ => false | ErrCalled _ _ => true end.
Definition result_calls (l : list cb_event) : nat :=
  length (List.filter is_result_call l).
Definition err_calls (l : list cb_event) : nat :=
  length (List.filter is_err_call l).

(** *** The goroutines of the pool, step by step *)

(** [s[:n]]; [None] when the bound is out of range (the bounds used here
    never exceed the length, so the capacity plays no part). *)
Definition slice_to {A} (s : list A) (n : Z) : option (list A) :=
  if decide (0 ≤ n ≤ len s) then Some (take (Z.to_nat n) s) else None.

(** [sort.Ints]. *)
Definition sort_Ints (l : list Z) : list Z := merge_sort Z.le l.

(** [dispatch]: [for t := range pool.taskQueue]. *)
Definition dispatch_receive (pool : GoroutinePool) : GoroutinePool :=
  match dispatching pool, taskQueue pool with
  | Receiving, t :: q => set_dispatching (Holding t) (set_taskQueue q pool)
  | _, _ => pool
  end.

(** [dispatch]: the wait loop ends when the stack is seen non-empty. *)
Definition dispatch_observe (pool : GoroutinePool) : GoroutinePool :=
  match dispatching pool with
  | Holding t =>
    if decide (len (workerStack pool) = 0) then pool
    else set_dispatching (Ready t) pool
  | _ => pool
  end.

(** [dispatch]: [workerIndex := pool.popWorker()]. *)
Definition dispatch_pop (pool : GoroutinePool) : option GoroutinePool :=
  match dispatching pool with
  | Ready t =>
    match popWorker pool with
    | None => None
    | Some (workerIndex, pool') =>
        Some (set_dispatching (Sending t workerIndex) pool')
    end
  | _ => Some pool
  end.

(** [dispatch]: [pool.workers[workerIndex].taskQueue <- t]; the send waits
    while the mailbox is full. *)
Definition dispatch_send (pool : GoroutinePool) : option GoroutinePool :=
  match dispatching pool with
  | Sending t workerIndex =>
    if decide (0 ≤ workerIndex) then
      match workers pool !! Z.to_nat workerIndex with
      | None => None
      | Some w =>
        if decide (len (worker_taskQueue w) < 1) then
          Some (set_dispatching Receiving
                 (set_workers
                   (<[Z.to_nat workerIndex :=
                        mkWorker (wid w) (worker_taskQueue w ++ [t])]>
                      (workers pool)) pool))
        else Some pool
      end
    else None
  | _ => Some pool
  end.

(** One round of the loop of [Worker.start] for the worker at index [i]:
    it takes a task from its mailbox, runs it, and pushes its index back,
    unless the task never comes back. *)
Definition worker_round (i : nat) (sched : nat → bool) (pool : GoroutinePool)
  : GoroutinePool :=
  match workers pool !! i with
  | Some (mkWorker serial (t :: q)) =>
    let h := worker_handle t pool sched in
    let pool1 :=
      set_called (called pool ++ callbacks h)
        (set_workers (<[i := mkWorker serial q]> (workers pool)) pool) in
    if finished h then pushWorker (Z.of_nat i) pool1 else pool1
  | _ => pool
  end.

(** One pass of the scale-up loop. *)
Definition add_worker (pool : GoroutinePool) : GoroutinePool :=
  let ws := workers pool ++ [newWorker (spawned pool)] in
  set_spawned (S (spawned pool))
    (set_workerStack (workerStack pool ++ [int_sub (len ws) 1])
      (set_workers ws pool)).

Fixpoint add_workers (n : nat) (pool : GoroutinePool) : GoroutinePool :=
  match n with
  | O => pool
  | S n' => add_workers n' (add_worker pool)
  end.

(** What [adjustWorkers] does when its ticker fires. *)
Definition adjustWorkers (pool : GoroutinePool) : option GoroutinePool :=
  match int_quo (int_mul (len (workers pool)) 3) 4 with
  | None => None
  | Some threshold =>
    if decide (len (taskQueue pool) > threshold ∧
               len (workers pool) < maxWorkers pool) then
      let newWorkerNum :=
        int_sub (Z.min (int_mul (len (workers pool)) 2) (maxWorkers pool))
                (len (workers pool)) in
      Some (add_workers (Z.to_nat newWorkerNum) pool)
    else if decide (len (taskQueue pool) = 0 ∧
                    len (workerStack pool) = len (workers pool) ∧
                    len (workers pool) > minWorkers pool) then
      match int_quo (int_add (int_sub (len (workers pool)) (minWorkers pool)) 1) 2 with
      | None => None
      | Some removeWorkerNum =>
        let sorted := sort_Ints (workerStack pool) in
        match slice_to (workers pool)
                (int_sub (len (workers pool)) removeWorkerNum) with
        | None => None
        | Some ws =>
          match slice_to sorted (int_sub (len sorted) removeWorkerNum) with
          | None => None
          | Some st => Some (set_workerStack st (set_workers ws pool))
          end
        end
      end
    else Some pool
  end.

(** What can happen to a running pool. *)
Inductive pool_event :=
  | EvSubmit (t : Task)
  | EvReceive
  | EvObserve
  | EvPop
  | EvSend
  | EvWorker (i : nat) (sched : nat → bool)
  | EvAdjust.

(** One step of the pool; [None] when a goroutine panics.  A step that
    cannot be taken yet leaves the pool as it is. *)
Definition pool_step (ev : pool_event) (pool : GoroutinePool)
  : option GoroutinePool :=
  match ev with
  | EvSubmit t => Some (default pool (Submit t pool))
  | EvReceive => Some (dispatch_receive pool)
  | EvObserve => Some (dispatch_observe pool)
  | EvPop => dispatch_pop pool
  | EvSend => dispatch_send pool
  | EvWorker i sched => Some (worker_round i sched pool)
  | EvAdjust => adjustWorkers pool
  end.

Fixpoint pool_run (evs : list pool_event) (pool : GoroutinePool)
  : option GoroutinePool :=
  match evs with
  | [] => Some pool
  | ev :: evs' =>
    match pool_step ev pool with
    | None => None
    | Some pool' => pool_run evs' pool'
    end
  end.

(** The queue capacity that the options ask for. *)
Definition configured_queue_size (options : list Option) : Z :=
  foldl (λ size opt, match opt with WithTaskQueueSize n => n | _ => size end)
        1000000 options.

(** The floor that the options ask for. *)
Definition configured_min (maxWorkers : Z) (options : list Option) : Z :=
  foldl (λ m opt, match opt with WithMinWorkers n => n | _ => m end)
        maxWorkers options.

(** [ceil(x / 2)]. *)
Definition ceil_half (x : Z) : Z := - ((- x) `div` 2).

(** Indices of the stack are distinct and name workers. *)
Definition stack_ok (pool : GoroutinePool) : Prop :=
  NoDup (workerStack pool) ∧
  ∀ i, i ∈ workerStack pool → 0 ≤ i < len (workers pool).

(** A worker with a task in its mailbox, and the worker the dispatcher is
    sending to, are not on the idle stack. *)
Definition busy_ok (pool : GoroutinePool) : Prop :=
  (∀ i w, workers pool !! i = Some w → worker_taskQueue w ≠ [] →
     (Z.of_nat i ∉ workerStack pool) ∧ (length (worker_taskQueue w) ≤ 1)%nat ∧
     ∀ t, dispatching pool ≠ Sending t (Z.of_nat i)) ∧
  (∀ t i, dispatching pool = Sending t i →
     (i ∉ workerStack pool) ∧ 0 ≤ i < len (workers pool)).

(** Workers are listed in the order of their creation. *)
Definition creation_ordered (pool : GoroutinePool) : Prop :=
  StronglySorted lt (wid <$> workers pool) ∧
  ∀ w, w ∈ workers pool → (wid w < spawned pool)%nat.

(** The worker count is within its bounds, and the products
    [len(workers)*2] and [len(workers)*3] of [adjustWorkers] fit an [int]. *)
Definition bounds_ok (pool : GoroutinePool) : Prop :=
  0 ≤ minWorkers pool ∧
  minWorkers pool ≤ len (workers pool) ≤ maxWorkers pool ∧
  3 * maxWorkers pool ≤ int_max.

(** The part of the invariant that does not bound the worker count. *)
Definition core_inv (pool : GoroutinePool) : Prop :=
  stack_ok pool ∧ busy_ok pool ∧ creation_ordered pool.

Definition pool_inv (pool : GoroutinePool) : Prop :=
  stack_ok pool ∧ busy_ok pool ∧ creation_ordered pool ∧ bounds_ok pool.

(** *** Concrete inputs used by the examples below *)

(** A task that fails on its first call and succeeds afterwards. *)
Definition fails_once (k : nat) : iface * error :=
  if decide (k < 1)%nat then (None, Some "boom") else (Some 42%nat, None).

(** A task that always fails. *)
Definition always_fails (k : nat) : iface * error := (None, Some "boom").

(** Every task body hands over its result before the deadline. *)
Definition prompt (k : nat) : bool := true.

(** Two pools have the same configuration. *)
Definition same_config (p p' : GoroutinePool) : Prop :=
  maxWorkers p' = maxWorkers p ∧ minWorkers p' = minWorkers p ∧
  taskQueueSize p' = taskQueueSize p ∧ retryCount p' = retryCount p ∧
  timeout p' = timeout p ∧ resultCallback p' = resultCallback p ∧
  errCallback p' = errCallback p.

(** 100 ms in nanoseconds. *)
Definition ms100 : Z := 100000000.

(** A wheel of 10 slots ticking every 100 ms, as in the test of the
    package; the same wheel with two tasks in its first bucket, one due and
    one that waits two revolutions; and with one task under the key k. *)
Definition wheel0 : TimeWheel := NewTimeWheel 10 ms100.
Definition wheel_ab : TimeWheel :=
  run [AddReq (mkTask 1%nat 0 0 "a"); AddReq (mkTask 2%nat 0 2 "b")] wheel0.
Definition wheel_k : TimeWheel := run [AddReq (mkTask 1%nat 3 0 "k")] wheel0.

(** A pool of one to four workers goes through a burst: two submissions,
    a scale-up, and the dispatch and completion of both tasks. *)
Definition burst : list pool_event :=
  [EvSubmit nilTask; EvSubmit (Func always_fails); EvAdjust;
   EvReceive; EvObserve; EvPop; EvSend; EvWorker 1 prompt;
   EvReceive; EvObserve; EvPop; EvSend; EvWorker 1 prompt].

(** *** Further notions for the timing wheel *)

(** [n] ticks in a row, nothing else being received. *)
Definition ticks (n : nat) (t : TimeWheel) : TimeWheel := run (replicate n Tick) t.

(** The task [te] is stored at [e] and [e] is linked in the bucket of its
    position. *)
Definition scheduled (t : TimeWheel) (e : elem) (te : TaskElement) : Prop :=
  elems t !! e = Some te ∧ 0 ≤ pos te ∧
  ∃ l, slots t !! Z.to_nat (pos te) = Some l ∧ e ∈ l.

(** The number of the tick that starts a scheduled task: the ticks until the
    cursor reaches its bucket, one revolution for each remaining cycle, and
    the tick that scans the bucket. *)
Definition ticks_to_fire (t : TimeWheel) (te : TaskElement) : nat :=
  Z.to_nat ((pos te - curSlot t) `mod` len (slots t)
            + Z.max 0 (cycle te) * len (slots t) + 1).

(** *** Further notions for the pool *)

(** The test that ends the polling loop of [Wait]: the queue is empty and
    the idle stack is as long as the worker list. *)
Definition Wait_returns (pool : GoroutinePool) : bool :=
  bool_decide (len (taskQueue pool) = 0 ∧
               len (workerStack pool) = len (workers pool)).

(** The test of the wait loop of [Release]: it goes on while the idle stack
    is not as long as [minWorkers]. *)
Definition Release_waits (pool : GoroutinePool) : bool :=
  bool_decide (len (workerStack pool) ≠ minWorkers pool).

(** The steps of the dispatcher and of the workers: what is left once
    [Release] has closed the queue (no submission) and the scaling loop has
    seen the cancelled context (no pass of [adjustWorkers]). *)
Definition runs_after_Release (ev : pool_event) : bool :=
  match ev with
  | EvSubmit _ | EvAdjust => false
  | _ => true
  end.

(** A pool without workers: nothing is idle, nothing was called, and the
    dispatcher has not got hold of a worker. *)
Definition starved (pool : GoroutinePool) : Prop :=
  workers pool = [] ∧ workerStack pool = [] ∧ called pool = [] ∧
  minWorkers pool = 0 ∧
  (dispatching pool = Receiving ∨ ∃ t, dispatching pool = Holding t).

(** The pool of one to four workers after the burst: two idle workers. *)
Definition pool_after_burst : GoroutinePool :=
  mkPool [mkWorker 0 []; mkWorker 1 []] [0; 1] 4 1 [] 1000000 0 0 None None
         Receiving 2%nat [].

(** A pool created with a retry count of -1, a result callback, and no
    worker shortage. *)
Definition no_attempt_pool : GoroutinePool :=
  mkPool [mkWorker 0 []] [0] 1 1 [] 1000000 (-1) 0 (Some 7%nat) None
         Receiving 1%nat [].

(** Attempts 0 and 1 miss the deadline, attempt 2 is timely. *)
Definition late_twice (k : nat) : bool := bool_decide (2 ≤ k)%nat.

(** No attempt is timely. *)
Definition always_late (k : nat) : bool := false.

(* --------------------------------------------------------------------- *)
(** ** Package [di]                                                       *)
(* --------------------------------------------------------------------- *)

(** What [Register], [TryGet], [MustGet] and [Clear] see of a value through
    [reflect]: its dynamic type, with the kind and the printed name of the
    type, and whether the pointer is nil.  [Initialize] walks the fields of
    the registered structs and is not modelled. *)
Inductive Kind := Ptr | Struct | OtherKind.

Record rtype := mkType { type_String : string; type_Kind : Kind }.

(** An [interface{}]: the nil interface, or a value of a dynamic type; [ref]
    tells values of one type apart. *)
Inductive impl :=
  | nil_impl
  | Impl (ty : rtype) (ptr_is_nil : bool) (ref : nat).

#[export] Instance Kind_eq_dec : EqDecision Kind.
Proof. solve_decision. Defined.

#[export] Instance Kind_countable : Countable Kind.
Proof.
  refine (inj_countable'
            (λ k, match k with Ptr => 0 | Struct => 1 | OtherKind => 2 end)%nat
            (λ n, match n with 0 => Ptr | 1 => Struct | _ => OtherKind end)%nat
            _).
  by intros [].
Defined.

#[export] Instance rtype_eq_dec : EqDecision rtype.
Proof. solve_decision. Defined.

#[export] Instance rtype_countable : Countable rtype.
Proof.
  refine (inj_countable' (λ t, (type_String t, type_Kind t))
                         (λ p, mkType p.1 p.2) _).
  by intros [].
Defined.

(** [reflect.TypeOf]: nil for the nil interface. *)
Definition TypeOf (v : impl) : option rtype :=
  match v with
  | nil_impl => None
  | Impl ty _ _ => Some ty
  end.

(** [impl == nil || reflect.ValueOf(impl).IsNil()], for a pointer. *)
Definition IsNil (v : impl) : bool :=
  match v with
  | nil_impl => true
  | Impl _ n _ => n
  end.

Definition initStatus : Z := 1.
Definition runStatus : Z := 2.
Definition interfaceNilError : string := "interface is nil".

Record DefaultContainer := mkContainer {
  interfaceMap : gmap string impl;
  typeMap : gmap rtype impl;
  status : Z
}.

Definition NewContainer : DefaultContainer := mkContainer ∅ ∅ initStatus.

(** A call of [Register] returns or panics with a message. *)
Inductive registered :=
  | Registered (d : DefaultContainer)
  | RegisterPanics (msg : string).

(** [%v] of a [reflect.Type]. *)
Definition show_type (ty : option rtype) : string :=
  match ty with
  | None => "<nil>"
  | Some t => type_String t
  end.

Definition DefaultContainer_Register (name : string) (v : impl)
    (d : DefaultContainer) : registered :=
  if decide (status d ≠ initStatus) then
    RegisterPanics "container is not initStatus, can not register"
  else
    match TypeOf v with
    | Some ty =>
      if decide (type_Kind ty ≠ Ptr) then
        RegisterPanics ("interface: " +:+ name +:+
          " can not be nil or must be a pointer, realType: " +:+
          show_type (Some ty))
      else if IsNil v then RegisterPanics "interface is nil"
      else if decide (is_Some (interfaceMap d !! name)) then
        RegisterPanics ("interface already registered: " +:+ name)
      else if decide (is_Some (typeMap d !! ty)) then
        RegisterPanics ("interface already registered: " +:+ type_String ty)
      else
        Registered
          (mkContainer
             (if decide (name ≠ EmptyString) then <[name := v]> (interfaceMap d)
              else interfaceMap d)
             (<[ty := v]> (typeMap d))
             (status d))
    | None =>
        RegisterPanics ("interface: " +:+ name +:+
          " can not be nil or must be a pointer, realType: " +:+
          show_type None)
    end.

(** [TryGet]: a missing key of a Go map reads as the nil interface. *)
Definition DefaultContainer_TryGet (name : string) (d : DefaultContainer)
  : impl :=
  if decide (name = EmptyString) then nil_impl
  else default nil_impl (interfaceMap d !! name).

Definition DefaultContainer_MustGet (name : string) (d : DefaultContainer)
  : impl * error :=
  if decide (name = EmptyString) then (nil_impl, Some interfaceNilError)
  else
    match interfaceMap d !! name with
    | None => (nil_impl, Some interfaceNilError)
    | Some val => (val, None)
    end.

Definition DefaultContainer_Clear (d : DefaultContainer) : DefaultContainer :=
  mkContainer ∅ ∅ initStatus.

(** The calls that change what a container holds.  A call of [Register]
    that panics leaves the container as it was. *)
Inductive container_call :=
  | CallRegister (name : string) (v : impl)
  | CallClear.

Definition container_step (c : container_call) (d : DefaultContainer)
  : DefaultContainer :=
  match c with
  | CallRegister name v =>
    match DefaultContainer_Register name v d with
    | Registered d' => d'
    | RegisterPanics _ => d
    end
  | CallClear => DefaultContainer_Clear d
  end.

Definition container_run (cs : list container_call) (d : DefaultContainer)
  : DefaultContainer :=
  foldl (λ d c, container_step c d) d cs.

(** What the container holds is well formed: every component is a non-nil
    pointer filed under its own type, no component is named by the empty
    string, and a named component is also filed under its type. *)
Definition container_ok (d : DefaultContainer) : Prop :=
  interfaceMap d !! EmptyString = None ∧
  (∀ ty v, typeMap d !! ty = Some v →
     TypeOf v = Some ty ∧ type_Kind ty = Ptr ∧ IsNil v = false) ∧
  (∀ name v, interfaceMap d !! name = Some v →
     ∃ ty, TypeOf v = Some ty ∧ typeMap d !! ty = Some v).

(** A pointer type and two values of it. *)
Definition ptr_Person : rtype := mkType "*di.Person" Ptr.
Definition alice : impl := Impl ptr_Person false 1.
Definition bob : impl := Impl ptr_Person false 2.

(** Another pointer type and a value of it. *)
Definition ptr_School : rtype := mkType "*di.School" Ptr.
Definition school : impl := Impl ptr_School false 3.

(* ===================================================================== *)
(** * Part II: theorems                                                   *)
(* ===================================================================== *)

(** ** Go's [int] *)

Lemma wrap_id z : is_int z → wrap z = z.
Proof.
  unfold is_int, int_min, int_max, wrap. intros H.
  rewrite Z.mod_small; lia.
Qed.

Lemma wrap_is_int z : is_int (wrap z).
Proof.
  unfold is_int, int_min, int_max, wrap.
  pose proof (Z.mod_pos_bound (z + 2 ^ 63) (2 ^ 64)). lia.
Qed.

(** ** The timing wheel *)

Lemma slot_at_Some t i l :
  slot_at t i = Some l ↔ 0 ≤ i ∧ slots t !! Z.to_nat i = Some l.
Proof.
  unfold slot_at. case_decide; [tauto|].
  split; [done|]. intros [? _]. lia.
Qed.

Lemma slot_at_is_Some t i :
  is_Some (slot_at t i) ↔ 0 ≤ i < len (slots t).
Proof.
  unfold slot_at, len. case_decide.
  - rewrite lookup_lt_is_Some. lia.
  - split; [intros [? ?]; done | lia].
Qed.

Lemma elem_of_list_Remove e x l : x ∈ list_Remove e l ↔ x ∈ l ∧ x ≠ e.
Proof. unfold list_Remove. rewrite list_elem_of_filter. tauto. Qed.

Lemma NoDup_list_Remove e l : NoDup l → NoDup (list_Remove e l).
Proof. apply NoDup_filter. Qed.

Lemma list_Remove_notin e l : e ∉ l → list_Remove e l = l.
Proof.
  intros H. unfold list_Remove. induction l as [|x l IH]; [done|].
  rewrite filter_cons. rewrite not_elem_of_cons in H. destruct H as [? ?].
  case_decide; [|congruence]. f_equal. auto.
Qed.

Lemma lookup_alter_Some {A} (f : A → A) i j (ls : list A) y :
  alter f i ls !! j = Some y →
  ∃ x, ls !! j = Some x ∧ y = if decide (i = j) then f x else x.
Proof.
  rewrite list_lookup_alter. case_decide; subst.
  - destruct (ls !! j) as [x|]; [|done]. intros [= <-]. eauto.
  - eauto.
Qed.

(** What a completed [removeTask] of an indexed key does to the wheel. *)
Lemma removeTask_Some t k e te :
  taskMap t !! k = Some e → elems t !! e = Some te →
  0 ≤ pos te < len (slots t) →
  removeTask t k =
    Ok (set_slots (alter (list_Remove e) (Z.to_nat (pos te)))
         (set_taskMap (delete k) t)).
Proof.
  intros Hk He Hp. unfold removeTask. rewrite Hk. simpl. rewrite He.
  destruct (slot_at_is_Some (set_taskMap (delete k) t) (pos te)) as [_ H].
  destruct (H Hp) as [l ->]. done.
Qed.

Lemma index_sound_range t k e te :
  index_sound t → taskMap t !! k = Some e → elems t !! e = Some te →
  0 ≤ pos te < len (slots t).
Proof.
  intros Hs Hk He. destruct (Hs _ _ Hk) as (te' & l & He' & _ & H0 & Hl & _).
  assert (te' = te) as -> by congruence.
  apply lookup_lt_Some in Hl. unfold len. lia.
Qed.

Lemma removeTask_inv t k :
  wheel_inv t → ∃ t', removeTask t k = Ok t' ∧ wheel_inv t'.
Proof.
  intros (Hs & Hb & Hn & Hst & Hl).
  destruct (taskMap t !! k) as [e|] eqn:Hk; last first.
  { exists t. unfold removeTask. rewrite Hk. done. }
  destruct (Hs _ _ Hk) as (te & l & He & Hkey & H0 & Hsl & Hin).
  pose proof (index_sound_range _ _ _ _ Hs Hk He) as Hr.
  eexists. split; [by apply (removeTask_Some t k e te)|].
  repeat split.
  - intros k' e'. simpl. intros Hk'.
    apply lookup_delete_Some in Hk' as [Hne Hk'].
    destruct (Hs _ _ Hk') as (te' & l' & He' & Hkey' & H0' & Hsl' & Hin').
    assert (e' ≠ e) by (intros ->; congruence).
    exists te'.
    destruct (decide (Z.to_nat (pos te) = Z.to_nat (pos te'))) as [Heq|Hneq].
    + exists (list_Remove e l'). repeat split; auto.
      * rewrite Heq, list_lookup_alter_eq, Hsl'. done.
      * apply elem_of_list_Remove. done.
    + exists l'. repeat split; auto.
      rewrite list_lookup_alter_ne; done.
  - intros i l' e'. simpl. intros Hi Hin'.
    apply lookup_alter_Some in Hi as (l0 & Hi & ->).
    assert (e' ∈ l0 ∧ (Z.to_nat (pos te) = i → e' ≠ e)) as [Hin0 Hd].
    { case_decide; [apply elem_of_list_Remove in Hin'|]; naive_solver. }
    destruct (Hb _ _ _ Hi Hin0) as (te' & He' & Hp' & Hm').
    exists te'. repeat split; auto.
    apply lookup_delete_Some. split; [|done].
    intros Heq. rewrite <- Heq, Hk in Hm'.
    injection Hm' as ->. apply Hd; [|done].
    assert (te' = te) as -> by congruence. lia.
  - intros i l'. simpl. intros Hi.
    apply lookup_alter_Some in Hi as (l0 & Hi & ->).
    case_decide; [apply NoDup_list_Remove|]; eauto.
  - intros e'. simpl. apply Hst.
  - simpl in *. apply Hl. done.
  - simpl in *. intros i l' Hi.
    apply lookup_alter_Some in Hi as (l0 & Hi & ->).
    destruct (Hl _ H) as [_ Hu].
    case_decide; [rewrite elem_of_list_Remove|]; naive_solver.
Qed.

Ltac unfold_inv :=
  unfold index_sound, buckets_indexed, buckets_nodup, store_bounded,
    launched_unlinked, unlinked.

Lemma inv_linked_bounded t i l e :
  wheel_inv t → slots t !! i = Some l → e ∈ l → (e < nextElem t)%nat.
Proof.
  intros (_ & Hb & _ & Hst & _) Hi Hin.
  destruct (Hb _ _ _ Hi Hin) as (te & He & _). apply Hst. eauto.
Qed.

(** Besides keeping the invariant, [removeTask] unlinks the removed element
    everywhere and touches neither the store nor the allocation pointer. *)
Lemma removeTask_facts t k :
  wheel_inv t →
  ∃ t', removeTask t k = Ok t' ∧ wheel_inv t' ∧
    taskMap t' = delete k (taskMap t) ∧ elems t' = elems t ∧
    nextElem t' = nextElem t ∧ launched t' = launched t ∧
    curSlot t' = curSlot t ∧ interval t' = interval t ∧
    length (slots t') = length (slots t) ∧
    (∀ e, taskMap t !! k = Some e → unlinked t' e) ∧
    (∀ i l' e, slots t' !! i = Some l' → e ∈ l' →
       ∃ l, slots t !! i = Some l ∧ e ∈ l).
Proof.
  intros Hinv. destruct (removeTask_inv t k Hinv) as (t' & Hrm & Hinv').
  exists t'. split; [done|]. split; [done|].
  destruct Hinv as (Hs & Hb & Hn & Hst & Hl).
  destruct (taskMap t !! k) as [e|] eqn:Hk; last first.
  { unfold removeTask in Hrm. rewrite Hk in Hrm. injection Hrm as <-.
    rewrite delete_id by done. repeat split; try done. eauto. }
  destruct (Hs _ _ Hk) as (te & l & He & Hkey & H0 & Hsl & Hin).
  pose proof (index_sound_range _ _ _ _ Hs Hk He) as Hr.
  rewrite (removeTask_Some t k e te) in Hrm by done. injection Hrm as <-.
  simpl. repeat split; try done.
  - apply length_alter.
  - intros e' [= <-] i l' Hi.
    apply lookup_alter_Some in Hi as (l0 & Hi & ->).
    case_decide as Hd.
    + rewrite elem_of_list_Remove. tauto.
    + intros Hin'. destruct (Hb _ _ _ Hi Hin') as (te' & He' & Hp' & _).
      assert (te' = te) as -> by congruence. lia.
  - intros i l' e' Hi Hin'.
    apply lookup_alter_Some in Hi as (l0 & Hi & ->).
    exists l0. split; [done|].
    case_decide; [apply elem_of_list_Remove in Hin'; tauto|done].
Qed.

(** Linking a freshly allocated element under a key that the index does not
    hold keeps the invariant. *)
Lemma push_inv t te :
  wheel_inv t → taskMap t !! key te = None →
  0 ≤ pos te < len (slots t) →
  wheel_inv
    (set_taskMap (insert (key te) (nextElem t))
      (set_slots (alter (list_PushBack (nextElem t)) (Z.to_nat (pos te)))
        (set_elems (insert (nextElem t) te)
          (set_nextElem (S (nextElem t)) t)))).
Proof.
  intros Hinv Hnone Hr.
  pose proof (inv_linked_bounded t) as Hlb.
  destruct Hinv as (Hs & Hb & Hn & Hst & Hl).
  set (e := nextElem t).
  assert (∃ l, slots t !! Z.to_nat (pos te) = Some l) as [lp Hlp].
  { apply lookup_lt_is_Some. unfold len in Hr. lia. }
  repeat split; unfold_inv; simpl.
  - intros k' e' Hk'. apply lookup_insert_Some in Hk' as [[<- <-]|[Hne Hk']].
    + exists te, (list_PushBack e lp). rewrite lookup_insert_eq.
      repeat split; [lia|..].
      * rewrite list_lookup_alter_eq, Hlp. done.
      * unfold list_PushBack. set_solver.
    + destruct (Hs _ _ Hk') as (te' & l' & He' & Hkey' & H0' & Hsl' & Hin').
      assert (e' ≠ e).
      { intros ->. assert (e < nextElem t)%nat by (apply Hst; eauto).
        unfold e in *. lia. }
      exists te'.
      destruct (decide (Z.to_nat (pos te) = Z.to_nat (pos te'))) as [Heq|Hneq].
      * exists (list_PushBack e l'). rewrite lookup_insert_ne by done.
        repeat split; auto.
        -- rewrite Heq, list_lookup_alter_eq, Hsl'. done.
        -- unfold list_PushBack. set_solver.
      * exists l'. rewrite lookup_insert_ne by done. repeat split; auto.
        rewrite list_lookup_alter_ne; done.
  - intros i l' e' Hi Hin'.
    apply lookup_alter_Some in Hi as (l0 & Hi & ->).
    destruct (decide (e' = e)) as [->|Hne].
    + case_decide as Hd.
      * exists te. rewrite !lookup_insert_eq. repeat split. lia.
      * exfalso. pose proof (Hlb _ _ _ (conj Hs (conj Hb (conj Hn (conj Hst Hl)))) Hi Hin').
        unfold e in *. lia.
    + assert (e' ∈ l0) as Hin0.
      { case_decide; [|done]. unfold list_PushBack in Hin'. set_solver. }
      destruct (Hb _ _ _ Hi Hin0) as (te' & He' & Hp' & Hm').
      exists te'. rewrite lookup_insert_ne by done.
      repeat split; auto.
      rewrite lookup_insert_ne; [done|]. intros Heq. congruence.
  - intros i l' Hi.
    apply lookup_alter_Some in Hi as (l0 & Hi & ->).
    case_decide; [|eauto]. unfold list_PushBack.
    apply NoDup_app. repeat split; [eauto| |apply NoDup_singleton].
    intros x Hx Hx'. apply list_elem_of_singleton in Hx' as ->.
    pose proof (Hlb _ _ _ (conj Hs (conj Hb (conj Hn (conj Hst Hl)))) Hi Hx).
    unfold e in *. lia.
  - intros e' He'. apply lookup_insert_is_Some in He' as [<-|[_ He']]; [lia|].
    apply Hst in He'. lia.
  - destruct (Hl _ H) as [Hsome _].
    apply lookup_insert_is_Some. destruct (decide (e = e0)); auto.
  - intros i l' Hi.
    apply lookup_alter_Some in Hi as (l0 & Hi & ->).
    destruct (Hl _ H) as [Hsome Hu].
    assert (e0 ≠ e).
    { intros ->. apply Hst in Hsome. unfold e in *. lia. }
    case_decide; [|by eapply Hu]. unfold list_PushBack.
    specialize (Hu _ _ Hi). set_solver.
Qed.

Lemma addTask_inv t te : wheel_inv t → wheel_inv (state_of (addTask t te)).
Proof.
  intros Hinv. unfold addTask.
  destruct (slot_at t (pos te)) as [l|] eqn:Hsl; [|done].
  assert (0 ≤ pos te < len (slots t)) as Hr.
  { apply slot_at_is_Some. eauto. }
  destruct (taskMap t !! key te) as [e|] eqn:Hk.
  - destruct (removeTask_facts t (key te) Hinv)
      as (t1 & -> & Hinv1 & Hm & _ & _ & _ & _ & _ & Hlen & _).
    simpl. apply push_inv; [done| |].
    + rewrite Hm. apply lookup_delete_eq.
    + unfold len in *. lia.
  - simpl. by apply push_inv.
Qed.

Lemma launch_inv t e :
  wheel_inv t → unlinked t e → is_Some (elems t !! e) →
  wheel_inv (set_launched (λ g, g ++ [e]) t).
Proof.
  intros (Hs & Hb & Hn & Hst & Hl) Hu He.
  repeat split; unfold_inv; simpl; try done.
  - apply elem_of_app in H as [H|H]; [by apply Hl|].
    apply list_elem_of_singleton in H as ->. done.
  - apply elem_of_app in H as [H|H]; [by apply Hl|].
    apply list_elem_of_singleton in H as ->. apply Hu.
Qed.

Lemma dec_cycle_inv t e te :
  wheel_inv t → elems t !! e = Some te →
  wheel_inv (set_elems (insert e (dec_cycle te)) t).
Proof.
  intros (Hs & Hb & Hn & Hst & Hl) He.
  repeat split; unfold_inv; simpl; try done.
  - intros k e' Hk.
    destruct (Hs _ _ Hk) as (te' & l' & He' & Hkey' & H0' & Hsl' & Hin').
    destruct (decide (e' = e)) as [->|Hne].
    + assert (te' = te) as -> by congruence.
      exists (dec_cycle te), l'. rewrite lookup_insert_eq. done.
    + exists te', l'. rewrite lookup_insert_ne; done.
  - intros i l e' Hi Hin.
    destruct (Hb _ _ _ Hi Hin) as (te' & He' & Hp' & Hm').
    destruct (decide (e' = e)) as [->|Hne].
    + assert (te' = te) as -> by congruence.
      exists (dec_cycle te). rewrite lookup_insert_eq. done.
    + exists te'. rewrite lookup_insert_ne; done.
  - intros e' He'. apply Hst.
    apply lookup_insert_is_Some in He' as [<-|[_ He']]; eauto.
  - destruct (Hl _ H) as [Hsome _].
    apply lookup_insert_is_Some. destruct (decide (e = e0)); auto.
  - by apply Hl.
Qed.

(** On a linked element that is due, the iteration of [execute] is
    [removeTask] of its key followed by the start of the goroutine. *)
Lemma execute_one_due t i l e te :
  wheel_inv t → slots t !! i = Some l → e ∈ l →
  elems t !! e = Some te → ¬ cycle te > 0 →
  ∃ t1, removeTask t (key te) = Ok t1 ∧
        execute_one i e t = Ok (set_launched (λ g, g ++ [e]) t1).
Proof.
  intros Hinv Hi Hin He Hc.
  destruct Hinv as (Hs & Hb & Hn & Hst & Hl).
  destruct (Hb _ _ _ Hi Hin) as (te' & He' & Hp' & Hm').
  assert (te' = te) as -> by congruence.
  pose proof (index_sound_range _ _ _ _ Hs Hm' He) as Hr.
  eexists. split; [by apply (removeTask_Some t (key te) e te)|].
  unfold execute_one. rewrite He. case_decide; [done|].
  rewrite Hp', Nat2Z.id. done.
Qed.

Lemma execute_one_inv t i l e :
  wheel_inv t → slots t !! i = Some l → e ∈ l →
  ∃ t', execute_one i e t = Ok t' ∧ wheel_inv t'.
Proof.
  intros Hinv Hi Hin.
  pose proof Hinv as (Hs & Hb & Hn & Hst & Hl).
  destruct (Hb _ _ _ Hi Hin) as (te & He & Hp & Hm).
  destruct (decide (cycle te > 0)) as [Hc|Hc].
  - eexists. split.
    + unfold execute_one. rewrite He. case_decide; done.
    + by apply dec_cycle_inv.
  - destruct (execute_one_due t i l e te) as (t1 & Hrm & ->); try done.
    eexists. split; [done|].
    destruct (removeTask_facts t (key te) Hinv)
      as (t1' & Hrm' & Hinv1 & _ & Hel & _ & _ & _ & _ & _ & Hu & _).
    assert (t1' = t1) as -> by congruence.
    apply launch_inv; [done|by apply Hu|]. rewrite Hel. eauto.
Qed.

Lemma filter_ext_in {A} (P Q : A → Prop)
    `{∀ x, Decision (P x)} `{∀ x, Decision (Q x)} (l : list A) :
  (∀ x, x ∈ l → (P x ↔ Q x)) → filter P l = filter Q l.
Proof.
  induction l as [|x l IH]; intros HPQ; [done|].
  rewrite !filter_cons.
  assert (P x ↔ Q x) as Hx by (apply HPQ; left).
  rewrite IH by (intros y Hy; apply HPQ; by right).
  do 2 case_decide; tauto || done.
Qed.

Lemma due_iff t e :
  due t e ↔ ∃ te, elems t !! e = Some te ∧ cycle te ≤ 0.
Proof.
  unfold due. destruct (elems t !! e) as [te|].
  - rewrite bool_decide_spec. split; [eauto|]. by intros (? & [= <-] & ?).
  - split; [done|]. by intros (? & [=] & _).
Qed.

Lemma due_same_elems t t' e : elems t' !! e = elems t !! e → due t' e = due t e.
Proof. unfold due. by intros ->. Qed.

(** The effect of [execute] on a part [es] of the bucket at index [i]. *)
Lemma execute_spec i es :
  ∀ t l, wheel_inv t → slots t !! i = Some l → es ⊆ l → NoDup es →
  ∃ t', execute i es t = Ok t' ∧ wheel_inv t' ∧
    slots t' = alter (filter (keeps t es)) i (slots t) ∧
    launched t' = launched t ++ filter (λ x, due t x) es ∧
    (∀ k x, taskMap t' !! k = Some x ↔ taskMap t !! k = Some x ∧ keeps t es x) ∧
    (∀ x, elems t' !! x =
          if decide (waits t es x) then dec_cycle <$> elems t !! x
          else elems t !! x) ∧
    curSlot t' = curSlot t ∧ interval t' = interval t ∧
    nextElem t' = nextElem t.
Proof.
  induction es as [|e es IH]; intros t l Hinv Hi Hsub Hnd.
  { exists t. simpl. split; [done|]. split; [done|]. repeat split; try done.
    - rewrite list_alter_id; [done|]. intros l0.
      rewrite (list_filter_iff _ (λ _, True)); [|unfold keeps; set_solver].
      induction l0 as [|? ? IHl]; [done|]. rewrite filter_cons_True by done.
      by rewrite IHl.
    - by rewrite app_nil_r.
    - unfold keeps. set_solver.
    - tauto. }
  apply NoDup_cons in Hnd as [Hne Hnd].
  assert (e ∈ l) as Hin by set_solver.
  assert (es ⊆ l) as Hsub' by set_solver.
  pose proof Hinv as (Hs & Hb & Hn & Hst & Hl).
  destruct (Hb _ _ _ Hi Hin) as (te & He & Hp & Hm).
  destruct (decide (cycle te > 0)) as [Hc|Hc].
  - (* the element waits for a later revolution *)
    set (t1 := set_elems (insert e (dec_cycle te)) t).
    assert (execute_one i e t = Ok t1) as Hone.
    { unfold execute_one. rewrite He. case_decide; done. }
    assert (¬ due t e) as Hnd_e.
    { rewrite due_iff. intros (te' & He' & ?).
      assert (te' = te) as -> by congruence. lia. }
    assert (∀ x, x ≠ e → due t1 x = due t x) as Hdue.
    { intros x Hx. apply due_same_elems. simpl. by rewrite lookup_insert_ne. }
    destruct (IH t1 l) as (t' & Hex & Hinv' & Hsl & Hla & Hmap & Hel & ? & ? & ?);
      [by apply dec_cycle_inv|done|done|done|].
    exists t'. simpl. rewrite Hone. split; [done|]. split; [done|].
    split_and!; try done.
    + rewrite Hsl. simpl. apply list_alter_ext; [|done]. intros l0 _.
      apply list_filter_iff. intros x. unfold keeps.
      destruct (decide (x = e)) as [->|Hx]; [set_solver|].
      rewrite Hdue by done. set_solver.
    + rewrite Hla. simpl. rewrite filter_cons_False by done. f_equal.
      apply filter_ext_in. intros x Hx. rewrite Hdue; [done|set_solver].
    + intros k x. rewrite Hmap. simpl.
      assert (keeps t1 es x ↔ keeps t (e :: es) x); [|tauto].
      unfold keeps. destruct (decide (x = e)) as [->|Hx]; [set_solver|].
      rewrite Hdue by done. set_solver.
    + intros x. rewrite Hel. simpl.
      destruct (decide (x = e)) as [->|Hx].
      * rewrite lookup_insert_eq, He.
        do 2 case_decide; unfold waits in *; set_solver.
      * rewrite lookup_insert_ne by done. pose proof (Hdue x Hx) as Hd.
        do 2 case_decide; try done; unfold waits in *; rewrite Hd in *;
          set_solver.
  - (* the element is due *)
    destruct (execute_one_due t i l e te) as (t0 & Hrm & Hone); try done.
    destruct (removeTask_facts t (key te) Hinv)
      as (t0' & Hrm' & Hinv0 & Hm0 & Hel0 & Hnx0 & Hla0 & Hcs0 & Hiv0 & _ & Hu & _).
    assert (t0' = t0) as -> by congruence.
    set (t1 := set_launched (λ g, g ++ [e]) t0) in *.
    assert (wheel_inv t1) as Hinv1.
    { apply launch_inv; [done|by apply Hu|]. rewrite Hel0. eauto. }
    assert (slots t1 = alter (list_Remove e) i (slots t)) as Hsl1.
    { pose proof (index_sound_range _ _ _ _ Hs Hm He) as Hr.
      rewrite (removeTask_Some t (key te) e te) in Hrm by done.
      injection Hrm as <-. simpl. by rewrite Hp, Nat2Z.id. }
    assert (due t e) as Hdue_e.
    { rewrite due_iff. exists te. split; [done|lia]. }
    assert (∀ x, due t1 x = due t x) as Hdue.
    { intros x. apply due_same_elems. simpl. by rewrite Hel0. }
    destruct (IH t1 (list_Remove e l))
      as (t' & Hex & Hinv' & Hsl & Hla & Hmap & Hel & Hc1 & Hc2 & Hc3);
      [done|..|done|].
    { rewrite Hsl1, list_lookup_alter_eq, Hi. done. }
    { intros x Hx. apply elem_of_list_Remove. set_solver. }
    exists t'. simpl. rewrite Hone. split; [done|]. split; [done|].
    split_and!; try congruence.
    + rewrite Hsl, Hsl1, list_alter_alter_eq.
      apply list_alter_ext; [|done]. intros l0 _. simpl.
      unfold list_Remove. rewrite list_filter_filter.
      apply list_filter_iff. intros x. unfold keeps.
      rewrite Hdue. destruct (decide (x = e)) as [->|Hx]; set_solver.
    + rewrite Hla. simpl. rewrite Hla0, filter_cons_True by done.
      rewrite <- app_assoc. simpl. do 2 f_equal.
      apply filter_ext_in. intros x _. by rewrite Hdue.
    + intros k x. rewrite Hmap. simpl. rewrite Hm0, lookup_delete_Some.
      unfold keeps. rewrite Hdue. split.
      * intros [[Hkne Hk] Hkeep]. split; [done|].
        destruct (decide (x = e)) as [->|Hx]; [|set_solver].
        destruct (Hs _ _ Hk) as (te' & ? & He' & Hkey' & _).
        assert (te' = te) as -> by congruence. done.
      * intros [Hk Hkeep].
        assert (x ≠ e) by (intros ->; set_solver).
        split; [|set_solver]. split; [|done]. intros <-. congruence.
    + intros x. rewrite Hel. simpl. rewrite Hel0.
      pose proof (Hdue x) as Hd.
      do 2 case_decide; try done; unfold waits in *; rewrite Hd in *;
        destruct (decide (x = e)) as [->|Hx]; set_solver.
    + by rewrite Hc1.
    + by rewrite Hc2.
    + by rewrite Hc3.
Qed.

Lemma set_curSlot_inv t c : wheel_inv t → wheel_inv (set_curSlot c t).
Proof. intros (Hs & Hb & Hn & Hst & Hl). repeat split; unfold_inv; simpl; try done; by apply Hl. Qed.

Lemma circleIncr_inv t : wheel_inv t → wheel_inv (state_of (circleIncr t)).
Proof.
  intros Hinv. unfold circleIncr.
  destruct (int_rem _ _); simpl; [by apply set_curSlot_inv|done].
Qed.

Lemma circleIncr_ok t :
  cursor_ok t →
  circleIncr t = Ok (set_curSlot ((curSlot t + 1) `mod` len (slots t)) t).
Proof.
  intros [Hc Hmax]. unfold circleIncr, int_rem, int_add.
  rewrite wrap_id by (unfold is_int, int_min, int_max in *; lia).
  case_decide; [lia|]. rewrite Z.rem_mod_nonneg by lia. done.
Qed.

Lemma tick_inv t : wheel_inv t → wheel_inv (state_of (tick t)).
Proof.
  intros Hinv. unfold tick.
  destruct (slot_at t (curSlot t)) as [l|] eqn:Hsl; [|done].
  apply slot_at_Some in Hsl as [H0 Hsl].
  destruct (execute_spec (Z.to_nat (curSlot t)) l t l) as (t' & -> & Hinv' & _);
    [done|done|done|by destruct Hinv as (_ & _ & Hn & _); eapply Hn|].
  by apply circleIncr_inv.
Qed.

Lemma handle_inv ev t r :
  wheel_inv t → handle ev t = Some r → wheel_inv (state_of r).
Proof.
  intros Hinv. destruct ev; simpl; intros [= <-].
  - by apply tick_inv.
  - by apply addTask_inv.
  - destruct (removeTask_inv t k Hinv) as (t' & -> & ?). done.
Qed.

Lemma run_inv evs : ∀ t, wheel_inv t → wheel_inv (run evs t).
Proof.
  induction evs as [|ev evs IH]; intros t Hinv; [done|]. simpl.
  destruct (handle ev t) as [r|] eqn:Hh; [|done].
  pose proof (handle_inv _ _ _ Hinv Hh). destruct r; auto.
Qed.

Lemma NewTimeWheel_inv n d : wheel_inv (NewTimeWheel n d).
Proof.
  unfold NewTimeWheel. repeat split; unfold_inv; simpl.
  - intros k e. by rewrite lookup_empty.
  - intros i l e Hi. apply lookup_replicate in Hi as [-> _]. set_solver.
  - intros i l Hi. apply lookup_replicate in Hi as [-> _]. constructor.
  - intros e [? He]. by rewrite lookup_empty in He.
  - set_solver.
  - set_solver.
Qed.

Lemma NewTimeWheel_cursor_ok n d : n ≤ int_max → cursor_ok (NewTimeWheel n d).
Proof.
  unfold NewTimeWheel, cursor_ok, len, int_max. simpl. intros Hn.
  rewrite length_replicate. case_decide; lia.
Qed.

(** Under the invariant an element is linked in one bucket only, and two
    linked elements with the same key are the same element. *)
Lemma wheel_inv_one_slot t i j li lj e e' te te' :
  wheel_inv t →
  slots t !! i = Some li → e ∈ li → elems t !! e = Some te →
  slots t !! j = Some lj → e' ∈ lj → elems t !! e' = Some te' →
  key te = key te' → e = e' ∧ i = j.
Proof.
  intros (Hs & Hb & Hn & Hst & Hl) Hi Hin He Hj Hin' He' Hkey.
  destruct (Hb _ _ _ Hi Hin) as (te0 & He0 & Hp & Hm).
  destruct (Hb _ _ _ Hj Hin') as (te0' & He0' & Hp' & Hm').
  assert (te0 = te) as -> by congruence.
  assert (te0' = te') as -> by congruence.
  rewrite Hkey in Hm. assert (e = e') as -> by congruence.
  split; [done|]. assert (te = te') as -> by congruence. lia.
Qed.

(** C3.  One tick of a well-formed wheel scans exactly the bucket [l] at the
    cursor.  A task of [l] with [cycle > 0] gets its cycle decremented by
    one and stays in the bucket and in the key index; a task of [l] whose
    cycle is used up ([cycle = 0]; the code tests [cycle > 0], so also any
    smaller value) is unlinked from the bucket, loses its index entry and is
    started; the bucket keeps the waiting tasks in their order; the cursor
    becomes [(curSlot + 1) mod slotCount]; every other bucket, every other
    index entry and every other stored task is unchanged. *)
Theorem tick_scans_current_bucket t l :
  wheel_inv t → cursor_ok t → slots t !! Z.to_nat (curSlot t) = Some l →
  ∃ t', tick t = Ok t' ∧
    curSlot t' = (curSlot t + 1) `mod` len (slots t) ∧
    (∀ e te, e ∈ l → elems t !! e = Some te → cycle te > 0 →
       elems t' !! e = Some (mkTask (task te) (pos te) (cycle te - 1) (key te)) ∧
       taskMap t' !! key te = Some e ∧
       (∃ l', slots t' !! Z.to_nat (curSlot t) = Some l' ∧ e ∈ l') ∧
       e ∉ filter (λ x, due t x) l) ∧
    (∀ e te, e ∈ l → elems t !! e = Some te → cycle te ≤ 0 →
       unlinked t' e ∧ taskMap t' !! key te = None ∧
       e ∈ filter (λ x, due t x) l) ∧
    launched t' = launched t ++ filter (λ x, due t x) l ∧
    slots t' !! Z.to_nat (curSlot t) = Some (filter (λ x, ¬ due t x) l) ∧
    (∀ j, j ≠ Z.to_nat (curSlot t) → slots t' !! j = slots t !! j) ∧
    length (slots t') = length (slots t) ∧
    (∀ k, (∀ e te, e ∈ l → elems t !! e = Some te → cycle te ≤ 0 → key te ≠ k) →
       taskMap t' !! k = taskMap t !! k) ∧
    (∀ x, x ∉ l → elems t' !! x = elems t !! x) ∧
    interval t' = interval t ∧ nextElem t' = nextElem t.
Proof.
  intros Hinv Hcur Hl.
  pose proof Hinv as (Hs & Hb & Hn & Hst & Hla).
  destruct (execute_spec (Z.to_nat (curSlot t)) l t l)
    as (t1 & Hex & Hinv1 & Hsl & Hlau & Hmap & Hel & Hc1 & Hc2 & Hc3);
    [done|done|done|by eapply Hn|].
  assert (cursor_ok t1) as Hcur1.
  { unfold cursor_ok, len in *. rewrite Hc1, Hsl, length_alter. done. }
  exists (set_curSlot ((curSlot t + 1) `mod` len (slots t)) t1).
  assert (len (slots t1) = len (slots t)) as Hlen.
  { unfold len. by rewrite Hsl, length_alter. }
  split.
  { unfold tick. destruct Hcur as [[H0 _] _].
    assert (slot_at t (curSlot t) = Some l) as -> by by apply slot_at_Some.
    rewrite Hex, circleIncr_ok by done. by rewrite Hc1, Hlen. }
  assert (∀ x, x ∈ l → (keeps t l x ↔ ¬ due t x)) as Hkeep.
  { intros x Hx. unfold keeps. tauto. }
  assert (slots t1 !! Z.to_nat (curSlot t) = Some (filter (λ x, ¬ due t x) l))
    as Hbucket.
  { rewrite Hsl, list_lookup_alter_eq, Hl. simpl. f_equal.
    by apply filter_ext_in. }
  simpl. split_and!; try done.
  - intros e te Hin He Hc.
    assert (¬ due t e) as Hnd.
    { rewrite due_iff. intros (te' & He' & ?).
      assert (te' = te) as -> by congruence. lia. }
    destruct (Hb _ _ _ Hl Hin) as (te' & He' & _ & Hm).
    assert (te' = te) as -> by congruence.
    split_and!.
    + rewrite Hel, decide_True by done. by rewrite He.
    + apply Hmap. split; [done|]. by apply Hkeep.
    + eexists. split; [done|]. apply list_elem_of_filter. done.
    + rewrite list_elem_of_filter. tauto.
  - intros e te Hin He Hc.
    assert (due t e) as Hd by (rewrite due_iff; eauto).
    assert (e ∈ filter (λ x, due t x) l) as Hf by by apply list_elem_of_filter.
    destruct (Hb _ _ _ Hl Hin) as (te' & He' & _ & Hm).
    assert (te' = te) as -> by congruence.
    split_and!; [|apply eq_None_not_Some|done].
    + destruct Hinv1 as (_ & _ & _ & _ & Hla1).
      assert (e ∈ launched t1) as Hin1 by (rewrite Hlau; set_solver).
      apply Hla1 in Hin1 as [_ Hu]. exact Hu.
    + intros [x Hx]. apply Hmap in Hx as [Hx Hk].
      assert (x = e) as -> by congruence. apply Hk. done.
  - intros j Hj. rewrite Hsl. by apply list_lookup_alter_ne.
  - rewrite Hsl. apply length_alter.
  - intros k Hk. apply option_eq. intros x. rewrite Hmap.
    split; [tauto|]. intros Hx. split; [done|].
    intros [Hin Hd]. apply due_iff in Hd as (te & He & Hc).
    destruct (Hb _ _ _ Hl Hin) as (te' & He' & _ & Hm).
    assert (te' = te) as -> by congruence.
    apply (Hk x te); try done.
    destruct (Hs _ _ Hx) as (te'' & _ & He'' & Hkey & _). congruence.
  - intros x Hx. rewrite Hel, decide_False; [done|]. unfold waits. tauto.
Qed.

Lemma unlinked_not_linked t e : unlinked t e ↔ ¬ linked t e.
Proof. unfold unlinked, linked. naive_solver. Qed.

Lemma wheel_inv_one_slot_one_entry t : wheel_inv t → one_slot_one_entry t.
Proof.
  intros Hinv. pose proof Hinv as (Hs & Hb & Hn & Hst & Hl).
  assert (∀ k, active t k → is_Some (taskMap t !! k)) as Hact.
  { intros k [?|(e & (i & l & Hi & Hin) & Hk)]; [done|].
    destruct (Hb _ _ _ Hi Hin) as (te & He & _ & Hm).
    unfold key_of in Hk. rewrite He in Hk. injection Hk as <-. eauto. }
  intros k Hk. apply Hact in Hk as [e Hk].
  destruct (Hs _ _ Hk) as (te & l & He & Hkey & H0 & Hsl & Hin).
  exists e, te, l. split_and!; try done; [by eapply Hn|].
  intros j l' e' Hj Hin' Hk'. unfold key_of in Hk'.
  destruct (elems t !! e') as [te'|] eqn:He'; [|done]. injection Hk' as Hk'.
  destruct (wheel_inv_one_slot t j (Z.to_nat (pos te)) l' l e' e te' te);
    try done. congruence.
Qed.

(** What a step of the control loop can link and start. *)
Lemma handle_frame ev t r :
  wheel_inv t → handle ev t = Some r →
  (∀ x, linked (state_of r) x → linked t x ∨ x = nextElem t) ∧
  (nextElem t ≤ nextElem (state_of r))%nat ∧
  (∀ x, x ∈ launched (state_of r) → x ∈ launched t ∨ linked t x).
Proof.
  intros Hinv Hh. destruct ev; simpl in Hh; try done; injection Hh as <-.
  - (* tick *)
    unfold tick. destruct (slot_at t (curSlot t)) as [l|] eqn:Hsl;
      [|simpl; split_and!; auto].
    apply slot_at_Some in Hsl as [H0 Hsl].
    destruct (execute_spec (Z.to_nat (curSlot t)) l t l)
      as (t1 & -> & _ & Hs1 & Hl1 & _ & _ & _ & _ & Hn1);
      [done|done|done|by destruct Hinv as (_ & _ & Hn & _); eapply Hn|].
    assert (slots (state_of (circleIncr t1)) = slots t1 ∧
            nextElem (state_of (circleIncr t1)) = nextElem t1 ∧
            launched (state_of (circleIncr t1)) = launched t1) as (Ha & Hb & Hc).
    { unfold circleIncr. destruct (int_rem _ _); done. }
    unfold linked. simpl. rewrite Ha, Hb, Hc. split_and!.
    + intros x (i & l' & Hi & Hin). left. rewrite Hs1 in Hi.
      apply lookup_alter_Some in Hi as (l0 & Hi & ->). exists i, l0.
      split; [done|]. case_decide; [|done].
      apply list_elem_of_filter in Hin. tauto.
    + lia.
    + intros x. rewrite Hl1, elem_of_app, list_elem_of_filter.
      intros [?|[_ ?]]; [by left|]. right. by exists (Z.to_nat (curSlot t)), l.
  - (* addTask *)
    unfold addTask. destruct (slot_at t (pos te)) as [l|] eqn:Hsl;
      [|simpl; split_and!; auto].
    assert (∃ t1, match taskMap t !! key te with
                  | Some _ => removeTask t (key te) | None => Ok t end = Ok t1 ∧
              nextElem t1 = nextElem t ∧ launched t1 = launched t ∧
              ∀ x, linked t1 x → linked t x) as (t1 & -> & Hn1 & Hl1 & Hk1).
    { destruct (taskMap t !! key te); [|by exists t].
      destruct (removeTask_facts t (key te) Hinv)
        as (t1 & -> & _ & _ & _ & ? & ? & _ & _ & _ & _ & Hsub).
      exists t1. split_and!; try done.
      intros x (i & l' & Hi & Hin). destruct (Hsub _ _ _ Hi Hin) as (l0 & ? & ?).
      by exists i, l0. }
    simpl. split_and!.
    + intros x (i & l' & Hi & Hin).
      apply lookup_alter_Some in Hi as (l0 & Hi & ->).
      assert (x ∈ l0 ∨ x = nextElem t) as [?|?]; [|left|by right].
      { case_decide; [|by left]. unfold list_PushBack in Hin.
        rewrite <- Hn1. set_solver. }
      apply Hk1. by exists i, l0.
    + lia.
    + rewrite Hl1. auto.
  - (* removeTask *)
    destruct (removeTask_facts t k Hinv)
      as (t1 & -> & _ & _ & _ & Hn1 & Hl1 & _ & _ & _ & _ & Hsub).
    simpl. split_and!.
    + intros x (i & l' & Hi & Hin). left.
      destruct (Hsub _ _ _ Hi Hin) as (l0 & ? & ?). by exists i, l0.
    + lia.
    + rewrite Hl1. auto.
Qed.

(** An element that is allocated and unlinked is never started again. *)
Lemma run_unlinked_not_launched evs :
  ∀ t x, wheel_inv t → unlinked t x → (x < nextElem t)%nat →
         x ∈ launched (run evs t) → x ∈ launched t.
Proof.
  induction evs as [|ev evs IH]; intros t x Hinv Hu Hlt; [done|]. simpl.
  destruct (handle ev t) as [r|] eqn:Hh; [|done].
  destruct (handle_frame _ _ _ Hinv Hh) as (Hlink & Hnext & Hlau).
  pose proof (handle_inv _ _ _ Hinv Hh) as Hinv'.
  apply unlinked_not_linked in Hu.
  assert (x ∈ launched (state_of r) → x ∈ launched t) as Hstep.
  { intros Hin. destruct (Hlau _ Hin); [done|tauto]. }
  destruct r as [t'|t']; [|done]. simpl in *.
  intros Hin. apply Hstep. apply IH; try done; [|lia].
  apply unlinked_not_linked. intros Hl.
  destruct (Hlink _ Hl); [tauto|lia].
Qed.

Lemma addTask_is_ok t te :
  wheel_inv t → is_ok (addTask t te) = true ↔ 0 ≤ pos te < len (slots t).
Proof.
  intros Hinv. rewrite <- slot_at_is_Some. unfold addTask.
  destruct (slot_at t (pos te)) as [l|]; simpl.
  - split; [eauto|]. intros _.
    destruct (taskMap t !! key te); [|done].
    by destruct (removeTask_facts t (key te) Hinv) as (t1 & -> & _).
  - split; [done|]. by intros [? ?].
Qed.

Lemma addTask_Panic t te t' : addTask t te = Panic t' → wheel_inv t → t' = t.
Proof.
  unfold addTask. intros Hadd Hinv.
  destruct (slot_at t (pos te)); [|congruence].
  destruct (taskMap t !! key te); [|done].
  by destruct (removeTask_facts t (key te) Hinv) as (t1 & Hrm & _);
    rewrite Hrm in Hadd.
Qed.

(** What a completed [addTask] leaves behind. *)
Lemma addTask_Ok_facts t te t' :
  wheel_inv t → addTask t te = Ok t' →
  launched t' = launched t ∧ nextElem t' = S (nextElem t) ∧
  taskMap t' !! key te = Some (nextElem t) ∧
  elems t' = <[nextElem t := te]> (elems t) ∧
  (∃ l, slots t' !! Z.to_nat (pos te) = Some l ∧ nextElem t ∈ l) ∧
  (∀ x, linked t' x →
        x = nextElem t ∨ (linked t x ∧ taskMap t !! key te ≠ Some x)).
Proof.
  intros Hinv. unfold addTask.
  destruct (slot_at t (pos te)) as [l|] eqn:Hsl; [|done].
  apply slot_at_Some in Hsl as [H0 Hsl].
  destruct (removeTask_facts t (key te) Hinv)
    as (t1 & Hrm & _ & Hm1 & He1 & Hn1 & Hl1 & _ & _ & Hlen & Hu & Hsub).
  assert (match taskMap t !! key te with
          | Some _ => removeTask t (key te) | None => Ok t end = Ok t1) as ->.
  { destruct (taskMap t !! key te) eqn:Hk; [done|].
    unfold removeTask in Hrm. by rewrite Hk in Hrm. }
  intros [= <-]. simpl. rewrite Hl1, Hn1, He1. split_and!; try done.
  - apply lookup_insert_eq.
  - assert (is_Some (slots t1 !! Z.to_nat (pos te))) as [l1 Hl1'].
    { apply lookup_lt_is_Some. rewrite Hlen. by eapply lookup_lt_Some. }
    exists (list_PushBack (nextElem t) l1).
    rewrite list_lookup_alter_eq, Hl1'. split; [done|].
    unfold list_PushBack. set_solver.
  - intros x (i & l' & Hi & Hin). simpl in Hi.
    apply lookup_alter_Some in Hi as (l0 & Hi & ->).
    assert (x ∈ l0 ∨ x = nextElem t) as [Hx|?]; [|right|by left].
    { case_decide; [|by left]. unfold list_PushBack in Hin. set_solver. }
    split.
    + destruct (Hsub _ _ _ Hi Hx) as (l2 & ? & ?). by exists i, l2.
    + intros Hk. by apply (Hu _ Hk i l0).
Qed.



(** C8.  Each step of the control loop (an add, a remove, a tick) keeps the
    invariant of the wheel, also when the step panics; the invariant gives
    that every active key has one index entry, which points at the one
    linked element that carries the key, linked once in one bucket. *)
Theorem control_loop_keeps_invariant t te k :
  wheel_inv t →
  (wheel_inv (state_of (addTask t te)) ∧
   one_slot_one_entry (state_of (addTask t te))) ∧
  (wheel_inv (state_of (removeTask t k)) ∧
   one_slot_one_entry (state_of (removeTask t k))) ∧
  (wheel_inv (state_of (tick t)) ∧
   one_slot_one_entry (state_of (tick t))).
Proof.
  intros Hinv.
  assert (wheel_inv (state_of (removeTask t k))) as Hrm.
  { by destruct (removeTask_inv t k Hinv) as (t' & -> & ?). }
  pose proof (addTask_inv t te Hinv). pose proof (tick_inv t Hinv).
  split_and!; auto using wheel_inv_one_slot_one_entry.
Qed.

(** [NewTimeWheel] makes a wheel that is [wheel_ok], and the control loop
    keeps it so. *)
Lemma NewTimeWheel_wheel_ok n d :
  (if decide (d ≤ 0) then Second else d) * (if decide (n < 10) then 10 else n)
    ≤ int_max →
  wheel_ok (NewTimeWheel n d).
Proof.
  unfold wheel_ok, cursor_ok, NewTimeWheel, len, Second, int_max. simpl.
  rewrite length_replicate. intros H. repeat case_decide; split_and!; try lia; nia.
Qed.

(** [tick] on a wheel with a valid cursor: [execute] on the bucket at the
    cursor, then the cursor moves on. *)
Lemma tick_unfold t l :
  wheel_inv t → cursor_ok t → slots t !! Z.to_nat (curSlot t) = Some l →
  ∃ t1, execute (Z.to_nat (curSlot t)) l t = Ok t1 ∧
    tick t = Ok (set_curSlot ((curSlot t + 1) `mod` len (slots t)) t1) ∧
    wheel_inv t1 ∧
    slots t1 = alter (filter (keeps t l)) (Z.to_nat (curSlot t)) (slots t) ∧
    launched t1 = launched t ++ filter (λ x, due t x) l ∧
    (∀ x, elems t1 !! x =
          if decide (waits t l x) then dec_cycle <$> elems t !! x
          else elems t !! x) ∧
    interval t1 = interval t.
Proof.
  intros Hinv Hcur Hl.
  destruct (execute_spec (Z.to_nat (curSlot t)) l t l)
    as (t1 & Hex & Hinv1 & Hsl & Hlau & _ & Hel & Hc1 & Hc2 & _);
    [done|done|done|by destruct Hinv as (_ & _ & Hn & _); eapply Hn|].
  exists t1. split_and!; try done.
  assert (cursor_ok t1) as Hcur1.
  { unfold cursor_ok, len in *. rewrite Hc1, Hsl, length_alter. done. }
  unfold tick. destruct Hcur as [[H0 _] _].
  assert (slot_at t (curSlot t) = Some l) as -> by by apply slot_at_Some.
  rewrite Hex, circleIncr_ok by done.
  unfold len. by rewrite Hc1, Hsl, length_alter.
Qed.

Lemma handle_wheel_ok ev t r :
  wheel_inv t → wheel_ok t → handle ev t = Some r → wheel_ok (state_of r).
Proof.
  intros Hinv (Hi & Hcur & Hrev) Hh.
  assert (∀ t', interval t' = interval t → curSlot t' = curSlot t →
                length (slots t') = length (slots t) → wheel_ok t') as Hsame.
  { intros t' Hi' Hc' Hl'. unfold wheel_ok, cursor_ok, len in *.
    rewrite Hi', Hc', Hl'. done. }
  destruct ev; simpl in Hh; try done; injection Hh as <-.
  - (* tick *)
    destruct Hcur as [Hc Hmax].
    assert (is_Some (slots t !! Z.to_nat (curSlot t))) as [l Hl].
    { apply lookup_lt_is_Some. unfold len in Hc. lia. }
    destruct (tick_unfold t l Hinv (conj Hc Hmax) Hl)
      as (t1 & _ & -> & _ & Hsl & _ & _ & Hi1).
    simpl. unfold wheel_ok, cursor_ok, len in *. simpl.
    rewrite Hi1, Hsl, length_alter.
    split_and!; try done; apply Z.mod_pos_bound; lia.
  - (* addTask *)
    unfold addTask. destruct (slot_at t (pos te)); [|by apply Hsame].
    destruct (removeTask_facts t (key te) Hinv)
      as (t1 & Hrm & _ & _ & _ & _ & _ & Hc1 & Hi1 & Hl1 & _).
    assert (match taskMap t !! key te with
            | Some _ => removeTask t (key te) | None => Ok t end = Ok t1) as ->.
    { destruct (taskMap t !! key te) eqn:Hk; [done|].
      unfold removeTask in Hrm. by rewrite Hk in Hrm. }
    simpl. apply Hsame; simpl; try done. by rewrite length_alter.
  - (* removeTask *)
    destruct (removeTask_facts t k Hinv)
      as (t1 & -> & _ & _ & _ & _ & _ & Hc1 & Hi1 & Hl1 & _).
    simpl. by apply Hsame.
Qed.

Lemma run_wheel_ok evs :
  ∀ t, wheel_inv t → wheel_ok t → wheel_ok (run evs t).
Proof.
  induction evs as [|ev evs IH]; intros t Hinv Hok; [done|]. simpl.
  destruct (handle ev t) as [r|] eqn:Hh; [|done].
  pose proof (handle_inv _ _ _ Hinv Hh). pose proof (handle_wheel_ok _ _ _ Hinv Hok Hh).
  destruct r; auto.
Qed.

Lemma quot_is_int a b : is_int a → 0 < b → is_int (a ÷ b).
Proof.
  unfold is_int, int_min, int_max. intros Ha Hb.
  pose proof (Z.quot_rem' a b) as Hqr.
  destruct (Z_le_gt_dec 0 a) as [H0|H0].
  - pose proof (Z.rem_bound_pos a b H0 Hb). nia.
  - pose proof (Z.rem_bound_abs a b ltac:(lia)).
    pose proof (Z.rem_sign_mul a b ltac:(lia)). nia.
Qed.

Lemma int_quo_exact a b : is_int a → 0 < b → int_quo a b = Some (a ÷ b).
Proof.
  intros Ha Hb. unfold int_quo. case_decide; [lia|].
  by rewrite wrap_id by by apply quot_is_int.
Qed.

Lemma getPosAndCircle_exact t delay :
  wheel_ok t → is_int delay →
  curSlot t + delay ÷ interval t ≤ int_max →
  getPosAndCircle t delay =
    Some (Z.rem (curSlot t + delay ÷ interval t) (len (slots t)),
          delay ÷ (interval t * len (slots t))).
Proof.
  intros (Hi & [Hc Hmax] & Hrev) Hd Hsum. unfold getPosAndCircle, int_mul, int_add.
  assert (0 < interval t * len (slots t)) as Hpos by nia.
  rewrite (wrap_id (interval t * _))
    by (unfold is_int, int_min, int_max in *; lia).
  rewrite !int_quo_exact by done.
  pose proof (quot_is_int delay (interval t) Hd Hi) as Hq.
  rewrite wrap_id by (unfold is_int, int_min, int_max in *; lia).
  unfold int_rem. case_decide; [lia|done].
Qed.

(** C4.  On a wheel as [NewTimeWheel] makes it, and as long as the sum
    [curSlot + delay / interval] does not overflow an [int], [AddTask] with
    the delay [fireAt - now] builds the task with
    [pos = (curSlot + delay / interval) % slotCount] and
    [cycle = delay / (interval * slotCount)], where [/] truncates toward
    zero and [%] is its remainder; this holds for every delay, negative
    ones included, nothing is clamped.  When the control loop then
    completes the add, the element indexed under the key stores exactly
    this position and cycle. *)
Theorem AddTask_pos_and_cycle t k f delay :
  wheel_ok t → is_int delay →
  curSlot t + delay ÷ interval t ≤ int_max →
  ∃ te, AddTask t k f delay = Some te ∧
    task te = f ∧ key te = k ∧
    pos te = Z.rem (curSlot t + delay ÷ interval t) (len (slots t)) ∧
    cycle te = delay ÷ (interval t * len (slots t)) ∧
    ∀ t', wheel_inv t → addTask t te = Ok t' →
      ∃ e, taskMap t' !! k = Some e ∧ elems t' !! e = Some te.
Proof.
  intros Hok Hd Hsum. eexists. split.
  { unfold AddTask. by rewrite getPosAndCircle_exact. }
  simpl. split_and!; try done.
  intros t' Hinv Hadd.
  destruct (addTask_Ok_facts _ _ _ Hinv Hadd) as (_ & _ & Hm & He & _).
  exists (nextElem t). split; [done|]. rewrite He. apply lookup_insert_eq.
Qed.

(** C9.  On every wheel as [NewTimeWheel] makes it there is a delay far
    enough in the past ([delay ≤ - interval] and
    [curSlot + delay / interval < 0]) for which [AddTask] computes a
    negative slot position; indexing the slots with it is out of range, so
    [addTask] panics before it changes anything and the control loop
    returns: no later request is served. *)
Theorem AddTask_negative_pos_panics t k f :
  wheel_ok t → 2 ≤ len (slots t) →
  ∃ delay te,
    delay ≤ - interval t ∧ curSlot t + delay ÷ interval t < 0 ∧
    AddTask t k f delay = Some te ∧ pos te < 0 ∧
    slot_at t (pos te) = None ∧ addTask t te = Panic t ∧
    ∀ evs, run (AddReq te :: evs) t = t.
Proof.
  intros Hok Hlen. pose proof Hok as (Hi & [Hc Hmax] & Hrev).
  set (delay := - ((curSlot t + 1) * interval t)).
  assert (delay ÷ interval t = - (curSlot t + 1)) as Hq.
  { unfold delay. rewrite Z.quot_opp_l, Z.quot_mul by lia. done. }
  assert (is_int delay) as Hd.
  { unfold is_int, int_min, int_max, delay in *. nia. }
  destruct (AddTask_pos_and_cycle t k f delay) as (te & Hadd & _ & _ & Hp & _);
    [done|done|unfold int_max; lia|].
  assert (pos te = -1) as Hp1.
  { rewrite Hp, Hq. replace (curSlot t + - (curSlot t + 1)) with (- (1)) by lia.
    rewrite Z.rem_opp_l, Z.rem_small by lia. done. }
  assert (slot_at t (pos te) = None) as Hsl.
  { unfold slot_at. case_decide; [lia|done]. }
  assert (addTask t te = Panic t) as Hpanic.
  { unfold addTask. by rewrite Hsl. }
  exists delay, te. split_and!; try done; try (unfold delay; nia).
  - rewrite Hq. lia.
  - intros evs. simpl. by rewrite Hpanic.
Qed.

(** ** The worker *)

(** The caller of [executeTaskWithTimeout] can only return the timeout
    error; once it has received the result it waits for an error that the
    goroutine, which has left its [select], never sends. *)
Lemma timed_reachable_inv out s :
  timed_reachable out s →
  match caller_st s with
  | CallerSelect => True
  | CallerWaitErr result => body_st s = BodyDone ∧ result = out.1
  | CallerReturned result err => result = None ∧ err = timeout_error
  end.
Proof.
  unfold timed_reachable. intros Hr.
  cut ((body_st s = BodyRunning ∨ body_st s = BodyDone ∨
        ∃ err, body_st s = BodySelect out.1 err) ∧
       match caller_st s with
       | CallerSelect => True
       | CallerWaitErr result => body_st s = BodyDone ∧ result = out.1
       | CallerReturned result err => result = None ∧ err = timeout_error
       end); [tauto|].
  revert s Hr. apply rtc_ind_r; [simpl; auto|].
  intros s1 s2 _ Hstep [Hbody IH].
  inversion Hstep; subst; simpl in *; try (split; [eauto|done]).
  - split; [eauto|]. destruct c; naive_solver.
  - split; [eauto|]. destruct Hbody as [?|[?|[? ?]]]; naive_solver.
  - destruct IH as [? _]. done.
  - split; [eauto|]. destruct c; naive_solver.
Qed.

Lemma timed_wait_err_stuck out s s' result :
  caller_st s = CallerWaitErr result → body_st s = BodyDone →
  rtc (timed_step out) s s' →
  caller_st s' = CallerWaitErr result ∧ body_st s' = BodyDone.
Proof.
  intros Hc Hb Hr. induction Hr as [|a b c Hstep Hr IH]; [done|].
  apply IH; inversion Hstep; subst; simpl in *; congruence.
Qed.

(** Both ways of ending happen, and they are the two values of
    [executeTaskWithTimeout]. *)
Lemma timed_outcomes body k :
  (∀ s result err, timed_reachable (body k) s →
     caller_st s = CallerReturned result err →
     Returned result err = executeTaskWithTimeout body k false) ∧
  (∃ s, timed_reachable (body k) s ∧
        caller_st s = CallerReturned None timeout_error) ∧
  (∃ s, timed_reachable (body k) s ∧
        (∀ s', rtc (timed_step (body k)) s s' →
               caller_st s' = CallerWaitErr (body k).1) ∧
        executeTaskWithTimeout body k true = Blocked).
Proof.
  split_and!.
  - intros s result err Hr Hc. apply timed_reachable_inv in Hr.
    rewrite Hc in Hr. destruct Hr as [-> ->]. done.
  - exists (mkTimed BodyRunning (CallerReturned None timeout_error) true).
    split; [|done]. unfold timed_reachable, timed_init.
    eapply rtc_l; [apply deadline|]. eapply rtc_l; [apply caller_timeout|].
    done.
  - exists (mkTimed BodyDone (CallerWaitErr (body k).1) false).
    split_and!; [|intros s' Hs'|done].
    + unfold timed_reachable, timed_init.
      eapply rtc_l; [apply body_returns|]. eapply rtc_l; [apply send_result|].
      done.
    + by eapply timed_wait_err_stuck in Hs' as [? _].
Qed.

(** The attempts of [executeTask] when no timeout is configured. *)
Lemma executeTask_loop_no_timeout body pool sched :
  timeout pool ≤ 0 →
  ∀ fuel i, 0 ≤ i → fuel = Z.to_nat (retryCount pool + 1 - i) →
  ∃ n, (executeTask_loop fuel i body pool sched).2 =
         executeTaskWithoutTimeout body <$> seq (Z.to_nat i) n ∧
       (n ≤ fuel)%nat ∧ (n = 0%nat ↔ fuel = 0%nat) ∧
       (∀ j, (S j < n)%nat → (body (Z.to_nat i + j)%nat).2 ≠ None) ∧
       (executeTask_loop fuel i body pool sched).1 =
         match n with
         | O => Returned None None
         | S m => executeTaskWithoutTimeout body (Z.to_nat i + m)%nat
         end ∧
       ((n < fuel)%nat → (body (Z.to_nat i + (n - 1))%nat).2 = None).
Proof.
  intros Ht. induction fuel as [|fuel IH]; intros i Hi Hf.
  { exists 0%nat. simpl. split_and!; try done; intros; lia. }
  simpl. rewrite decide_True by lia. rewrite (decide_False (P := timeout pool > 0)) by lia.
  unfold executeTaskWithoutTimeout at 1 2 3. simpl.
  case_decide as Hstop.
  - exists 1%nat. simpl. rewrite Nat.add_0_r.
    split_and!; [done|lia|split; lia|intros; lia|done|].
    intros Hlt. destruct Hstop as [?|?]; [done|lia].
  - destruct (IH (i + 1)) as (n & Hlog & Hn & Hn0 & Hfail & Hres & Hearly);
      [lia|lia|].
    assert (Z.to_nat (i + 1) = S (Z.to_nat i)) as Hi1 by lia.
    rewrite Hi1 in *.
    exists (S n). simpl. split_and!.
    + by rewrite Hlog.
    + lia.
    + split; lia.
    + intros [|j] Hj.
      * rewrite Nat.add_0_r. tauto.
      * replace (Z.to_nat i + S j)%nat with (S (Z.to_nat i) + j)%nat by lia.
        apply Hfail. lia.
    + rewrite Hres. destruct n as [|m].
      * assert (fuel = 0%nat) by tauto. lia.
      * f_equal. lia.
    + intros Hlt. rewrite Nat.sub_0_r.
      destruct n as [|m]; [assert (fuel = 0%nat) by tauto; lia|].
      replace (Z.to_nat i + S m)%nat with (S (Z.to_nat i) + (S m - 1))%nat by lia.
      apply Hearly. lia.
Qed.

(** Never more than [retryCount + 1] attempts, with or without timeout. *)
Lemma executeTask_loop_bound body pool sched fuel i :
  (length (executeTask_loop fuel i body pool sched).2 ≤ fuel)%nat.
Proof.
  revert i. induction fuel as [|fuel IH]; intros i; simpl; [lia|].
  case_decide; [|simpl; lia].
  destruct (if decide (timeout pool > 0) then _ else _) as [result err|];
    [|simpl; lia].
  case_decide; simpl; [lia|]. specialize (IH (i + 1)). lia.
Qed.

(** With a timeout configured, [executeTask] never reports what the task
    returned: it blocks or it returns the timeout error. *)
Lemma executeTask_loop_timeout body pool sched :
  timeout pool > 0 →
  ∀ fuel i, i ≤ retryCount pool → Z.of_nat fuel = retryCount pool + 1 - i →
  (executeTask_loop fuel i body pool sched).1 = Blocked ∨
  (executeTask_loop fuel i body pool sched).1 = Returned None timeout_error.
Proof.
  intros Ht. induction fuel as [|fuel IH]; intros i Hi Hf; [lia|].
  simpl. rewrite decide_True by lia. rewrite (decide_True (P := timeout pool > 0)) by lia.
  unfold executeTaskWithTimeout. destruct (sched (Z.to_nat i)); [by left|].
  case_decide as Hstop; [by right|]. simpl.
  apply IH; [|lia]. assert (i ≠ retryCount pool) by tauto. lia.
Qed.

Lemma handleResult_cases result err pool :
  handleResult result err pool =
    match err, errCallback pool, resultCallback pool with
    | Some _, Some cb, _ => [ErrCalled cb err]
    | Some _, None, Some cb => [ResultCalled cb result]
    | None, _, Some cb => [ResultCalled cb result]
    | _, _, None => []
    end.
Proof.
  unfold handleResult.
  destruct err, (errCallback pool), (resultCallback pool); done.
Qed.

(** Without a timeout the retry loop behaves as specified: at most
    [retryCount + 1] attempts, each a call of the task, all but the last
    failed, and the loop goes on only after a failure; a task that fails
    [retryCount] times and then succeeds gives one call of the result
    callback and no call of the error callback. *)
Lemma worker_retry_no_timeout pool body sched :
  timeout pool ≤ 0 →
  let h := worker_handle (Func body) pool sched in
  let n := length (attempts h) in
  finished h = true ∧
  (n ≤ Z.to_nat (retryCount pool + 1))%nat ∧
  attempts h = executeTaskWithoutTimeout body <$> seq 0 n ∧
  (∀ j, (S j < n)%nat → (body j).2 ≠ None) ∧
  ((n < Z.to_nat (retryCount pool + 1))%nat → (body (n - 1)%nat).2 = None) ∧
  (∀ cb, 0 ≤ retryCount pool →
     (∀ k, (k < Z.to_nat (retryCount pool))%nat → (body k).2 ≠ None) →
     (body (Z.to_nat (retryCount pool))).2 = None →
     resultCallback pool = Some cb →
     n = S (Z.to_nat (retryCount pool)) ∧
     callbacks h = [ResultCalled cb (body (Z.to_nat (retryCount pool))).1] ∧
     result_calls (callbacks h) = 1%nat ∧ err_calls (callbacks h) = 0%nat).
Proof.
  intros Ht.
  destruct (executeTask_loop_no_timeout body pool sched Ht
              (Z.to_nat (retryCount pool + 1)) 0)
    as (n & Hlog & Hn & Hn0 & Hfail & Hres & Hearly); [lia|f_equal; lia|].
  simpl in *. unfold worker_handle, executeTask.
  destruct (executeTask_loop _ 0 body pool sched) as [r log] eqn:Hloop.
  simpl in *. subst log.
  assert (∃ result err, r = Returned result err) as (result & err & ->).
  { rewrite Hres. destruct n; unfold executeTaskWithoutTimeout; eauto. }
  simpl. rewrite length_fmap, length_seq.
  split_and!; try done.
  intros cb HR Hall Hlast Hcb.
  assert (n = S (Z.to_nat (retryCount pool))) as ->.
  { destruct (decide (n < Z.to_nat (retryCount pool + 1))%nat) as [Hlt|?]; [|lia].
    specialize (Hearly Hlt). destruct n as [|m]; [lia|].
    exfalso. apply (Hall m); [lia|].
    by replace (S m - 1)%nat with m in Hearly by lia. }
  unfold executeTaskWithoutTimeout in Hres. injection Hres as -> ->.
  rewrite Hlast, handleResult_cases, Hcb. done.
Qed.

(** With a timeout configured no task is ever reported with what it
    returned. *)
Lemma worker_with_timeout_never_succeeds pool body sched :
  timeout pool > 0 → 0 ≤ retryCount pool →
  (executeTask body pool sched).1 = Blocked ∨
  (executeTask body pool sched).1 = Returned None timeout_error.
Proof.
  intros Ht HR. apply executeTask_loop_timeout; [done|lia|lia].
Qed.

(** Pools built by [NewGoroutinePool] have no error callback: no option
    sets one. *)
Lemma foldl_apply_option_errCallback options :
  ∀ pool, errCallback (foldl apply_option pool options) = errCallback pool.
Proof.
  induction options as [|opt options IH]; intros pool; [done|].
  simpl. rewrite IH. by destruct opt.
Qed.

Lemma NewGoroutinePool_errCallback m options pool :
  NewGoroutinePool m options = Some pool → errCallback pool = None.
Proof.
  unfold NewGoroutinePool. repeat case_decide; [done|done|].
  intros [= <-]. simpl. by rewrite foldl_apply_option_errCallback.
Qed.

(** A failed task reaches the result callback of every pool built by
    [NewGoroutinePool] that has one. *)
Lemma failed_task_reaches_result_callback m options pool cb result e :
  NewGoroutinePool m options = Some pool → resultCallback pool = Some cb →
  handleResult result (Some e) pool = [ResultCalled cb result].
Proof.
  intros Hnew Hcb. rewrite handleResult_cases, Hcb.
  by rewrite (NewGoroutinePool_errCallback _ _ _ Hnew).
Qed.

(** C1 (the code departs from it).  A pool with a result callback and, as
    every pool that [NewGoroutinePool] builds, no error callback, runs a
    task that fails on its only attempt: [handleResult] calls the result
    callback, with the result of the failed attempt. *)
Theorem handleResult_calls_result_callback_on_error :
  ∃ pool,
    NewGoroutinePool 4 [WithResultCallBack (Some 7%nat)] = Some pool ∧
    errCallback pool = None ∧
    worker_handle (Func always_fails) pool prompt =
      mkHandled [Returned None (Some "boom")] [ResultCalled 7 None] true ∧
    result_calls (callbacks (worker_handle (Func always_fails) pool prompt)) = 1%nat.
Proof. eexists. split; [reflexivity|]. split_and!; reflexivity. Qed.

(** C5 (the code departs from it).  A pool with a timeout, one retry and a
    result callback runs a task that fails at once on its first call and
    would succeed on its second.  In [executeTaskWithTimeout] the caller can
    only return the timeout error, and once it has taken the result of the
    first call from [resultChan] it waits on [errChan] for ever.  So the
    first attempt never returns: there is no second attempt and no callback
    is called.  Without the timeout the same task is retried and the result
    callback is called once. *)
Theorem retry_with_timeout_blocks :
  ∃ pool pool',
    NewGoroutinePool 4
      [WithTimeout Second; WithRetryCount 1; WithResultCallBack (Some 7%nat)]
      = Some pool ∧
    (∀ s result err,
       timed_reachable (fails_once 0) s →
       caller_st s = CallerReturned result err →
       result = None ∧ err = timeout_error) ∧
    (∃ s, timed_reachable (fails_once 0) s ∧
          ∀ s', rtc (timed_step (fails_once 0)) s s' →
                caller_st s' = CallerWaitErr (fails_once 0).1) ∧
    worker_handle (Func fails_once) pool prompt = mkHandled [Blocked] [] false ∧
    result_calls (callbacks (worker_handle (Func fails_once) pool prompt)) = 0%nat ∧
    NewGoroutinePool 4 [WithRetryCount 1; WithResultCallBack (Some 7%nat)]
      = Some pool' ∧
    worker_handle (Func fails_once) pool' prompt =
      mkHandled [Returned None (Some "boom"); Returned (Some 42%nat) None]
                [ResultCalled 7 (Some 42%nat)] true.
Proof.
  do 2 eexists. split; [reflexivity|].
  destruct (timed_outcomes fails_once 0) as (_ & _ & (s & Hs & Hstuck & _)).
  split_and!; try reflexivity.
  - intros s0 result err Hr Hc. apply timed_reachable_inv in Hr.
    by rewrite Hc in Hr.
  - by exists s.
Qed.

(** ** The pool *)

Lemma same_config_refl p : same_config p p.
Proof. by repeat split. Qed.

Lemma same_config_trans p1 p2 p3 :
  same_config p1 p2 → same_config p2 p3 → same_config p1 p3.
Proof. unfold same_config. intros (?&?&?&?&?&?&?) (?&?&?&?&?&?&?). split_and!; congruence. Qed.

Lemma add_workers_facts n :
  ∀ p, same_config p (add_workers n p) ∧
       taskQueue (add_workers n p) = taskQueue p ∧
       length (workers (add_workers n p)) = (length (workers p) + n)%nat.
Proof.
  induction n as [|n IH]; intros p; simpl.
  { split_and!; [apply same_config_refl|done|lia]. }
  destruct (IH (add_worker p)) as (Hc & Hq & Hl).
  split_and!.
  - eapply same_config_trans; [|exact Hc]. by repeat split.
  - by rewrite Hq.
  - rewrite Hl. simpl. rewrite length_app. simpl. lia.
Qed.

Lemma worker_round_facts i sched p :
  same_config p (worker_round i sched p) ∧
  taskQueue (worker_round i sched p) = taskQueue p ∧
  length (workers (worker_round i sched p)) = length (workers p).
Proof.
  unfold worker_round.
  destruct (workers p !! i) as [[serial [|t q]]|];
    try (split_and!; [apply same_config_refl|done|done]).
  destruct (finished _); simpl; rewrite length_insert;
    split_and!; try done; by repeat split.
Qed.

(** A step keeps the configuration and never lets the queue exceed its
    capacity. *)
Lemma pool_step_config ev p p' :
  pool_step ev p = Some p' →
  same_config p p' ∧
  (len (taskQueue p) ≤ taskQueueSize p → len (taskQueue p') ≤ taskQueueSize p').
Proof.
  destruct ev; simpl.
  - intros [= <-]. unfold Submit. case_decide; simpl.
    + split; [by repeat split|]. intros _. unfold len in *.
      rewrite length_app. simpl. lia.
    + destruct (taskQueue p) eqn:Hq, (dispatching p) eqn:Hd; simpl;
        (split; [by repeat split|]); simpl; rewrite ?Hq; done.
  - intros [= <-]. unfold dispatch_receive.
    destruct (dispatching p), (taskQueue p) eqn:Hq; simpl;
      (split; [by repeat split|]); try done.
    + by rewrite Hq.
    + unfold len. rewrite length_cons. lia.
  - intros [= <-]. unfold dispatch_observe.
    destruct (dispatching p); try case_decide; simpl;
      split; try done; by repeat split.
  - unfold dispatch_pop, popWorker.
    destruct (dispatching p); try (intros [= <-]; split; [by repeat split|done]).
    destruct (last (workerStack p)); [|done].
    intros [= <-]. simpl. split; [by repeat split|done].
  - unfold dispatch_send.
    destruct (dispatching p); try (intros [= <-]; split; [by repeat split|done]).
    case_decide; [|done]. destruct (workers p !! _); [|done].
    case_decide; intros [= <-]; simpl; (split; [by repeat split|done]).
  - intros [= <-]. destruct (worker_round_facts i sched p) as (Hc & Hq & _).
    split; [done|]. rewrite Hq. destruct Hc as (_ & _ & -> & _). done.
  - unfold adjustWorkers. destruct (int_quo _ 4); [|done].
    case_decide.
    { intros [= <-].
      destruct (add_workers_facts
        (Z.to_nat (int_sub (Z.min (int_mul (len (workers p)) 2) (maxWorkers p))
                           (len (workers p)))) p) as (Hc & Hq & _).
      split; [done|]. rewrite Hq. destruct Hc as (_ & _ & -> & _). done. }
    case_decide; [|intros [= <-]; split; [by repeat split|done]].
    destruct (int_quo _ 2); [|done].
    destruct (slice_to (workers p) _); [|done].
    destruct (slice_to (sort_Ints _) _); [|done].
    intros [= <-]. simpl. split; [by repeat split|done].
Qed.

Lemma pool_run_config evs :
  ∀ p p', pool_run evs p = Some p' →
  same_config p p' ∧
  (len (taskQueue p) ≤ taskQueueSize p → len (taskQueue p') ≤ taskQueueSize p').
Proof.
  induction evs as [|ev evs IH]; intros p p'; simpl.
  { intros [= <-]. split; [apply same_config_refl|done]. }
  destruct (pool_step ev p) as [p1|] eqn:Hstep; [|done].
  intros Hrun. destruct (pool_step_config _ _ _ Hstep) as [Hc1 Hq1].
  destruct (IH _ _ Hrun) as [Hc2 Hq2].
  split; [by eapply same_config_trans|auto].
Qed.

Lemma foldl_apply_option_fields options :
  ∀ pool,
    taskQueueSize (foldl apply_option pool options) =
      foldl (λ size opt, match opt with WithTaskQueueSize n => n | _ => size end)
            (taskQueueSize pool) options ∧
    minWorkers (foldl apply_option pool options) =
      foldl (λ m opt, match opt with WithMinWorkers n => n | _ => m end)
            (minWorkers pool) options ∧
    maxWorkers (foldl apply_option pool options) = maxWorkers pool ∧
    taskQueue (foldl apply_option pool options) = taskQueue pool.
Proof.
  induction options as [|opt options IH]; intros pool; [done|].
  simpl. destruct (IH (apply_option pool opt)) as (-> & -> & -> & ->).
  by destruct opt.
Qed.

(** What [NewGoroutinePool] builds. *)
Lemma NewGoroutinePool_facts m options pool :
  NewGoroutinePool m options = Some pool →
  taskQueueSize pool = configured_queue_size options ∧
  minWorkers pool = configured_min m options ∧
  maxWorkers pool = m ∧ taskQueue pool = [] ∧
  0 ≤ taskQueueSize pool ∧ 0 ≤ minWorkers pool ∧
  workers pool = initial_workers (Z.to_nat (minWorkers pool)) ∧
  workerStack pool = initial_stack (Z.to_nat (minWorkers pool)) ∧
  spawned pool = Z.to_nat (minWorkers pool) ∧
  dispatching pool = Receiving.
Proof.
  unfold NewGoroutinePool.
  set (p0 := mkPool _ _ _ _ _ _ _ _ _ _ _ _ _).
  destruct (foldl_apply_option_fields options p0) as (Hs & Hm & Hx & Hq).
  repeat case_decide; [done|done|]. intros [= <-]. simpl.
  split_and!; try done; try lia.
  assert (∀ p, dispatching (foldl apply_option p options) = dispatching p) as ->;
    [|done].
  clear. induction options as [|o os IH]; intros p; [done|].
  simpl. rewrite IH. by destruct o.
Qed.

(** C10.  Whatever is submitted, dispatched and completed on a pool that
    [NewGoroutinePool] has built, [GetTaskQueenSize] returns the capacity of
    the queue that the options configured, 1,000,000 when no option sets
    one, and no later step changes what it returns.  It does not follow the
    number of pending tasks: that number never exceeds the returned value,
    and the two are equal exactly when the queue is full. *)
Theorem GetTaskQueenSize_is_capacity m options pool0 evs pool :
  NewGoroutinePool m options = Some pool0 →
  pool_run evs pool0 = Some pool →
  GetTaskQueenSize pool = configured_queue_size options ∧
  GetTaskQueenSize pool = GetTaskQueenSize pool0 ∧
  (Forall (λ opt, ∀ n, opt ≠ WithTaskQueueSize n) options →
     GetTaskQueenSize pool = 1000000) ∧
  len (taskQueue pool) ≤ GetTaskQueenSize pool ∧
  (GetTaskQueenSize pool = len (taskQueue pool) ↔
     len (taskQueue pool) = configured_queue_size options) ∧
  (∀ evs' pool', pool_run evs' pool = Some pool' →
     GetTaskQueenSize pool' = GetTaskQueenSize pool).
Proof.
  intros Hnew Hrun.
  destruct (NewGoroutinePool_facts _ _ _ Hnew) as (Hs & _ & _ & Hq & H0 & _).
  destruct (pool_run_config _ _ _ Hrun) as [(_ & _ & Hsize & _) Hbound].
  unfold GetTaskQueenSize. rewrite Hsize, Hs.
  assert (len (taskQueue pool) ≤ taskQueueSize pool) as Hle.
  { apply Hbound. rewrite Hq. unfold len. simpl. lia. }
  rewrite Hsize, Hs in Hle.
  split_and!; try done; try lia.
  - intros Hnone. unfold configured_queue_size. clear -Hnone.
    generalize 1000000. induction Hnone as [|opt opts Ho _ IH]; intros z; [done|].
    simpl. rewrite IH. destruct opt as [| | | | |size]; try done.
    by destruct (Ho size).
  - intros evs' pool' Hrun'.
    destruct (pool_run_config _ _ _ Hrun') as [(_ & _ & Hsize' & _) _].
    by rewrite Hsize', Hsize, Hs.
Qed.

(** C10 as stated fails: the returned value can be the number of pending
    tasks.  With a capacity of 1 and one task submitted the queue is full
    and [GetTaskQueenSize] returns 1, the number of pending tasks; with a
    capacity of 0 it returns 0, the number of pending tasks of the new
    pool. *)
Lemma GetTaskQueenSize_equals_pending_count :
  (∃ pool0 pool,
     NewGoroutinePool 4 [WithTaskQueueSize 1] = Some pool0 ∧
     pool_run [EvSubmit nilTask] pool0 = Some pool ∧
     taskQueue pool = [nilTask] ∧
     GetTaskQueenSize pool = len (taskQueue pool)) ∧
  (∃ pool0,
     NewGoroutinePool 4 [WithTaskQueueSize 0] = Some pool0 ∧
     taskQueue pool0 = [] ∧
     GetTaskQueenSize pool0 = len (taskQueue pool0)).
Proof.
  split.
  - eexists _, _. split; [reflexivity|]. split; [vm_compute; reflexivity|].
    split; reflexivity.
  - eexists. split; [reflexivity|]. split; reflexivity.
Qed.

(** A step that touches neither the workers nor the stack, and does not
    start a send, keeps the invariant. *)
Lemma pool_inv_frame p p' :
  workers p' = workers p → workerStack p' = workerStack p →
  spawned p' = spawned p → minWorkers p' = minWorkers p →
  maxWorkers p' = maxWorkers p →
  (∀ t i, dispatching p' = Sending t i → dispatching p = Sending t i) →
  pool_inv p → pool_inv p'.
Proof.
  intros Hw Hs Hsp Hmin Hmax Hd ((Hnd & Hrange) & (Hb1 & Hb2) & (Hso & Hlt) & (Hm0 & [Hmb1 Hmb2] & Hdb)).
  unfold pool_inv, stack_ok, busy_ok, creation_ordered, bounds_ok.
  rewrite Hw, Hs, Hsp, Hmin, Hmax. split_and!; try done.
  - intros i w Hi Hne. destruct (Hb1 i w Hi Hne) as (? & ? & Hns).
    split_and!; try done. intros t Ht. by apply (Hns t), Hd.
  - intros t i Ht. apply (Hb2 t). by apply Hd.
Qed.

Lemma Submit_inv t p : pool_inv p → pool_inv (default p (Submit t p)).
Proof.
  intros Hinv. unfold Submit. case_decide; simpl.
  - by apply (pool_inv_frame p).
  - destruct (taskQueue p), (dispatching p) eqn:Hd; simpl; try done.
    by apply (pool_inv_frame p).
Qed.

Lemma dispatch_receive_inv p : pool_inv p → pool_inv (dispatch_receive p).
Proof.
  intros Hinv. unfold dispatch_receive.
  destruct (dispatching p) eqn:Hd, (taskQueue p); try done.
  by apply (pool_inv_frame p).
Qed.

Lemma dispatch_observe_inv p : pool_inv p → pool_inv (dispatch_observe p).
Proof.
  intros Hinv. unfold dispatch_observe.
  destruct (dispatching p) eqn:Hd; try done. case_decide; [done|].
  by apply (pool_inv_frame p).
Qed.

Lemma dispatch_pop_inv p p' :
  pool_inv p → dispatch_pop p = Some p' → pool_inv p'.
Proof.
  intros Hinv.
  pose proof Hinv as ((Hnd & Hrange) & (Hb1 & Hb2) & Hcr & (Hm0 & [Hmb1 Hmb2] & Hdb)).
  unfold dispatch_pop, popWorker.
  destruct (dispatching p) eqn:Hd; try (by intros [= <-]).
  destruct (last (workerStack p)) as [idx|] eqn:Hlast; [|done].
  intros [= <-]. apply last_Some in Hlast as [st Hst].
  assert (take (length (workerStack p) - 1) (workerStack p) = st) as Htake.
  { rewrite Hst, length_app. simpl.
    replace (length st + 1 - 1)%nat with (length st) by lia.
    apply take_app_length. }
  rewrite Hst in Hnd, Hrange, Hb1, Hb2.
  apply NoDup_app in Hnd as (Hnd & Hdisj & _).
  unfold pool_inv, stack_ok, busy_ok. simpl. rewrite Htake.
  split_and!; try done.
  - intros i Hi. apply Hrange. set_solver.
  - intros i w Hi Hne. destruct (Hb1 i w Hi Hne) as (Hni & ? & _).
    split_and!; [set_solver|done|].
    intros t' [= _ Heq]. rewrite Heq in *. set_solver.
  - intros t' i [= _ <-]. split; [|apply Hrange; set_solver].
    intros Hin. apply (Hdisj _ Hin). set_solver.
Qed.

Lemma fmap_wid_insert (ws : list Worker) (i : nat) w t :
  ws !! i = Some w →
  wid <$> <[i := mkWorker (wid w) t]> ws = wid <$> ws.
Proof.
  intros Hi. rewrite list_fmap_insert. simpl.
  apply list_insert_id. by rewrite list_lookup_fmap, Hi.
Qed.

Lemma elem_of_insert_wid (ws : list Worker) (i : nat) w t x :
  ws !! i = Some w → x ∈ <[i := mkWorker (wid w) t]> ws →
  ∃ y, y ∈ ws ∧ wid y = wid x.
Proof.
  intros Hi Hx. apply list_elem_of_lookup in Hx as [j Hj].
  destruct (decide (i = j)) as [<-|Hne].
  - rewrite list_lookup_insert_eq in Hj by by eapply lookup_lt_Some.
    injection Hj as <-. exists w. split; [|done].
    apply list_elem_of_lookup. eauto.
  - rewrite list_lookup_insert_ne in Hj by done.
    exists x. split; [|done]. apply list_elem_of_lookup. eauto.
Qed.

Lemma dispatch_send_inv p p' :
  pool_inv p → dispatch_send p = Some p' → pool_inv p'.
Proof.
  intros Hinv. pose proof Hinv as ((Hnd & Hrange) & (Hb1 & Hb2) & (Hso & Hlt) & (Hm0 & [Hmb1 Hmb2] & Hdb)).
  unfold dispatch_send.
  destruct (dispatching p) as [| | |t idx] eqn:Hd; try (by intros [= <-]).
  case_decide as H0; [|done].
  destruct (workers p !! Z.to_nat idx) as [w|] eqn:Hw; [|done].
  case_decide as Hroom; intros [= <-]; [|done].
  destruct (Hb2 _ _ eq_refl) as [Hidx Hir].
  assert (worker_taskQueue w = []) as Hempty.
  { destruct (worker_taskQueue w) eqn:Hq; [done|].
    unfold len in Hroom. simpl in Hroom. lia. }
  unfold pool_inv, stack_ok, busy_ok, creation_ordered, bounds_ok, len. simpl.
  rewrite length_insert, (fmap_wid_insert _ _ _ _ Hw).
  split_and!; try done.
  - intros i w' Hi Hne.
    destruct (decide (Z.to_nat idx = i)) as [<-|Hneq].
    + rewrite Z2Nat.id by done. rewrite list_lookup_insert_eq in Hi
        by by eapply lookup_lt_Some.
      injection Hi as <-. simpl. rewrite Hempty. simpl. split_and!; done.
    + rewrite list_lookup_insert_ne in Hi by done.
      destruct (Hb1 i w' Hi Hne) as (? & ? & ?). done.
  - intros w' Hw'. destruct (elem_of_insert_wid _ _ _ _ _ Hw Hw') as (y & Hy & <-).
    by apply Hlt.
Qed.

Lemma worker_round_inv i sched p : pool_inv p → pool_inv (worker_round i sched p).
Proof.
  intros Hinv. pose proof Hinv as ((Hnd & Hrange) & (Hb1 & Hb2) & (Hso & Hlt) & (Hm0 & [Hmb1 Hmb2] & Hdb)).
  unfold worker_round.
  destruct (workers p !! i) as [[serial [|t q]]|] eqn:Hw; try done.
  destruct (Hb1 i _ Hw) as (Hni & Hlen & Hns); [done|].
  assert (q = []) as -> by (destruct q; [done|simpl in Hlen; lia]).
  assert (i < length (workers p))%nat as Hlt_i by by eapply lookup_lt_Some.
  set (ws := <[i := mkWorker serial []]> (workers p)).
  assert (wid <$> ws = wid <$> workers p) as Hwid.
  { apply (fmap_wid_insert _ _ (mkWorker serial [t]) [] Hw). }
  assert (∀ j w, ws !! j = Some w → worker_taskQueue w ≠ [] →
                 j ≠ i ∧ workers p !! j = Some w) as Hother.
  { intros j w Hj Hne. unfold ws in Hj.
    destruct (decide (i = j)) as [<-|?].
    - rewrite list_lookup_insert_eq in Hj by done. by injection Hj as <-.
    - by rewrite list_lookup_insert_ne in Hj. }
  assert (∀ w, w ∈ ws → (wid w < spawned p)%nat) as Hlt'.
  { intros w Hin.
    destruct (elem_of_insert_wid _ _ (mkWorker serial [t]) [] _ Hw Hin)
      as (y & Hy & <-). by apply Hlt. }
  assert (length ws = length (workers p)) as Hlenws by apply length_insert.
  unfold len in *.
  destruct (finished _);
    unfold pool_inv, stack_ok, busy_ok, creation_ordered, bounds_ok, len; simpl;
    fold ws; rewrite Hwid, ?Hlenws; split_and!; try done.
  - apply NoDup_app. split_and!; [done| |apply NoDup_singleton].
    intros x Hx Hx'. apply list_elem_of_singleton in Hx' as ->. done.
  - intros x Hx. apply elem_of_app in Hx as [Hx|Hx]; [by apply Hrange|].
    apply list_elem_of_singleton in Hx as ->. lia.
  - intros j w Hj Hne. destruct (Hother j w Hj Hne) as [Hji Hj'].
    destruct (Hb1 j w Hj' Hne) as (? & ? & ?).
    split_and!; try done. intros [?|Hx]%elem_of_app; [done|].
    apply list_elem_of_singleton in Hx. lia.
  - intros t' idx Hd. destruct (Hb2 _ _ Hd) as [? ?]. split; [|done].
    intros [?|Hx]%elem_of_app; [done|].
    apply list_elem_of_singleton in Hx as ->. by apply (Hns t').
  - intros j w Hj Hne. destruct (Hother j w Hj Hne) as [Hji Hj'].
    by apply Hb1.
Qed.

Lemma StronglySorted_snoc_lt (l : list nat) (x : nat) :
  StronglySorted lt l → (∀ y, y ∈ l → (y < x)%nat) → StronglySorted lt (l ++ [x]).
Proof.
  induction 1 as [|a l Hl IH Ha]; intros Hx; simpl.
  - repeat constructor.
  - constructor.
    + apply IH. intros y Hy. apply Hx. by right.
    + apply Forall_app. split; [done|]. constructor; [|done]. apply Hx. by left.
Qed.

Lemma StronglySorted_take_lt (l : list nat) n :
  StronglySorted lt l → StronglySorted lt (take n l).
Proof.
  intros Hl. revert n. induction Hl as [|a l Hl IH Ha]; intros [|n]; simpl;
    try constructor; [by apply IH|].
  apply Forall_forall. intros x Hx. rewrite Forall_forall in Ha.
  apply Ha. apply list_elem_of_lookup in Hx as [i Hi].
  apply lookup_take_Some in Hi as [Hi _]. apply list_elem_of_lookup. eauto.
Qed.

Lemma add_worker_core p :
  core_inv p → len (workers p) < int_max → core_inv (add_worker p).
Proof.
  intros ((Hnd & Hrange) & (Hb1 & Hb2) & (Hso & Hlt)) Hmax.
  unfold core_inv, stack_ok, busy_ok, creation_ordered, add_worker. simpl.
  assert (int_sub (len (workers p ++ [newWorker (spawned p)])) 1 = len (workers p))
    as ->.
  { unfold int_sub, len in *. rewrite length_app. simpl.
    rewrite wrap_id; [lia|]. unfold is_int, int_min, int_max in *. lia. }
  assert (len (workers p ++ [newWorker (spawned p)]) = len (workers p) + 1) as Hlen.
  { unfold len. rewrite length_app. simpl. lia. }
  rewrite Hlen. split_and!.
  - apply NoDup_app. split_and!; [done| |apply NoDup_singleton].
    intros x Hx Hx'. apply list_elem_of_singleton in Hx' as ->.
    apply Hrange in Hx. lia.
  - intros i [Hi|Hi]%elem_of_app; [apply Hrange in Hi; lia|].
    apply list_elem_of_singleton in Hi as ->. unfold len. lia.
  - intros i w Hi Hne.
    assert (workers p !! i = Some w) as Hi'.
    { apply lookup_app_Some in Hi as [?|[_ Hi]]; [done|].
      destruct (i - length (workers p))%nat; [|done].
      injection Hi as <-. done. }
    destruct (Hb1 i w Hi' Hne) as (? & ? & ?). split_and!; try done.
    intros [?|Hx]%elem_of_app; [done|].
    apply list_elem_of_singleton in Hx. apply lookup_lt_Some in Hi'.
    unfold len in Hx. lia.
  - intros t i Hd. destruct (Hb2 _ _ Hd) as [? ?]. split; [|lia].
    intros [?|Hx]%elem_of_app; [done|].
    apply list_elem_of_singleton in Hx. lia.
  - rewrite fmap_app. simpl. apply StronglySorted_snoc_lt; [done|].
    intros y (w & -> & Hw)%list_elem_of_fmap. by apply Hlt.
  - intros w [Hw|Hw]%elem_of_app; [apply Hlt in Hw; lia|].
    apply list_elem_of_singleton in Hw as ->. simpl. lia.
Qed.

Lemma add_workers_core n :
  ∀ p, core_inv p → len (workers p) + Z.of_nat n ≤ int_max →
       core_inv (add_workers n p).
Proof.
  induction n as [|n IH]; intros p Hinv Hmax; [done|]. simpl.
  apply IH; [apply add_worker_core; [done|lia]|].
  unfold add_worker, len in *. simpl. rewrite length_app. simpl. lia.
Qed.

Lemma initial_stack_elem n x :
  x ∈ initial_stack n ↔ 0 ≤ x < Z.of_nat n.
Proof.
  unfold initial_stack. rewrite list_elem_of_fmap. split.
  - intros (k & -> & Hk). apply elem_of_seq in Hk. lia.
  - intros Hx. exists (Z.to_nat x). split; [lia|]. apply elem_of_seq. lia.
Qed.

Lemma initial_stack_NoDup n : NoDup (initial_stack n).
Proof.
  unfold initial_stack. apply NoDup_fmap_2_strong; [|apply NoDup_seq].
  intros x y _ _ Hxy. lia.
Qed.

Lemma initial_stack_Sorted n : Sorted Z.le (initial_stack n).
Proof.
  unfold initial_stack. generalize 0%nat.
  induction n as [|n IH]; intros a; simpl; [constructor|].
  constructor; [apply IH|]. destruct n; simpl; constructor. lia.
Qed.

Lemma initial_stack_take n k :
  (k ≤ n)%nat → take k (initial_stack n) = initial_stack k.
Proof.
  intros Hk. unfold initial_stack. rewrite <- fmap_take, take_seq.
  by rewrite Nat.min_l.
Qed.

(** When every index is on the stack, sorting it gives [0, 1, ..., n-1]. *)
Lemma sort_full_stack p :
  stack_ok p → len (workerStack p) = len (workers p) →
  sort_Ints (workerStack p) = initial_stack (length (workers p)).
Proof.
  intros [Hnd Hrange] Hlen. unfold sort_Ints.
  apply (Sorted_unique_strong Z.le).
  - intros x y _ _ ? ?. lia.
  - apply Sorted_merge_sort. apply _.
  - apply initial_stack_Sorted.
  - rewrite merge_sort_Permutation.
    apply submseteq_length_Permutation.
    + apply NoDup_submseteq; [done|]. intros x Hx.
      apply initial_stack_elem. apply Hrange in Hx. unfold len in Hx. lia.
    + unfold initial_stack, len in *. rewrite length_fmap, length_seq. lia.
Qed.

Lemma ceil_half_quot x : 0 ≤ x → (x + 1) ÷ 2 = ceil_half x.
Proof.
  intros Hx. unfold ceil_half. rewrite Z.quot_div_nonneg by lia.
  Z.div_mod_to_equations. lia.
Qed.

Lemma StronglySorted_lookup_lt (l : list nat) i j x y :
  StronglySorted lt l → l !! i = Some x → l !! j = Some y → (i < j)%nat →
  (x < y)%nat.
Proof.
  intros Hl. revert i j. induction Hl as [|a l Hl IH Ha]; intros i j Hi Hj Hij.
  { by rewrite lookup_nil in Hi. }
  destruct j as [|j]; [lia|]. simpl in Hj.
  destruct i as [|i].
  - injection Hi as <-. rewrite Forall_forall in Ha. apply Ha.
    apply list_elem_of_lookup. eauto.
  - simpl in Hi. apply (IH i j); [done|done|lia].
Qed.

(** The scale-down branch of [adjustWorkers], computed. *)
Lemma adjustWorkers_scale_down p :
  pool_inv p → taskQueue p = [] →
  len (workerStack p) = len (workers p) →
  len (workers p) > minWorkers p →
  adjustWorkers p =
    Some (set_workerStack
            (initial_stack
               (Z.to_nat (len (workers p) - ceil_half (len (workers p) - minWorkers p))))
            (set_workers
               (take (Z.to_nat (len (workers p) - ceil_half (len (workers p) - minWorkers p)))
                     (workers p)) p)) ∧
  1 ≤ ceil_half (len (workers p) - minWorkers p) ≤ len (workers p) - minWorkers p.
Proof.
  intros (Hst & Hbusy & Hcr & (Hm0 & [Hmb1 Hmb2] & Hdb)) Hq Hidle Hgt.
  set (n := len (workers p)) in *. set (m := minWorkers p) in *.
  assert (0 ≤ n) as Hn0 by (unfold n, len; lia).
  assert (1 ≤ ceil_half (n - m) ≤ n - m) as Hr.
  { unfold ceil_half. Z.div_mod_to_equations. lia. }
  split; [|done].
  assert (∀ z, int_min ≤ z ≤ int_max → wrap z = z) as Hwrap.
  { intros z Hz. by apply wrap_id. }
  unfold int_max, int_min in *.
  unfold adjustWorkers. fold n m. rewrite Hq, Hidle.
  unfold int_mul, int_sub, int_add.
  rewrite (Hwrap (n * 3)) by lia.
  rewrite int_quo_exact by (unfold is_int, int_min, int_max; lia).
  rewrite decide_False; last first.
  { intros [Hqueue _]. unfold len in Hqueue. simpl in Hqueue.
    assert (0 ≤ n * 3 ÷ 4) by (apply Z.quot_pos; lia). lia. }
  rewrite decide_True by (unfold len; simpl; lia).
  rewrite (Hwrap (n - m)), (Hwrap (n - m + 1)) by lia.
  rewrite int_quo_exact by (unfold is_int, int_min, int_max; lia).
  rewrite ceil_half_quot by lia.
  rewrite (sort_full_stack p Hst Hidle).
  assert (len (initial_stack (length (workers p))) = n) as ->.
  { unfold len, initial_stack. by rewrite length_fmap, length_seq. }
  rewrite (Hwrap (n - ceil_half (n - m))) by lia.
  unfold slice_to. fold n.
  rewrite decide_True by lia.
  assert (len (initial_stack (length (workers p))) = n) as ->.
  { unfold len, initial_stack. by rewrite length_fmap, length_seq. }
  rewrite decide_True by lia.
  rewrite initial_stack_take by (unfold n, len in *; lia). done.
Qed.

(** C7.  In a pool whose queue is empty, whose workers are all idle (the
    idle stack is as long as the worker list) and which has more than
    [minWorkers] workers, one step of the scaling loop removes
    [ceil((workers - minWorkers) / 2)] workers.  The sorted idle stack is
    [0, 1, ..., n-1], so after the truncation the kept workers are the
    first ones of the list, the idle stack holds exactly their indices, and
    the removed workers are the last ones of the list, each created after
    every kept worker; the first [minWorkers] workers stay. *)
Theorem scale_down_removes_newest p :
  pool_inv p → taskQueue p = [] →
  len (workerStack p) = len (workers p) →
  len (workers p) > minWorkers p →
  ∃ p' removed,
    adjustWorkers p = Some p' ∧
    workers p = workers p' ++ removed ∧
    len removed = ceil_half (len (workers p) - minWorkers p) ∧
    len (workers p') = len (workers p) - ceil_half (len (workers p) - minWorkers p) ∧
    minWorkers p ≤ len (workers p') < len (workers p) ∧
    sort_Ints (workerStack p) = initial_stack (length (workers p)) ∧
    workerStack p' = initial_stack (length (workers p')) ∧
    (∀ i w, workers p' !! i = Some w → workers p !! i = Some w) ∧
    (∀ i w, removed !! i = Some w →
            workers p !! (length (workers p') + i)%nat = Some w) ∧
    (∀ w w', w ∈ workers p' → w' ∈ removed → (wid w < wid w')%nat) ∧
    take (Z.to_nat (minWorkers p)) (workers p') =
      take (Z.to_nat (minWorkers p)) (workers p).
Proof.
  intros Hinv Hq Hidle Hgt.
  destruct (adjustWorkers_scale_down p Hinv Hq Hidle Hgt) as [Hadj Hr].
  pose proof Hinv as (Hst & Hbusy & (Hso & Hlt) & (Hm0 & [Hmb1 Hmb2] & Hdb)).
  set (r := ceil_half (len (workers p) - minWorkers p)) in *.
  set (k := Z.to_nat (len (workers p) - r)) in *.
  assert (k ≤ length (workers p))%nat as Hk by (unfold k, len in *; lia).
  eexists _, (drop k (workers p)). split; [exact Hadj|]. simpl.
  assert (length (take k (workers p)) = k) as Hlen by by apply length_take_le.
  unfold len. rewrite Hlen, length_drop.
  split_and!.
  - by rewrite take_drop.
  - unfold k, len in *. lia.
  - unfold k, len in *. lia.
  - unfold k, len in *. lia.
  - unfold k, len in *. lia.
  - by apply sort_full_stack.
  - done.
  - intros i w Hi. by apply lookup_take_Some in Hi as [? _].
  - intros i w Hi. by rewrite lookup_drop in Hi.
  - intros w w' Hw Hw'.
    apply list_elem_of_lookup in Hw as [i Hi], Hw' as [j Hj].
    apply lookup_take_Some in Hi as [Hi Hik]. rewrite lookup_drop in Hj.
    assert ((wid <$> workers p) !! i = Some (wid w)) as Hi'
      by by rewrite list_lookup_fmap, Hi.
    assert ((wid <$> workers p) !! (k + j)%nat = Some (wid w')) as Hj'
      by by rewrite list_lookup_fmap, Hj.
    eapply StronglySorted_lookup_lt; eauto. lia.
  - rewrite take_take. f_equal. unfold k, len in *. lia.
Qed.

Lemma adjustWorkers_inv p p' :
  pool_inv p → adjustWorkers p = Some p' → pool_inv p'.
Proof.
  intros Hinv Hadj. pose proof Hadj as Hadj0.
  pose proof Hinv as (Hst & Hbusy & Hcr & (Hm0 & [Hmb1 Hmb2] & Hdb)).
  unfold adjustWorkers in Hadj.
  destruct (int_quo _ 4) as [threshold|]; [|done].
  case_decide as Hup.
  - (* scale up *)
    injection Hadj as <-. destruct Hup as [_ Hlt].
    set (n := len (workers p)) in *.
    assert (0 ≤ n) by (unfold n, len; lia).
    assert (int_sub (Z.min (int_mul n 2) (maxWorkers p)) n =
            Z.min (n * 2) (maxWorkers p) - n) as ->.
    { unfold int_sub, int_mul, int_max in *.
      rewrite (wrap_id (n * 2)) by (unfold is_int, int_min, int_max; lia).
      apply wrap_id. unfold is_int, int_min, int_max. lia. }
    set (k := Z.to_nat (Z.min (n * 2) (maxWorkers p) - n)).
    destruct (add_workers_facts k p) as ((Hmax & Hmin & _) & _ & Hlen).
    assert (core_inv (add_workers k p)) as (? & ? & ?).
    { apply add_workers_core; [done|]. fold n. unfold k, int_max in *. lia. }
    split_and!; try done; unfold bounds_ok, len in *; rewrite Hmax, Hmin, Hlen.
    split_and!; unfold k; fold n; lia.
  - case_decide as Hdown; [|by injection Hadj as <-].
    (* scale down *)
    destruct Hdown as (Hq & Hidle & Hgt).
    assert (taskQueue p = []) as Hq'.
    { destruct (taskQueue p); [done|]. unfold len in Hq. simpl in Hq. lia. }
    destruct (adjustWorkers_scale_down p Hinv Hq' Hidle Hgt) as [Hval Hr].
    rewrite Hval in Hadj0. injection Hadj0 as <-.
    set (k := Z.to_nat (len (workers p) - ceil_half (len (workers p) - minWorkers p))) in *.
    assert (k ≤ length (workers p))%nat as Hk by (unfold k, len in *; lia).
    assert (∀ i, 0 ≤ i < len (workers p) → i ∈ workerStack p) as Hall.
    { intros i Hi. rewrite <- (merge_sort_Permutation Z.le).
      fold (sort_Ints (workerStack p)). rewrite (sort_full_stack p Hst Hidle).
      apply initial_stack_elem. unfold len in Hi. lia. }
    destruct Hst as [Hnd Hrange]. destruct Hbusy as [Hb1 Hb2].
    destruct Hcr as [Hso Hlt].
    unfold pool_inv, stack_ok, busy_ok, creation_ordered, bounds_ok, len. simpl.
    rewrite length_take_le by done.
    split_and!.
    + apply initial_stack_NoDup.
    + intros i. apply initial_stack_elem.
    + intros i w Hi Hne. exfalso.
      apply lookup_take_Some in Hi as [Hi _].
      destruct (Hb1 i w Hi Hne) as (Hni & _). apply Hni, Hall.
      apply lookup_lt_Some in Hi. unfold len. lia.
    + intros t i Hd. exfalso. destruct (Hb2 t i Hd) as [Hni Hi].
      by apply Hni, Hall.
    + rewrite fmap_take. by apply StronglySorted_take_lt.
    + intros w Hw. apply Hlt.
      apply list_elem_of_lookup in Hw as [i Hi].
      apply lookup_take_Some in Hi as [Hi _]. apply list_elem_of_lookup. eauto.
    + done.
    + unfold k, len in *. lia.
    + unfold k, len in *. lia.
    + done.
Qed.

Lemma pool_step_inv ev p p' : pool_inv p → pool_step ev p = Some p' → pool_inv p'.
Proof.
  intros Hinv. destruct ev; simpl.
  - intros [= <-]. by apply Submit_inv.
  - intros [= <-]. by apply dispatch_receive_inv.
  - intros [= <-]. by apply dispatch_observe_inv.
  - by apply dispatch_pop_inv.
  - by apply dispatch_send_inv.
  - intros [= <-]. by apply worker_round_inv.
  - by apply adjustWorkers_inv.
Qed.

Lemma pool_run_inv evs : ∀ p p', pool_inv p → pool_run evs p = Some p' → pool_inv p'.
Proof.
  induction evs as [|ev evs IH]; intros p p' Hinv; simpl; [by intros [= <-]|].
  destruct (pool_step ev p) as [p1|] eqn:Hstep; [|done].
  apply IH. by eapply pool_step_inv.
Qed.

Lemma NewGoroutinePool_inv m options p :
  NewGoroutinePool m options = Some p →
  configured_min m options ≤ m → 3 * m ≤ int_max → pool_inv p.
Proof.
  intros Hnew Hle Hmax.
  destruct (NewGoroutinePool_facts _ _ _ Hnew)
    as (_ & Hmin & Hmx & _ & _ & Hm0 & Hws & Hstk & Hsp & Hd).
  set (n := Z.to_nat (minWorkers p)) in *.
  assert (length (workers p) = n) as Hlen.
  { rewrite Hws. unfold initial_workers. by rewrite length_fmap, length_seq. }
  unfold pool_inv, stack_ok, busy_ok, creation_ordered, bounds_ok, len.
  rewrite Hstk, Hd, Hsp, Hlen, Hmx. split_and!; try done; try lia.
  - apply initial_stack_NoDup.
  - intros i. apply initial_stack_elem.
  - intros i w Hi Hne. exfalso. rewrite Hws in Hi. unfold initial_workers in Hi.
    rewrite list_lookup_fmap in Hi.
    destruct (seq 0 n !! i); [|done]. injection Hi as <-. done.
  - rewrite Hws. unfold initial_workers. rewrite <- list_fmap_compose.
    rewrite (list_fmap_ext _ id (seq 0 n)) by done. rewrite list_fmap_id.
    clear. generalize 0%nat. induction n as [|n IH]; intros a; simpl;
      constructor; [apply IH|].
    apply Forall_forall. intros x Hx. apply elem_of_seq in Hx. lia.
  - intros w. rewrite Hws. unfold initial_workers.
    intros (k & -> & Hk)%list_elem_of_fmap. apply elem_of_seq in Hk. simpl. lia.
Qed.

(** C6, as amended.  For a pool that [NewGoroutinePool] builds with a floor
    not above [maxWorkers] (and [3 * maxWorkers] within an [int]), after
    any sequence of steps of the scaling loop, submissions, dispatches and
    completions, the worker count is between [minWorkers] and
    [maxWorkers], which are the configured ones. *)
Theorem worker_count_within_bounds m options pool0 evs pool :
  NewGoroutinePool m options = Some pool0 →
  configured_min m options ≤ m → 3 * m ≤ int_max →
  pool_run evs pool0 = Some pool →
  minWorkers pool ≤ GetWorkers pool ≤ maxWorkers pool ∧
  minWorkers pool = configured_min m options ∧ maxWorkers pool = m ∧
  0 ≤ minWorkers pool.
Proof.
  intros Hnew Hle Hmax Hrun.
  pose proof (NewGoroutinePool_inv _ _ _ Hnew Hle Hmax) as Hinv0.
  pose proof (pool_run_inv _ _ _ Hinv0 Hrun) as (_ & _ & _ & (H0 & Hb & _)).
  destruct (pool_run_config _ _ _ Hrun) as [(Hmx & Hmn & _) _].
  destruct (NewGoroutinePool_facts _ _ _ Hnew) as (_ & Hmin & Hmx0 & _).
  unfold GetWorkers. destruct Hb. split_and!; try done; congruence.
Qed.

(** C6 as stated fails: a floor above [maxWorkers] is accepted and the pool
    starts, and stays, with more than [maxWorkers] workers. *)
Lemma worker_count_exceeds_maxWorkers :
  ∃ pool,
    NewGoroutinePool 2 [WithMinWorkers 5] = Some pool ∧
    maxWorkers pool = 2 ∧ GetWorkers pool = 5 ∧
    ¬ (minWorkers pool ≤ GetWorkers pool ≤ maxWorkers pool) ∧
    pool_run [EvAdjust; EvSubmit nilTask; EvAdjust] pool ≠ None ∧
    (∀ pool', pool_run [EvAdjust; EvSubmit nilTask; EvAdjust] pool = Some pool' →
              GetWorkers pool' = 5).
Proof.
  eexists. split; [reflexivity|]. split_and!; try reflexivity.
  - vm_compute. intros [_ H]. by apply H.
  - by vm_compute.
  - intros pool'. vm_compute. by intros [= <-].
Qed.

(** ** The theorems at concrete inputs *)

Lemma wheel_ab_inv : wheel_inv wheel_ab.
Proof. apply run_inv, NewTimeWheel_inv. Qed.

Lemma wheel_k_inv : wheel_inv wheel_k.
Proof. apply run_inv, NewTimeWheel_inv. Qed.

Lemma wheel0_ok : wheel_ok wheel0.
Proof. by vm_compute. Qed.

(** The tick of [wheel_ab] starts the due task, keeps the other one with
    one revolution less, and moves the cursor to slot 1. *)
Lemma tick_scans_current_bucket_witness :
  ∃ t', tick wheel_ab = Ok t' ∧ curSlot t' = 1 ∧
        launched t' = [0%nat] ∧ slots t' !! 0%nat = Some [1%nat] ∧
        elems t' !! 1%nat = Some (mkTask 2%nat 0 1 "b").
Proof.
  destruct (tick_scans_current_bucket wheel_ab [0; 1]%nat)
    as (t' & Ht & Hc & Hwait & _ & Hl & Hb & _).
  - exact wheel_ab_inv.
  - by vm_compute.
  - reflexivity.
  - exists t'. split; [exact Ht|]. rewrite Hc, Hl.
    destruct (Hwait 1%nat (mkTask 2%nat 0 2 "b")) as (He & _);
      [set_solver|reflexivity|simpl; lia|].
    split_and!; [reflexivity|reflexivity|exact Hb|exact He].
Defined.


(** A delay of 5.3 s on the 10-slot, 100 ms wheel: slot 3 after 5
    revolutions; a delay of -250 ms: slot -2. *)
Lemma AddTask_pos_and_cycle_witness :
  (∃ te, AddTask wheel0 "k" 7%nat 5300000000 = Some te ∧
         pos te = 3 ∧ cycle te = 5) ∧
  (∃ te, AddTask wheel0 "k" 7%nat (-250000000) = Some te ∧
         pos te = -2 ∧ cycle te = 0).
Proof.
  split.
  - destruct (AddTask_pos_and_cycle wheel0 "k" 7%nat 5300000000)
      as (te & Ht & _ & _ & Hp & Hc & _);
      [exact wheel0_ok|by vm_compute|by vm_compute|].
    exists te. rewrite Hp, Hc. split_and!; [exact Ht|reflexivity|reflexivity].
  - destruct (AddTask_pos_and_cycle wheel0 "k" 7%nat (-250000000))
      as (te & Ht & _ & _ & Hp & Hc & _);
      [exact wheel0_ok|by vm_compute|by vm_compute|].
    exists te. rewrite Hp, Hc. split_and!; [exact Ht|reflexivity|reflexivity].
Defined.

Lemma control_loop_keeps_invariant_witness :
  wheel_inv (state_of (addTask wheel_ab (mkTask 3%nat (-1) 0 "a"))) ∧
  wheel_inv (state_of (removeTask wheel_ab "b")) ∧
  wheel_inv (state_of (tick wheel_ab)).
Proof.
  destruct (control_loop_keeps_invariant wheel_ab (mkTask 3%nat (-1) 0 "a") "b")
    as ((Ha & _) & (Hr & _) & (Ht & _)); [exact wheel_ab_inv|].
  split_and!; [exact Ha|exact Hr|exact Ht].
Defined.

Lemma AddTask_negative_pos_panics_witness :
  ∃ delay te,
    delay ≤ - interval wheel0 ∧ curSlot wheel0 + delay ÷ interval wheel0 < 0 ∧
    AddTask wheel0 "k" 7%nat delay = Some te ∧ pos te < 0 ∧
    addTask wheel0 te = Panic wheel0.
Proof.
  destruct (AddTask_negative_pos_panics wheel0 "k" 7%nat)
    as (delay & te & H1 & H2 & H3 & H4 & _ & H6 & _);
    [exact wheel0_ok|by vm_compute|].
  exists delay, te. split_and!; assumption.
Defined.

Lemma worker_count_within_bounds_witness :
  ∃ pool0 pool,
    NewGoroutinePool 4 [WithMinWorkers 1] = Some pool0 ∧
    pool_run burst pool0 = Some pool ∧
    1 ≤ GetWorkers pool ≤ 4.
Proof.
  eexists _, _. split; [reflexivity|]. split; [vm_compute; reflexivity|].
  match goal with
  | |- _ ≤ GetWorkers ?p ≤ _ =>
    destruct (worker_count_within_bounds 4 [WithMinWorkers 1] _ burst p eq_refl)
      as (Hb & _)
  end.
  - by vm_compute.
  - by vm_compute.
  - vm_compute. reflexivity.
  - exact Hb.
Defined.

Lemma GetTaskQueenSize_is_capacity_witness :
  ∃ pool0 pool,
    NewGoroutinePool 4 [WithMinWorkers 1; WithTaskQueueSize 8] = Some pool0 ∧
    pool_run burst pool0 = Some pool ∧
    GetTaskQueenSize pool = 8 ∧ len (taskQueue pool) = 0.
Proof.
  eexists _, _. split; [reflexivity|]. split; [vm_compute; reflexivity|].
  split; [|reflexivity].
  match goal with
  | |- GetTaskQueenSize ?p = _ =>
    destruct (GetTaskQueenSize_is_capacity 4
                [WithMinWorkers 1; WithTaskQueueSize 8] _ burst p eq_refl)
      as (Hcap & _)
  end.
  - vm_compute. reflexivity.
  - exact Hcap.
Defined.

(** After the burst every worker is idle again and the queue is empty: the
    next step of the scaling loop removes the second worker. *)
Lemma scale_down_removes_newest_witness :
  ∃ pool0 pool,
    NewGoroutinePool 4 [WithMinWorkers 1] = Some pool0 ∧
    pool_run burst pool0 = Some pool ∧
    wid <$> workers pool = [0; 1]%nat ∧
    ∃ pool' removed,
      adjustWorkers pool = Some pool' ∧
      workers pool = workers pool' ++ removed ∧ len removed = 1 ∧
      workerStack pool' = initial_stack (length (workers pool')).
Proof.
  eexists _, _. split; [reflexivity|]. split; [vm_compute; reflexivity|].
  split; [reflexivity|].
  assert (pool_inv (mkPool [mkWorker 0 []] [0] 4 1 [] 1000000 0 0 None None
                           Receiving 1%nat [])) as Hinv0.
  { eapply (NewGoroutinePool_inv 4 [WithMinWorkers 1]);
      [reflexivity|by vm_compute|by vm_compute]. }
  match goal with
  | |- ∃ _ _, adjustWorkers ?p = _ ∧ _ => assert (pool_inv p) as Hinv
  end.
  { eapply (pool_run_inv burst _ _ Hinv0). vm_compute. reflexivity. }
  match goal with
  | |- ∃ _ _, adjustWorkers ?p = _ ∧ _ =>
    destruct (scale_down_removes_newest p Hinv)
      as (p' & removed & Hadj & Happ & Hlen & _ & _ & _ & Hstk & _)
  end.
  - reflexivity.
  - reflexivity.
  - by vm_compute.
  - exists p', removed. split_and!; [exact Hadj|exact Happ|exact Hlen|exact Hstk].
Defined.

(* ===================================================================== *)
(** * Part III: further properties of the code                            *)
(* ===================================================================== *)

(** ** More on the timing wheel *)

(** A step of the control loop changes neither the tick interval nor the
    number of slots. *)
Lemma handle_shape ev t r :
  wheel_inv t → handle ev t = Some r →
  interval (state_of r) = interval t ∧
  length (slots (state_of r)) = length (slots t).
Proof.
  intros Hinv Hh. destruct ev; simpl in Hh; try done; injection Hh as <-.
  - unfold tick. destruct (slot_at t (curSlot t)) as [l|] eqn:Hsl; [|done].
    apply slot_at_Some in Hsl as [H0 Hsl].
    destruct (execute_spec (Z.to_nat (curSlot t)) l t l)
      as (t1 & -> & _ & Hs1 & _ & _ & _ & _ & Hi1 & _);
      [done|done|done|by destruct Hinv as (_ & _ & Hn & _); eapply Hn|].
    assert (interval (state_of (circleIncr t1)) = interval t1 ∧
            slots (state_of (circleIncr t1)) = slots t1) as [-> ->].
    { unfold circleIncr. destruct (int_rem _ _); done. }
    by rewrite Hi1, Hs1, length_alter.
  - unfold addTask. destruct (slot_at t (pos te)); [|done].
    destruct (removeTask_facts t (key te) Hinv)
      as (t1 & Hrm & _ & _ & _ & _ & _ & _ & Hi1 & Hl1 & _).
    assert (match taskMap t !! key te with
            | Some _ => removeTask t (key te) | None => Ok t end = Ok t1) as ->.
    { destruct (taskMap t !! key te) eqn:Hk; [done|].
      unfold removeTask in Hrm. by rewrite Hk in Hrm. }
    simpl. by rewrite length_alter.
  - destruct (removeTask_facts t k Hinv)
      as (t1 & -> & _ & _ & _ & _ & _ & _ & Hi1 & Hl1 & _). done.
Qed.

Lemma run_shape evs :
  ∀ t, wheel_inv t →
       interval (run evs t) = interval t ∧
       length (slots (run evs t)) = length (slots t).
Proof.
  induction evs as [|ev evs IH]; intros t Hinv; [done|]. simpl.
  destruct (handle ev t) as [r|] eqn:Hh; [|done].
  pose proof (handle_inv _ _ _ Hinv Hh) as Hinv'.
  destruct (handle_shape _ _ _ Hinv Hh) as [Hi Hl].
  destruct r as [t'|t']; simpl in *; [|done].
  destruct (IH t' Hinv') as [-> ->]. done.
Qed.

(** X1.  Whatever the control loop receives, a wheel made by
    [NewTimeWheel] keeps the slot count and the interval it was made with:
    at least 10 slots, the requested number when that is larger, and the
    requested interval, one second when that is not positive.  The wheel
    invariant holds and the cursor stays a valid slot index. *)
Theorem NewTimeWheel_run_shape n d evs :
  (if decide (d ≤ 0) then Second else d) * Z.max n 10 ≤ int_max →
  let t := run evs (NewTimeWheel n d) in
  len (slots t) = Z.max n 10 ∧
  interval t = (if decide (d ≤ 0) then Second else d) ∧
  0 < interval t ∧ 0 ≤ curSlot t < len (slots t) ∧
  wheel_inv t ∧ wheel_ok t.
Proof.
  intros Hfit t.
  pose proof (NewTimeWheel_inv n d) as Hinv0.
  assert (wheel_ok (NewTimeWheel n d)) as Hok0.
  { apply NewTimeWheel_wheel_ok.
    replace (if decide (n < 10) then 10 else n) with (Z.max n 10); [done|].
    destruct (decide (n < 10)); lia. }
  destruct (run_shape evs _ Hinv0) as [Hi Hl].
  pose proof (run_inv evs _ Hinv0) as Hinv.
  pose proof (run_wheel_ok evs _ Hinv0 Hok0) as Hok.
  fold t in Hi, Hl, Hinv, Hok.
  assert (len (slots t) = Z.max n 10) as Hlen.
  { unfold len. rewrite Hl. unfold NewTimeWheel. simpl.
    rewrite length_replicate. destruct (decide (n < 10)); lia. }
  assert (interval t = if decide (d ≤ 0) then Second else d) as Hint.
  { rewrite Hi. done. }
  pose proof Hok as (? & [[? ?] ?] & ?). split_and!; done.
Qed.

Lemma NewTimeWheel_run_shape_witness :
  len (slots (run [Tick; AddReq (mkTask 1%nat 3 0 "k"); Tick]
                  (NewTimeWheel 4 (-5)))) = 10 ∧
  interval (run [Tick; AddReq (mkTask 1%nat 3 0 "k"); Tick]
                (NewTimeWheel 4 (-5))) = Second.
Proof.
  destruct (NewTimeWheel_run_shape 4 (-5)
              [Tick; AddReq (mkTask 1%nat 3 0 "k"); Tick]) as (Hl & Hi & _).
  - by vm_compute.
  - split; [exact Hl|exact Hi].
Defined.

(** X2.  [removeTask] of a key that the index does not hold changes
    nothing and does not panic.  [removeTask] of a scheduled key unlinks its
    element and drops its index entry, leaves every other key and every
    other linked element as they were, and the removed task is never
    started, whatever the loop receives afterwards. *)
Theorem removeTask_cancels t k :
  wheel_inv t →
  (taskMap t !! k = None → removeTask t k = Ok t) ∧
  (∀ e, taskMap t !! k = Some e →
     ∃ t', removeTask t k = Ok t' ∧
       taskMap t' !! k = None ∧ unlinked t' e ∧
       (∀ k', k' ≠ k → taskMap t' !! k' = taskMap t !! k') ∧
       (∀ x, x ≠ e → (linked t' x ↔ linked t x)) ∧
       elems t' = elems t ∧ launched t' = launched t ∧
       ∀ evs, e ∉ launched (run (RemoveReq k :: evs) t)).
Proof.
  intros Hinv. split.
  { intros Hk. unfold removeTask. by rewrite Hk. }
  intros e Hk. pose proof Hinv as (Hs & Hb & Hn & Hst & Hl).
  destruct (Hs _ _ Hk) as (te & l & He & Hkey & H0 & Hsl & Hin).
  pose proof (index_sound_range _ _ _ _ Hs Hk He) as Hr.
  destruct (removeTask_facts t k Hinv)
    as (t' & Hrm & Hinv' & Hm & Hel & Hnx & Hla & _ & _ & _ & Hu & Hsub).
  exists t'. split; [done|].
  assert (slots t' = alter (list_Remove e) (Z.to_nat (pos te)) (slots t)) as Hslots.
  { rewrite (removeTask_Some t k e te) in Hrm by done. by injection Hrm as <-. }
  split_and!; try done.
  - rewrite Hm. apply lookup_delete_eq.
  - by apply Hu.
  - intros k' Hne. rewrite Hm. by apply lookup_delete_ne.
  - intros x Hx. split.
    + intros (i & l' & Hi & Hin'). destruct (Hsub _ _ _ Hi Hin') as (l0 & ? & ?).
      by exists i, l0.
    + intros (i & l0 & Hi & Hin'). unfold linked. rewrite Hslots.
      destruct (decide (Z.to_nat (pos te) = i)) as [<-|Hne].
      * exists (Z.to_nat (pos te)), (list_Remove e l0).
        rewrite list_lookup_alter_eq, Hi. split; [done|].
        by apply elem_of_list_Remove.
      * exists i, l0. by rewrite list_lookup_alter_ne.
  - intros evs. simpl. rewrite Hrm. intros Hin'.
    assert (e ∈ launched t') as Hin''.
    { apply (run_unlinked_not_launched evs t' e); try done; [by apply Hu|].
      rewrite Hnx. apply Hst. eauto. }
    rewrite Hla in Hin''. destruct (Hl _ Hin'') as [_ Hu']. by apply (Hu' _ _ Hsl).
Qed.

Lemma removeTask_cancels_witness :
  removeTask wheel_k "zz" = Ok wheel_k ∧
  ∀ evs, 0%nat ∉ launched (run (RemoveReq "k" :: evs) wheel_k).
Proof.
  destruct (removeTask_cancels wheel_k "zz" wheel_k_inv) as [Hnone _].
  destruct (removeTask_cancels wheel_k "k" wheel_k_inv) as [_ Hsome].
  destruct (Hsome 0%nat eq_refl) as (t' & _ & _ & _ & _ & _ & _ & _ & Hnever).
  split; [apply Hnone; reflexivity|exact Hnever].
Defined.

(** X3.  Adding a task under a key that is not scheduled and removing the
    key again gives back the buckets and the key index as they were; only
    the store keeps the element that was allocated. *)
Theorem addTask_removeTask_round_trip t te :
  wheel_inv t → taskMap t !! key te = None → 0 ≤ pos te < len (slots t) →
  ∃ t1 t2,
    addTask t te = Ok t1 ∧ removeTask t1 (key te) = Ok t2 ∧
    slots t2 = slots t ∧ taskMap t2 = taskMap t ∧
    launched t2 = launched t ∧ curSlot t2 = curSlot t ∧
    interval t2 = interval t ∧
    elems t2 = <[nextElem t := te]> (elems t) ∧ nextElem t2 = S (nextElem t).
Proof.
  intros Hinv Hk Hr.
  pose proof (λ i l e, inv_linked_bounded t i l e Hinv) as Hlb.
  destruct (slot_at_is_Some t (pos te)) as [_ Hsl]. destruct (Hsl Hr) as [l Hl].
  pose proof Hl as Hl'. apply slot_at_Some in Hl' as [H0 Hlook].
  set (e := nextElem t).
  set (t1 := set_taskMap (insert (key te) e)
               (set_slots (alter (list_PushBack e) (Z.to_nat (pos te)))
                 (set_elems (insert e te) (set_nextElem (S e) t)))).
  assert (addTask t te = Ok t1) as Hadd.
  { unfold addTask. by rewrite Hl, Hk. }
  assert (removeTask t1 (key te) =
          Ok (set_slots (alter (list_Remove e) (Z.to_nat (pos te)))
                (set_taskMap (delete (key te)) t1))) as Hrm.
  { apply (removeTask_Some t1 (key te) e te); simpl.
    - apply lookup_insert_eq.
    - apply lookup_insert_eq.
    - unfold len in *. by rewrite length_alter. }
  eexists _, _. split; [exact Hadd|]. split; [exact Hrm|]. simpl.
  split_and!; try done.
  - rewrite list_alter_alter_eq. apply list_eq. intros i.
    rewrite list_lookup_alter. case_decide as Hi; [|done]. subst i.
    rewrite Hlook. simpl. f_equal. unfold list_PushBack, list_Remove.
    rewrite filter_app, filter_cons_False, filter_nil, app_nil_r by tauto.
    apply list_Remove_notin. intros Hin.
    pose proof (Hlb _ _ _ Hlook Hin). unfold e in *. lia.
  - by apply delete_insert_id.
Qed.

Lemma addTask_removeTask_round_trip_witness :
  ∃ t1 t2,
    addTask wheel_k (mkTask 2%nat 5 1 "j") = Ok t1 ∧
    removeTask t1 "j" = Ok t2 ∧
    slots t2 = slots wheel_k ∧ taskMap t2 = taskMap wheel_k.
Proof.
  destruct (addTask_removeTask_round_trip wheel_k (mkTask 2%nat 5 1 "j"))
    as (t1 & t2 & Hadd & Hrm & Hs & Hm & _).
  - exact wheel_k_inv.
  - reflexivity.
  - by vm_compute.
  - exists t1, t2. split_and!; [exact Hadd|exact Hrm|exact Hs|exact Hm].
Defined.

Lemma mod_minus_N a N : 0 < N → - N ≤ a < 0 → a `mod` N = a + N.
Proof. intros HN Ha. symmetry. apply (Z.mod_unique a N (-1)); lia. Qed.

Lemma scheduled_facts t e te :
  wheel_inv t → wheel_ok t → scheduled t e te →
  0 ≤ pos te < len (slots t) ∧ (e ∉ launched t) ∧
  ∀ i l, slots t !! i = Some l → e ∈ l → Z.of_nat i = pos te.
Proof.
  intros (Hs & Hb & Hn & Hst & Hl) _ (He & H0 & l & Hsl & Hin).
  split_and!.
  - done.
  - apply lookup_lt_Some in Hsl. unfold len. lia.
  - intros Hla. destruct (Hl _ Hla) as [_ Hu]. by apply (Hu _ _ Hsl).
  - intros i l' Hi Hin'. destruct (Hb _ _ _ Hi Hin') as (te' & He' & Hp & _).
    congruence.
Qed.

(** One tick, seen from a scheduled task: it is started when the cursor is
    on its bucket and its cycle is used up; otherwise it stays scheduled,
    with one cycle less when the cursor was on its bucket. *)
Lemma tick_follows t e te :
  wheel_inv t → wheel_ok t → scheduled t e te →
  ∃ t', tick t = Ok t' ∧ wheel_inv t' ∧ wheel_ok t' ∧
    curSlot t' = (curSlot t + 1) `mod` len (slots t) ∧
    len (slots t') = len (slots t) ∧
    if decide (curSlot t = pos te ∧ cycle te ≤ 0) then e ∈ launched t'
    else (e ∉ launched t') ∧
         scheduled t' e (if decide (curSlot t = pos te) then dec_cycle te else te).
Proof.
  intros Hinv Hok Hsch.
  destruct (scheduled_facts t e te Hinv Hok Hsch) as (Hp & Hnl & Hone).
  destruct Hsch as (He & H0 & lp & Hlp & Hinp).
  pose proof Hok as (Hi & [Hc Hmax] & Hrev).
  assert (is_Some (slots t !! Z.to_nat (curSlot t))) as [l Hl].
  { apply lookup_lt_is_Some. unfold len in Hc. lia. }
  destruct (tick_unfold t l Hinv (conj Hc Hmax) Hl)
    as (t1 & _ & Ht & _ & Hsl & Hla & Hel & _).
  rewrite Ht. eexists. split; [done|].
  assert (wheel_inv (set_curSlot ((curSlot t + 1) `mod` len (slots t)) t1))
    as Hinv'.
  { pose proof (tick_inv t Hinv) as H. by rewrite Ht in H. }
  assert (wheel_ok (set_curSlot ((curSlot t + 1) `mod` len (slots t)) t1))
    as Hok'.
  { by apply (handle_wheel_ok Tick t (Ok _) Hinv Hok); simpl; rewrite Ht. }
  simpl. split_and!; try done; [unfold len; by rewrite Hsl, length_alter|].
  unfold scheduled. simpl. rewrite Hla, Hsl, Hel.
  destruct (decide (curSlot t = pos te)) as [Heq|Hne].
  - assert (l = lp) as -> by (rewrite Heq in Hl; congruence).
    destruct (decide (cycle te ≤ 0)) as [Hcy|Hcy].
    + rewrite decide_True by done.
      assert (due t e) as Hd by (rewrite due_iff; eauto).
      rewrite elem_of_app, list_elem_of_filter. tauto.
    + rewrite decide_False by tauto.
      assert (¬ due t e) as Hnd.
      { rewrite due_iff. intros (te' & He' & ?).
        assert (te' = te) as -> by congruence. lia. }
      split; [rewrite elem_of_app, list_elem_of_filter; tauto|].
      rewrite decide_True by done. rewrite He. simpl.
      split_and!; [done|done|]. rewrite <- Heq, list_lookup_alter_eq, Hl. simpl.
      eexists. split; [done|]. apply list_elem_of_filter.
      split; [|done]. unfold keeps. tauto.
  - rewrite decide_False by tauto.
    assert (e ∉ l) as Hnin.
    { intros Hin. apply Hne. rewrite <- (Hone _ _ Hl Hin). lia. }
    split; [rewrite elem_of_app, list_elem_of_filter; tauto|].
    rewrite decide_False by (unfold waits; tauto).
    split_and!; [done|done|]. exists lp. split; [|done].
    rewrite list_lookup_alter_ne by lia. done.
Qed.

Lemma ticks_S n t t' : tick t = Ok t' → ticks (S n) t = ticks n t'.
Proof. intros Ht. unfold ticks. simpl. by rewrite Ht. Qed.

Lemma task_fires_after n :
  ∀ t e te, wheel_inv t → wheel_ok t → scheduled t e te →
    ticks_to_fire t te = n →
    (∀ k, (k < n)%nat → e ∉ launched (ticks k t)) ∧ e ∈ launched (ticks n t).
Proof.
  induction n as [|n IH]; intros t e te Hinv Hok Hsch HT.
  { exfalso. unfold ticks_to_fire in HT. destruct Hok as (_ & [Hc _] & _).
    pose proof (Z.mod_pos_bound (pos te - curSlot t) (len (slots t))). nia. }
  destruct (scheduled_facts t e te Hinv Hok Hsch) as (Hp & Hnl & _).
  destruct (tick_follows t e te Hinv Hok Hsch)
    as (t' & Ht & Hinv' & Hok' & Hc' & Hlen & Hcase).
  pose proof Hok as (_ & [Hc _] & _).
  set (N := len (slots t)) in *. set (s := curSlot t) in *. set (p := pos te) in *.
  assert ((p - curSlot t') `mod` N = (p - s - 1) `mod` N) as Hmod.
  { rewrite Hc', Zminus_mod_idemp_r. f_equal. lia. }
  assert (Z.of_nat (S n) = (p - s) `mod` N + Z.max 0 (cycle te) * N + 1) as HT'.
  { unfold ticks_to_fire in HT. fold N s p in HT.
    pose proof (Z.mod_pos_bound (p - s) N). nia. }
  destruct (decide (s = p ∧ cycle te ≤ 0)) as [[Hsp Hcy]|Hnf].
  - assert (n = 0%nat) as ->.
    { rewrite Hsp, Z.sub_diag, Z.mod_0_l, Z.max_l in HT' by lia. lia. }
    split.
    + intros k Hk. assert (k = 0%nat) as -> by lia. done.
    + by rewrite (ticks_S 0 t t' Ht).
  - destruct Hcase as [Hnl' Hsch'].
    assert (ticks_to_fire t' (if decide (s = p) then dec_cycle te else te) = n)
      as HT''.
    { unfold ticks_to_fire. rewrite Hlen. fold N.
      destruct (decide (s = p)) as [Hsp|Hsp]; simpl; fold p; rewrite Hmod.
      - assert (0 < cycle te) by lia.
        rewrite Hsp, Z.sub_diag, Z.mod_0_l, Z.max_r in HT' by lia.
        replace (p - s - 1) with (-1) by lia.
        rewrite mod_minus_N, Z.max_r by lia. lia.
      - destruct (decide (s < p)).
        + rewrite Z.mod_small in HT' by lia. rewrite Z.mod_small by lia. lia.
        + rewrite mod_minus_N in HT' by lia. rewrite mod_minus_N by lia. lia. }
    destruct (IH t' e _ Hinv' Hok' Hsch' HT'') as [Hbefore Hfire].
    split.
    + intros [|k] Hk; [done|]. rewrite (ticks_S k t t' Ht). apply Hbefore. lia.
    + by rewrite (ticks_S n t t' Ht).
Qed.

(** X4.  A scheduled task with position [p] and cycle [c] on a wheel of
    [N] slots with the cursor at [s] is started by tick number
    [(p - s) mod N + max(0, c) * N + 1] counted from now, and by no earlier
    tick: the cursor has to reach the bucket, then the bucket is passed
    once for each remaining cycle before the scan that starts the task. *)
Theorem task_fires_on_schedule t e te :
  wheel_inv t → wheel_ok t → scheduled t e te →
  (∀ k, (k < ticks_to_fire t te)%nat → e ∉ launched (ticks k t)) ∧
  (e ∈ launched (ticks (ticks_to_fire t te) t)).
Proof. intros. by eapply task_fires_after. Qed.

Lemma wheel_ab_ok : wheel_ok wheel_ab.
Proof. by vm_compute. Qed.

(** The task b of [wheel_ab], in the bucket under the cursor with two
    cycles to wait, is started by the 21st tick and not before. *)
Lemma task_fires_on_schedule_witness :
  ticks_to_fire wheel_ab (mkTask 2%nat 0 2 "b") = 21%nat ∧
  (1%nat ∉ launched (ticks 20 wheel_ab)) ∧ (1%nat ∈ launched (ticks 21 wheel_ab)).
Proof.
  destruct (task_fires_on_schedule wheel_ab 1%nat (mkTask 2%nat 0 2 "b"))
    as [Hbefore Hfire].
  - exact wheel_ab_inv.
  - exact wheel_ab_ok.
  - split; [reflexivity|]. split; [simpl; lia|]. exists [0; 1]%nat.
    split; [reflexivity|set_solver].
  - split; [reflexivity|]. split; [apply Hbefore; vm_compute; lia|exact Hfire].
Defined.

Lemma addTask_cursor t te t' :
  wheel_inv t → addTask t te = Ok t' → curSlot t' = curSlot t.
Proof.
  intros Hinv. unfold addTask. destruct (slot_at t (pos te)); [|done].
  destruct (removeTask_facts t (key te) Hinv)
    as (t1 & Hrm & _ & _ & _ & _ & _ & Hc1 & _).
  assert (match taskMap t !! key te with
          | Some _ => removeTask t (key te) | None => Ok t end = Ok t1) as ->.
  { destruct (taskMap t !! key te) eqn:Hk; [done|].
    unfold removeTask in Hrm. by rewrite Hk in Hrm. }
  by intros [= <-].
Qed.

(** What the loop schedules when it hands to [addTask], in the state [t'],
    the task that [AddTask] built from the cursor of the state [t], for a
    position that is a valid index. *)
Lemma AddTask_then_addTask t t' k f delay :
  wheel_ok t → wheel_inv t' → wheel_ok t' →
  len (slots t') = len (slots t) → is_int delay →
  0 ≤ curSlot t + delay ÷ interval t ≤ int_max →
  ∃ te t1, AddTask t k f delay = Some te ∧ addTask t' te = Ok t1 ∧
    pos te = (curSlot t + delay ÷ interval t) `mod` len (slots t) ∧
    cycle te = delay ÷ (interval t * len (slots t)) ∧
    wheel_inv t1 ∧ wheel_ok t1 ∧ scheduled t1 (nextElem t') te ∧
    curSlot t1 = curSlot t' ∧ len (slots t1) = len (slots t).
Proof.
  intros Hok Hinv' Hok' Hlen Hd [Hsum0 Hsum].
  pose proof Hok as (Hi & [Hc Hmax] & Hrev).
  set (te := mkTask f (Z.rem (curSlot t + delay ÷ interval t) (len (slots t)))
                    (delay ÷ (interval t * len (slots t))) k).
  assert (AddTask t k f delay = Some te) as HAdd.
  { unfold AddTask. by rewrite getPosAndCircle_exact. }
  assert (pos te = (curSlot t + delay ÷ interval t) `mod` len (slots t)) as Hp.
  { simpl. apply Z.rem_mod_nonneg; lia. }
  assert (cycle te = delay ÷ (interval t * len (slots t))) as Hcy by done.
  clearbody te.
  assert (0 ≤ pos te < len (slots t')) as Hr.
  { rewrite Hp, Hlen. apply Z.mod_pos_bound. lia. }
  destruct (addTask t' te) as [t1|t1] eqn:Hadd; last first.
  { apply (addTask_is_ok t' te Hinv') in Hr. by rewrite Hadd in Hr. }
  exists te, t1. split_and!; try done.
  - pose proof (addTask_inv t' te Hinv') as H. by rewrite Hadd in H.
  - by apply (handle_wheel_ok (AddReq te) t' (Ok t1) Hinv' Hok'); simpl;
      rewrite Hadd.
  - destruct (addTask_Ok_facts _ _ _ Hinv' Hadd) as (_ & _ & _ & He & Hl & _).
    split_and!; [rewrite He; apply lookup_insert_eq|lia|done].
  - by eapply addTask_cursor.
  - destruct (handle_shape (AddReq te) t' (Ok t1) Hinv') as [_ Hl];
      [simpl; by rewrite Hadd|]. unfold len in *. simpl in Hl. rewrite Hl. done.
Qed.

(** The wheel after the loop has handled [evs] is the same wheel: well
    formed, with the same number of slots. *)
Lemma run_same_wheel evs t :
  wheel_inv t → wheel_ok t →
  wheel_inv (run evs t) ∧ wheel_ok (run evs t) ∧
  len (slots (run evs t)) = len (slots t).
Proof.
  intros Hinv Hok. split_and!.
  - by apply run_inv.
  - by apply run_wheel_ok.
  - destruct (run_shape evs t Hinv) as [_ Hl]. unfold len. by rewrite Hl.
Qed.

(** X5.  [AddTask] computes the position and the cycle of a task in the
    caller, from the cursor it reads there; the control loop links the task
    when it receives the request, and may have handled other events [evs],
    ticks among them, in between.  For a delay [d ≥ 0] of
    [Q = d / interval] ticks on a wheel of [N] slots, and a cursor that has
    advanced by [a] slots (mod [N]) when the request is handled, the task is
    started by tick number [(Q - a) mod N + (Q / N) * N + 1] after the add
    and by no earlier tick.  That is [Q - a + 1], in time, when
    [a ≤ Q mod N]; it is a whole revolution late, [Q - a + N + 1], when the
    cursor has passed the bucket ([a > Q mod N]); and it is [Q + 1] when
    the request is handled before any other event. *)
Theorem AddTask_fires_after_delay t evs k f delay :
  wheel_inv t → wheel_ok t → 0 ≤ delay → is_int delay →
  curSlot t + delay ÷ interval t ≤ int_max →
  let t' := run evs t in
  let N := len (slots t) in
  let Q := delay ÷ interval t in
  let a := (curSlot t' - curSlot t) `mod` N in
  let T := Z.to_nat ((Q - a) `mod` N + Q `div` N * N + 1) in
  ∃ te t1, AddTask t k f delay = Some te ∧ addTask t' te = Ok t1 ∧
    (∀ n, (n < T)%nat → nextElem t' ∉ launched (ticks n t1)) ∧
    (nextElem t' ∈ launched (ticks T t1)) ∧
    (a ≤ Q `mod` N → Z.of_nat T = Q - a + 1) ∧
    (Q `mod` N < a → Z.of_nat T = Q - a + N + 1) ∧
    (evs = [] → T = S (Z.to_nat Q)).
Proof.
  intros Hinv Hok H0 Hd Hsum t' N Q a T.
  pose proof Hok as (Hi & [Hc Hmax] & Hrev).
  destruct (run_same_wheel evs t Hinv Hok) as (Hinv' & Hok' & Hlen).
  fold t' in Hinv', Hok', Hlen. fold N in Hlen, Hc, Hmax, Hrev.
  assert (0 ≤ Q) as HQ by (apply Z.quot_pos; lia).
  destruct (AddTask_then_addTask t t' k f delay Hok Hinv' Hok' Hlen Hd
              ltac:(fold Q; lia))
    as (te & t1 & HAdd & Hadd & Hp & Hcy & Hinv1 & Hok1 & Hsch & Hc1 & Hl1).
  fold N Q in Hp, Hcy, Hl1.
  assert (0 < N) as HN by lia.
  assert (0 ≤ a < N) as Ha by (apply Z.mod_pos_bound; lia).
  assert (ticks_to_fire t1 te = T) as HT.
  { unfold ticks_to_fire, T. rewrite Hc1, Hl1, Hp, Hcy. f_equal.
    rewrite Zminus_mod_idemp_l. unfold a. rewrite Zminus_mod_idemp_r.
    replace (curSlot t + Q - curSlot t') with (Q - (curSlot t' - curSlot t))
      by lia.
    rewrite <- Z.quot_quot by lia. fold Q.
    rewrite Z.quot_div_nonneg by lia.
    assert (0 ≤ Q `div` N) by (apply Z.div_pos; lia).
    rewrite Z.max_r by lia. done. }
  destruct (task_fires_after _ t1 (nextElem t') te Hinv1 Hok1 Hsch eq_refl)
    as [Hbefore Hfire].
  rewrite HT in Hbefore, Hfire.
  assert (0 ≤ Q `div` N * N) as Hrev0.
  { apply Z.mul_nonneg_nonneg; [apply Z.div_pos|]; lia. }
  assert (a ≤ Q `mod` N → Z.of_nat T = Q - a + 1) as Hintime.
  { intros Hle. unfold T.
    assert ((Q - a) `mod` N = Q `mod` N - a) as ->.
    { symmetry. apply (Z.mod_unique _ _ (Q `div` N)).
      - pose proof (Z.mod_pos_bound Q N HN). lia.
      - pose proof (Z.div_mod Q N ltac:(lia)). lia. }
    pose proof (Z.div_mod Q N ltac:(lia)).
    pose proof (Z.mod_pos_bound Q N HN). lia. }
  exists te, t1. split_and!; try done.
  - intros Hgt. unfold T.
    assert ((Q - a) `mod` N = Q `mod` N - a + N) as ->.
    { symmetry. apply (Z.mod_unique _ _ (Q `div` N - 1)).
      - pose proof (Z.mod_pos_bound Q N HN). lia.
      - pose proof (Z.div_mod Q N ltac:(lia)). lia. }
    pose proof (Z.div_mod Q N ltac:(lia)).
    pose proof (Z.mod_pos_bound Q N HN). lia.
  - intros ->. assert (a = 0) as Ha0.
    { unfold a, t'. simpl. by rewrite Z.sub_diag, Z.mod_0_l by lia. }
    pose proof (Z.mod_pos_bound Q N HN).
    specialize (Hintime ltac:(lia)). lia.
Qed.

(** On the 10-slot, 100 ms wheel a task that is due now is started by the
    next tick when the loop handles the request at once, and only by the
    tenth tick when one tick comes in between; a delay of 5.3 s is started
    by tick 54. *)
Lemma AddTask_fires_after_delay_witness :
  (∃ te t1, AddTask wheel0 "j" 7%nat 0 = Some te ∧
     addTask (run [Tick] wheel0) te = Ok t1 ∧
     (0%nat ∉ launched (ticks 9 t1)) ∧ (0%nat ∈ launched (ticks 10 t1))) ∧
  (∃ te t1, AddTask wheel0 "j" 7%nat 0 = Some te ∧
     addTask wheel0 te = Ok t1 ∧ (0%nat ∈ launched (ticks 1 t1))) ∧
  (∃ te t1, AddTask wheel_k "j" 7%nat 5300000000 = Some te ∧
     addTask wheel_k te = Ok t1 ∧
     (1%nat ∉ launched (ticks 53 t1)) ∧ (1%nat ∈ launched (ticks 54 t1))).
Proof.
  split_and!.
  - destruct (AddTask_fires_after_delay wheel0 [Tick] "j" 7%nat 0)
      as (te & t1 & HAdd & Hadd & Hbefore & Hfire & _).
    + apply NewTimeWheel_inv.
    + exact wheel0_ok.
    + lia.
    + by vm_compute.
    + by vm_compute.
    + exists te, t1. split_and!; [exact HAdd|exact Hadd| |exact Hfire].
      apply Hbefore. vm_compute. lia.
  - destruct (AddTask_fires_after_delay wheel0 [] "j" 7%nat 0)
      as (te & t1 & HAdd & Hadd & _ & Hfire & _).
    + apply NewTimeWheel_inv.
    + exact wheel0_ok.
    + lia.
    + by vm_compute.
    + by vm_compute.
    + exists te, t1. split_and!; [exact HAdd|exact Hadd|exact Hfire].
  - destruct (AddTask_fires_after_delay wheel_k [] "j" 7%nat 5300000000)
      as (te & t1 & HAdd & Hadd & Hbefore & Hfire & _).
    + exact wheel_k_inv.
    + by vm_compute.
    + lia.
    + by vm_compute.
    + by vm_compute.
    + exists te, t1. split_and!; [exact HAdd|exact Hadd| |exact Hfire].
      apply Hbefore. vm_compute. lia.
Defined.



Lemma circleIncr_launched t : launched (state_of (circleIncr t)) = launched t.
Proof. unfold circleIncr. by destruct (int_rem _ _). Qed.

Lemma handle_launched ev t r :
  wheel_inv t → NoDup (launched t) → handle ev t = Some r →
  NoDup (launched (state_of r)) ∧ launched t `prefix_of` launched (state_of r).
Proof.
  intros Hinv Hnd Hh. destruct ev; simpl in Hh; try done; injection Hh as <-.
  - (* tick *)
    unfold tick. destruct (slot_at t (curSlot t)) as [l|] eqn:Hsl; [|done].
    apply slot_at_Some in Hsl as [H0 Hsl].
    pose proof Hinv as (_ & _ & Hn & _ & Hla).
    destruct (execute_spec (Z.to_nat (curSlot t)) l t l)
      as (t1 & -> & _ & _ & Hl1 & _); [done|done|done|by eapply Hn|].
    rewrite circleIncr_launched, Hl1. split; [|by eexists].
    apply NoDup_app. split_and!; [done| |by apply NoDup_filter, (Hn _ _ Hsl)].
    intros x Hx [_ Hin]%list_elem_of_filter.
    destruct (Hla _ Hx) as [_ Hu]. by apply (Hu _ _ Hsl).
  - (* addTask *)
    destruct (addTask t te) as [t'|t'] eqn:Hadd; simpl.
    + destruct (addTask_Ok_facts _ _ _ Hinv Hadd) as (-> & _). done.
    + by rewrite (addTask_Panic _ _ _ Hadd Hinv).
  - (* removeTask *)
    destruct (removeTask_facts t k Hinv)
      as (t' & -> & _ & _ & _ & _ & Hl' & _). simpl. by rewrite Hl'.
Qed.

(** X7.  No registration is started twice.  The control loop only ever
    appends to the list of started tasks, and whatever it receives, the
    tasks it has started are pairwise distinct registrations, each of them
    made by an earlier add. *)
Theorem no_task_starts_twice evs :
  ∀ t, wheel_inv t → NoDup (launched t) →
    NoDup (launched (run evs t)) ∧
    launched t `prefix_of` launched (run evs t) ∧
    ∀ e, e ∈ launched (run evs t) →
      (e < nextElem (run evs t))%nat ∧ unlinked (run evs t) e.
Proof.
  intros t Hinv Hnd.
  assert (NoDup (launched (run evs t)) ∧
          launched t `prefix_of` launched (run evs t)) as [Hnd' Hpre].
  { revert t Hinv Hnd. induction evs as [|ev evs IH]; intros t Hinv Hnd; [done|].
    simpl. destruct (handle ev t) as [r|] eqn:Hh; [|done].
    destruct (handle_launched _ _ _ Hinv Hnd Hh) as [Hnd1 Hpre1].
    pose proof (handle_inv _ _ _ Hinv Hh) as Hinv1.
    destruct r as [t'|t']; simpl in *; [|done].
    destruct (IH t' Hinv1 Hnd1) as [Hnd2 Hpre2].
    split; [done|]. by etrans. }
  split_and!; try done.
  intros e He. destruct (run_inv evs t Hinv) as (_ & _ & _ & Hst & Hla).
  destruct (Hla _ He) as [Hsome Hu]. split; [by apply Hst|done].
Qed.

Lemma no_task_starts_twice_witness :
  NoDup (launched (run (replicate 25 Tick) wheel_ab)).
Proof.
  destruct (no_task_starts_twice (replicate 25 Tick) wheel_ab) as (Hnd & _).
  - exact wheel_ab_inv.
  - vm_compute. constructor.
  - exact Hnd.
Defined.

(** ** More on the pool *)

Lemma foldl_apply_option_called options :
  ∀ p, called (foldl apply_option p options) = called p.
Proof.
  induction options as [|o os IH]; intros p; [done|].
  simpl. rewrite IH. by destruct o.
Qed.

(** X8.  [NewGoroutinePool] panics exactly when the configured queue
    capacity or the configured floor is negative.  Otherwise the pool starts
    with as many workers as the floor (which is [maxWorkers] unless
    [WithMinWorkers] is given), all of them idle, indices [0 .. n-1] on the
    idle stack, an empty queue, and [Wait] would return at once. *)
Theorem NewGoroutinePool_starts_idle m options :
  (NewGoroutinePool m options = None ↔
     configured_queue_size options < 0 ∨ configured_min m options < 0) ∧
  (Forall (λ opt, ∀ n, opt ≠ WithMinWorkers n) options →
     configured_min m options = m) ∧
  ∀ pool, NewGoroutinePool m options = Some pool →
    GetWorkers pool = configured_min m options ∧ GetRunning pool = 0 ∧
    workerStack pool = initial_stack (length (workers pool)) ∧
    (∀ w, w ∈ workers pool → worker_taskQueue w = []) ∧
    taskQueue pool = [] ∧ called pool = [] ∧ Wait_returns pool = true.
Proof.
  split_and!.
  - unfold NewGoroutinePool.
    set (p0 := mkPool _ _ _ _ _ _ _ _ _ _ _ _ _).
    destruct (foldl_apply_option_fields options p0) as (Hs & Hm & _).
    fold (configured_queue_size options) in Hs.
    change (minWorkers p0) with m in Hm. fold (configured_min m options) in Hm.
    rewrite Hs, Hm. repeat case_decide; split; try done; try tauto; lia.
  - intros Hnone. unfold configured_min. generalize m.
    induction Hnone as [|opt opts Ho _ IH]; intros z; [done|].
    simpl. rewrite IH. destruct opt as [|n| | | |]; try done.
    by destruct (Ho n).
  - intros pool Hnew.
    destruct (NewGoroutinePool_facts _ _ _ Hnew)
      as (_ & Hmin & _ & Hq & _ & Hm0 & Hws & Hstk & _ & _).
    assert (length (workers pool) = Z.to_nat (minWorkers pool)) as Hlen.
    { rewrite Hws. unfold initial_workers. by rewrite length_fmap, length_seq. }
    assert (len (workerStack pool) = len (workers pool)) as Hidle.
    { unfold len. rewrite Hstk, Hlen. unfold initial_stack.
      by rewrite length_fmap, length_seq. }
    unfold GetWorkers, GetRunning, Wait_returns, int_sub.
    rewrite Hidle, Z.sub_diag. split_and!.
    + unfold len. rewrite Hlen. lia.
    + done.
    + by rewrite Hlen.
    + intros w. rewrite Hws. unfold initial_workers.
      by intros (k & -> & _)%list_elem_of_fmap.
    + done.
    + pose proof (foldl_apply_option_called options) as Hcalled.
      revert Hnew. unfold NewGoroutinePool.
      repeat case_decide; [done|done|]. intros [= <-]. simpl. by rewrite Hcalled.
    + apply bool_decide_eq_true. rewrite Hq. done.
Qed.

(** X9.  The idle stack is last in, first out: [popWorker] after
    [pushWorker] gives back the pushed index and the pool as it was, and
    [pushWorker] of a popped index restores the pool.  [popWorker] panics
    exactly on an empty stack. *)
Theorem popWorker_pushWorker p i :
  popWorker (pushWorker i p) = Some (i, p) ∧
  (popWorker p = None ↔ workerStack p = []) ∧
  (∀ j p', popWorker p = Some (j, p') →
     workerStack p = workerStack p' ++ [j] ∧ pushWorker j p' = p).
Proof.
  destruct p as [ws st mx mn q cap rc tout rcb ecb d sp cl].
  unfold popWorker, pushWorker. simpl. split_and!.
  - rewrite last_snoc, length_app. simpl.
    replace (length st + 1 - 1)%nat with (length st) by lia.
    by rewrite take_app_length.
  - destruct (last st) eqn:Hl.
    + split; [done|]. intros ->. done.
    + split; [|done]. intros _. by apply last_None.
  - intros j p'. destruct (last st) as [x|] eqn:Hl; [|done].
    intros [= <- <-]. apply last_Some in Hl as [st' ->]. simpl.
    rewrite length_app. simpl.
    replace (length st' + 1 - 1)%nat with (length st') by lia.
    by rewrite take_app_length.
Qed.

Lemma add_workers_closed n :
  ∀ p, len (workers p) + Z.of_nat n ≤ int_max →
    workers (add_workers n p) =
      workers p ++ (newWorker <$> seq (spawned p) n) ∧
    workerStack (add_workers n p) =
      workerStack p ++ (Z.of_nat <$> seq (length (workers p)) n) ∧
    spawned (add_workers n p) = (spawned p + n)%nat.
Proof.
  induction n as [|n IH]; intros p Hfit; simpl.
  { rewrite !app_nil_r. split_and!; [done|done|lia]. }
  assert (int_sub (len (workers p ++ [newWorker (spawned p)])) 1 = len (workers p))
    as Hidx.
  { unfold int_sub, len in *. rewrite length_app. simpl.
    rewrite wrap_id; [lia|]. unfold is_int, int_min, int_max in *. lia. }
  destruct (IH (add_worker p)) as (Hw & Hs & Hsp).
  { unfold add_worker, len in *. simpl. rewrite length_app. simpl. lia. }
  rewrite Hw, Hs, Hsp. unfold add_worker. simpl. rewrite Hidx, length_app. simpl.
  rewrite <- !app_assoc. simpl.
  replace (length (workers p) + 1)%nat with (S (length (workers p))) by lia.
  split_and!; [done|done|lia].
Qed.

(** X10.  When the queue holds more tasks than three quarters of the worker
    count and the worker count is below [maxWorkers], one step of the
    scaling loop brings the worker count to [min(2 * n, maxWorkers)]: the
    new workers are appended to the list, with empty mailboxes, and their
    indices are pushed on the idle stack in rising order; the old workers,
    the old stack entries and the queue are untouched. *)
Theorem adjustWorkers_scale_up p :
  pool_inv p →
  len (taskQueue p) > len (workers p) * 3 ÷ 4 →
  len (workers p) < maxWorkers p →
  ∃ p' k,
    adjustWorkers p = Some p' ∧
    Z.of_nat k = Z.min (len (workers p) * 2) (maxWorkers p) - len (workers p) ∧
    workers p' = workers p ++ (newWorker <$> seq (spawned p) k) ∧
    workerStack p' = workerStack p ++ (Z.of_nat <$> seq (length (workers p)) k) ∧
    len (workers p') = Z.min (len (workers p) * 2) (maxWorkers p) ∧
    taskQueue p' = taskQueue p ∧ same_config p p' ∧ pool_inv p'.
Proof.
  intros Hinv Hq Hlt.
  pose proof Hinv as (Hst & Hbusy & Hcr & (Hm0 & [Hmb1 Hmb2] & Hdb)).
  set (n := len (workers p)) in *.
  assert (0 ≤ n) by (unfold n, len; lia).
  set (k := Z.to_nat (Z.min (n * 2) (maxWorkers p) - n)).
  assert (adjustWorkers p = Some (add_workers k p)) as Hadj.
  { unfold adjustWorkers. fold n. unfold int_mul, int_sub, int_max in *.
    rewrite (wrap_id (n * 3)) by (unfold is_int, int_min, int_max; lia).
    rewrite int_quo_exact by (unfold is_int, int_min, int_max; lia).
    rewrite decide_True by done.
    rewrite (wrap_id (n * 2)) by (unfold is_int, int_min, int_max; lia).
    rewrite wrap_id by (unfold is_int, int_min, int_max; lia). done. }
  destruct (add_workers_closed k p) as (Hw & Hs & _).
  { fold n. unfold k, int_max in *. lia. }
  destruct (add_workers_facts k p) as (Hc & Hqueue & Hlen).
  exists (add_workers k p), k. split_and!; try done.
  - unfold k. lia.
  - subst n k. unfold len in *. rewrite Hlen. lia.
  - by eapply adjustWorkers_inv.
Qed.

Lemma scale_up_pool_inv :
  pool_inv (mkPool [mkWorker 0 []] [0] 4 1 [nilTask; nilTask] 1000000 0 0
                   None None Receiving 1%nat []).
Proof.
  assert (pool_inv (mkPool [mkWorker 0 []] [0] 4 1 [] 1000000 0 0 None None
                           Receiving 1%nat [])) as Hinv0.
  { eapply (NewGoroutinePool_inv 4 [WithMinWorkers 1]);
      [reflexivity|by vm_compute|by vm_compute]. }
  eapply (pool_run_inv [EvSubmit nilTask; EvSubmit nilTask] _ _ Hinv0).
  vm_compute. reflexivity.
Qed.

Lemma adjustWorkers_scale_up_witness :
  ∃ p', adjustWorkers
          (mkPool [mkWorker 0 []] [0] 4 1 [nilTask; nilTask] 1000000 0 0
                  None None Receiving 1%nat []) = Some p' ∧
        workers p' = [mkWorker 0 []; mkWorker 1 []] ∧ workerStack p' = [0; 1].
Proof.
  destruct (adjustWorkers_scale_up
              (mkPool [mkWorker 0 []] [0] 4 1 [nilTask; nilTask] 1000000 0 0
                      None None Receiving 1%nat []))
    as (p' & k & Hadj & Hk & Hw & Hs & _).
  - exact scale_up_pool_inv.
  - by vm_compute.
  - by vm_compute.
  - assert (k = 1%nat) as -> by (change (Z.of_nat k = 1) in Hk; lia).
    exists p'. split_and!; [exact Hadj|exact Hw|exact Hs].
Defined.

(** X11.  In a pool that satisfies the invariant the idle stack is never
    longer than the worker list, so [GetRunning], the difference of their
    lengths, does not wrap around: it lies between 0 and [GetWorkers], and
    it is 0 exactly when every worker index is on the idle stack. *)
Theorem GetRunning_counts_busy_workers p :
  pool_inv p →
  GetRunning p = len (workers p) - len (workerStack p) ∧
  0 ≤ GetRunning p ≤ GetWorkers p ∧
  (GetRunning p = 0 ↔ ∀ i, 0 ≤ i < len (workers p) → i ∈ workerStack p).
Proof.
  intros ((Hnd & Hrange) & _ & _ & (Hm0 & [Hmb1 Hmb2] & Hdb)).
  assert (workerStack p ⊆+ initial_stack (length (workers p))) as Hsub.
  { apply NoDup_submseteq; [done|]. intros x Hx.
    apply initial_stack_elem. apply Hrange in Hx. unfold len in Hx. lia. }
  assert (length (initial_stack (length (workers p))) = length (workers p))
    as Hlen by (unfold initial_stack; by rewrite length_fmap, length_seq).
  pose proof (submseteq_length _ _ Hsub) as Hle. rewrite Hlen in Hle.
  assert (GetRunning p = len (workers p) - len (workerStack p)) as Hrun.
  { unfold GetRunning, int_sub. apply wrap_id.
    unfold is_int, int_min, int_max, len in *. lia. }
  rewrite Hrun. unfold GetWorkers, len. split_and!; try lia.
  split.
  - intros Hzero i Hi.
    assert (workerStack p ≡ₚ initial_stack (length (workers p))) as Hperm.
    { apply submseteq_length_Permutation; [done|]. rewrite Hlen. lia. }
    rewrite Hperm. apply initial_stack_elem. unfold len in Hi. lia.
  - intros Hall.
    assert (initial_stack (length (workers p)) ⊆+ workerStack p) as Hsup.
    { apply NoDup_submseteq; [apply initial_stack_NoDup|]. intros x Hx.
      apply Hall. apply initial_stack_elem in Hx. unfold len. lia. }
    apply submseteq_length in Hsup. rewrite Hlen in Hsup. lia.
Qed.

Lemma GetRunning_counts_busy_workers_witness :
  GetRunning (mkPool [mkWorker 0 []] [0] 4 1 [nilTask; nilTask] 1000000 0 0
                     None None Receiving 1%nat []) = 0.
Proof.
  destruct (GetRunning_counts_busy_workers
              (mkPool [mkWorker 0 []] [0] 4 1 [nilTask; nilTask] 1000000 0 0
                      None None Receiving 1%nat []) scale_up_pool_inv)
    as (Hrun & _).
  exact Hrun.
Defined.

(** ** More on the worker *)

Lemma executeTask_loop_first_success body pool sched :
  timeout pool ≤ 0 →
  ∀ d fuel i, 0 ≤ i → Z.of_nat fuel = retryCount pool + 1 - i →
    i + Z.of_nat d ≤ retryCount pool →
    (∀ k, (k < d)%nat → (body (Z.to_nat i + k)%nat).2 ≠ None) →
    (body (Z.to_nat i + d)%nat).2 = None →
    executeTask_loop fuel i body pool sched =
      (executeTaskWithoutTimeout body (Z.to_nat i + d)%nat,
       executeTaskWithoutTimeout body <$> seq (Z.to_nat i) (S d)).
Proof.
  intros Ht. induction d as [|d IH]; intros fuel i Hi Hf Hd Hfail Hok.
  - destruct fuel as [|fuel]; [lia|]. simpl.
    rewrite decide_True by lia. rewrite decide_False by lia.
    unfold executeTaskWithoutTimeout at 1. rewrite Nat.add_0_r in *.
    rewrite decide_True by (by left). done.
  - destruct fuel as [|fuel]; [lia|]. simpl.
    rewrite decide_True by lia. rewrite decide_False by lia.
    unfold executeTaskWithoutTimeout at 1.
    rewrite decide_False.
    2:{ intros [Hnone|Hlast]; [|lia].
        apply (Hfail 0%nat); [lia|]. by rewrite Nat.add_0_r. }
    rewrite (IH fuel (i + 1)); try lia.
    + simpl. replace (Z.to_nat (i + 1)) with (S (Z.to_nat i)) by lia.
      replace (S (Z.to_nat i) + d)%nat with (Z.to_nat i + S d)%nat by lia. done.
    + intros k Hk. replace (Z.to_nat (i + 1) + k)%nat with (Z.to_nat i + S k)%nat by lia.
      apply Hfail. lia.
    + replace (Z.to_nat (i + 1) + d)%nat with (Z.to_nat i + S d)%nat by lia. done.
Qed.

Lemma executeTask_loop_all_fail body pool sched :
  timeout pool ≤ 0 →
  ∀ fuel i, 0 ≤ i → Z.of_nat fuel = retryCount pool + 1 - i → (0 < fuel)%nat →
    (∀ k, (Z.to_nat i ≤ k)%nat → Z.of_nat k ≤ retryCount pool →
          (body k).2 ≠ None) →
    executeTask_loop fuel i body pool sched =
      (executeTaskWithoutTimeout body (Z.to_nat (retryCount pool)),
       executeTaskWithoutTimeout body <$> seq (Z.to_nat i) fuel).
Proof.
  intros Ht. induction fuel as [|fuel IH]; intros i Hi Hf Hpos Hfail; [lia|].
  simpl. rewrite decide_True by lia. rewrite decide_False by lia.
  unfold executeTaskWithoutTimeout at 1.
  destruct (decide (i = retryCount pool)) as [Hlast|Hmore].
  - rewrite decide_True by (by right).
    assert (fuel = 0%nat) as -> by lia. simpl. by rewrite Hlast.
  - rewrite decide_False.
    2:{ intros [Hnone|Hlast]; [|done]. apply (Hfail (Z.to_nat i)); [lia|lia|done]. }
    rewrite (IH (i + 1)); try lia.
    + simpl. by replace (Z.to_nat (i + 1)) with (S (Z.to_nat i)) by lia.
    + intros k Hk1 Hk2. apply Hfail; lia.
Qed.

(** X12.  Without a timeout, and with a retry count that is not negative,
    a worker calls the task again after each failure and stops at the first
    attempt that succeeds: that attempt's result goes to [handleResult]
    with a nil error.  When all [retryCount + 1] attempts fail, the result
    and the error of the last attempt go to [handleResult], which calls the
    error callback if there is one.  In both cases the worker comes back to
    push its index. *)
Theorem worker_outcome_without_timeout pool body sched :
  timeout pool ≤ 0 → 0 ≤ retryCount pool →
  let h := worker_handle (Func body) pool sched in
  let R := Z.to_nat (retryCount pool) in
  finished h = true ∧
  (∀ j, (j ≤ R)%nat →
     (∀ k, (k < j)%nat → (body k).2 ≠ None) → (body j).2 = None →
     attempts h = executeTaskWithoutTimeout body <$> seq 0 (S j) ∧
     callbacks h = handleResult (body j).1 None pool ∧
     err_calls (callbacks h) = 0%nat) ∧
  ((∀ k, (k ≤ R)%nat → (body k).2 ≠ None) →
     attempts h = executeTaskWithoutTimeout body <$> seq 0 (S R) ∧
     callbacks h = handleResult (body R).1 (body R).2 pool ∧
     ∀ cb, errCallback pool = Some cb →
       callbacks h = [ErrCalled cb (body R).2]).
Proof.
  intros Ht HR h R. split_and!.
  - by destruct (worker_retry_no_timeout pool body sched Ht) as (Hfin & _).
  - intros j Hj Hfail Hok. subst h. unfold worker_handle, executeTask.
    rewrite (executeTask_loop_first_success body pool sched Ht j);
      [|lia|lia|lia|done|done].
    unfold executeTaskWithoutTimeout at 1. simpl. rewrite Hok. split_and!; try done.
    rewrite handleResult_cases.
    by destruct (errCallback pool), (resultCallback pool).
  - intros Hfail. subst h. unfold worker_handle, executeTask.
    rewrite (executeTask_loop_all_fail body pool sched Ht); [|lia|lia|lia|].
    2:{ intros k _ Hk. apply Hfail. lia. }
    unfold executeTaskWithoutTimeout at 1. simpl.
    replace (Z.to_nat (retryCount pool + 1)) with (S R) by lia.
    split_and!; try done.
    intros cb Hcb. rewrite handleResult_cases, Hcb.
    specialize (Hfail R (Nat.le_refl _)). fold R. by destruct (body R).2.
Qed.

Lemma worker_outcome_without_timeout_witness :
  let pool := mkPool [] [] 4 4 [] 1000000 1 0 (Some 7%nat) (Some 9%nat)
                     Receiving 0%nat [] in
  callbacks (worker_handle (Func fails_once) pool prompt) =
    [ResultCalled 7%nat (Some 42%nat)] ∧
  callbacks (worker_handle (Func always_fails) pool prompt) =
    [ErrCalled 9%nat (Some "boom")].
Proof.
  intros pool. split.
  - destruct (worker_outcome_without_timeout pool fails_once prompt)
      as (_ & Hok & _); [by vm_compute|by vm_compute|].
    destruct (Hok 1%nat) as (_ & Hcb & _).
    + vm_compute. lia.
    + intros k Hk. assert (k = 0%nat) as -> by lia. by vm_compute.
    + by vm_compute.
    + exact Hcb.
  - destruct (worker_outcome_without_timeout pool always_fails prompt)
      as (_ & _ & Hfail); [by vm_compute|by vm_compute|].
    destruct Hfail as (_ & _ & Hcb); [done|].
    exact (Hcb 9%nat eq_refl).
Defined.

Lemma executeTask_loop_first_timely body pool sched :
  timeout pool > 0 →
  ∀ d fuel i, 0 ≤ i → Z.of_nat fuel = retryCount pool + 1 - i →
    i + Z.of_nat d ≤ retryCount pool →
    (∀ k, (k < d)%nat → sched (Z.to_nat i + k)%nat = false) →
    sched (Z.to_nat i + d)%nat = true →
    executeTask_loop fuel i body pool sched =
      (Blocked, replicate d (Returned None timeout_error) ++ [Blocked]).
Proof.
  intros Ht. induction d as [|d IH]; intros fuel i Hi Hf Hd Hlate Hok.
  - destruct fuel as [|fuel]; [lia|]. simpl.
    rewrite decide_True by lia. rewrite decide_True by lia.
    rewrite Nat.add_0_r in Hok. by rewrite Hok.
  - destruct fuel as [|fuel]; [lia|]. simpl.
    rewrite decide_True by lia. rewrite decide_True by lia.
    pose proof (Hlate 0%nat) as H0. rewrite Nat.add_0_r in H0.
    rewrite H0 by lia. simpl.
    rewrite decide_False by (intros [Hnone|Hlast]; [done|lia]).
    rewrite (IH fuel (i + 1)); try lia; [done| |].
    + intros k Hk. replace (Z.to_nat (i + 1) + k)%nat with (Z.to_nat i + S k)%nat by lia.
      apply Hlate. lia.
    + replace (Z.to_nat (i + 1) + d)%nat with (Z.to_nat i + S d)%nat by lia. done.
Qed.

Lemma executeTask_loop_all_late body pool sched :
  timeout pool > 0 →
  ∀ fuel i, 0 ≤ i → Z.of_nat fuel = retryCount pool + 1 - i → (0 < fuel)%nat →
    (∀ k, (Z.to_nat i ≤ k)%nat → Z.of_nat k ≤ retryCount pool →
          sched k = false) →
    executeTask_loop fuel i body pool sched =
      (Returned None timeout_error, replicate fuel (Returned None timeout_error)).
Proof.
  intros Ht. induction fuel as [|fuel IH]; intros i Hi Hf Hpos Hlate; [lia|].
  simpl. rewrite decide_True by lia. rewrite decide_True by lia.
  rewrite (Hlate (Z.to_nat i)) by lia. simpl.
  destruct (decide (i = retryCount pool)) as [Hlast|Hmore].
  - rewrite decide_True by (by right).
    by assert (fuel = 0%nat) as -> by lia.
  - rewrite decide_False by (intros [Hnone|Hlast]; done).
    rewrite (IH (i + 1)); try lia; [done|].
    intros k Hk1 Hk2. apply Hlate; lia.
Qed.

(** X13.  With a timeout configured, the outcome of a task depends only on
    whether its attempts are timely, not on what the task returns.  If
    every one of the [retryCount + 1] attempts misses the deadline, each
    returns the timeout error, the last one goes to [handleResult], and the
    worker comes back.  If attempt [j] is the first timely one, the worker
    makes [j] attempts that time out and then never comes back from attempt
    [j]: no callback is called and its index is not pushed. *)
Theorem worker_outcome_with_timeout pool body sched :
  timeout pool > 0 → 0 ≤ retryCount pool →
  let h := worker_handle (Func body) pool sched in
  let R := Z.to_nat (retryCount pool) in
  ((∀ k, (k ≤ R)%nat → sched k = false) →
     h = mkHandled (replicate (S R) (Returned None timeout_error))
                   (handleResult None timeout_error pool) true) ∧
  (∀ j, (j ≤ R)%nat → (∀ k, (k < j)%nat → sched k = false) → sched j = true →
     h = mkHandled (replicate j (Returned None timeout_error) ++ [Blocked])
                   [] false).
Proof.
  intros Ht HR h R. split.
  - intros Hlate. subst h. unfold worker_handle, executeTask.
    rewrite (executeTask_loop_all_late body pool sched Ht); [|lia|lia|lia|].
    2:{ intros k _ Hk. apply Hlate. lia. }
    by replace (Z.to_nat (retryCount pool + 1)) with (S R) by lia.
  - intros j Hj Hlate Hok. subst h. unfold worker_handle, executeTask.
    by rewrite (executeTask_loop_first_timely body pool sched Ht j);
      [|lia|lia|lia|done|done].
Qed.

Lemma worker_outcome_with_timeout_witness :
  let pool := mkPool [] [] 4 4 [] 1000000 2 1000000000 (Some 7%nat) None
                     Receiving 0%nat [] in
  worker_handle (Func fails_once) pool always_late =
    mkHandled (replicate 3 (Returned None timeout_error))
              [ResultCalled 7%nat None] true ∧
  worker_handle (Func fails_once) pool late_twice =
    mkHandled [Returned None timeout_error; Returned None timeout_error; Blocked]
              [] false.
Proof.
  intros pool.
  destruct (worker_outcome_with_timeout pool fails_once always_late)
    as (Hlate & _); [by vm_compute|by vm_compute|].
  destruct (worker_outcome_with_timeout pool fails_once late_twice)
    as (_ & Htimely); [by vm_compute|by vm_compute|].
  split.
  - apply Hlate. done.
  - apply (Htimely 2%nat).
    + vm_compute. lia.
    + intros k Hk. unfold late_twice. apply bool_decide_eq_false. lia.
    + done.
Defined.

(** X14.  With a negative retry count the loop of [executeTask] makes no
    attempt: the task is never called, [executeTask] returns [nil, nil],
    and the result callback, if there is one, is called with a nil result
    as if the task had succeeded. *)
Theorem worker_negative_retryCount pool body sched :
  retryCount pool < 0 →
  let h := worker_handle (Func body) pool sched in
  attempts h = [] ∧ finished h = true ∧
  callbacks h =
    match resultCallback pool with
    | Some cb => [ResultCalled cb None]
    | None => []
    end.
Proof.
  intros HR h. subst h. unfold worker_handle, executeTask.
  destruct (Z.to_nat (retryCount pool + 1)) as [|fuel] eqn:Hfuel; simpl.
  - done.
  - lia.
Qed.

Lemma worker_negative_retryCount_witness :
  NewGoroutinePool 1 [WithRetryCount (-1); WithResultCallBack (Some 7%nat)]
    = Some no_attempt_pool ∧
  callbacks (worker_handle (Func always_fails) no_attempt_pool prompt) =
    [ResultCalled 7%nat None].
Proof.
  split; [reflexivity|].
  destruct (worker_negative_retryCount no_attempt_pool always_fails prompt)
    as (_ & _ & Hcb); [by vm_compute|].
  exact Hcb.
Defined.

(** ** The pool at work *)

Lemma executeTask_loop_config p p' body sched :
  same_config p p' →
  ∀ fuel i, executeTask_loop fuel i body p' sched =
            executeTask_loop fuel i body p sched.
Proof.
  intros (_ & _ & _ & HR & HT & _). induction fuel as [|fuel IH]; intros i; [done|].
  simpl. rewrite HR, HT. by rewrite IH.
Qed.

Lemma worker_handle_config p p' t sched :
  same_config p p' → worker_handle t p' sched = worker_handle t p sched.
Proof.
  intros Hc. destruct t as [|body]; [done|]. unfold worker_handle, executeTask.
  rewrite (executeTask_loop_config p p') by done.
  destruct Hc as (_ & _ & _ & -> & _ & Hr & He).
  unfold handleResult. by rewrite Hr, He.
Qed.

Lemma full_stack_elem p :
  stack_ok p → len (workerStack p) = len (workers p) →
  ∀ i, 0 ≤ i < len (workers p) → i ∈ workerStack p.
Proof.
  intros Hst Hlen i Hi. pose proof (sort_full_stack p Hst Hlen) as Hsort.
  assert (i ∈ sort_Ints (workerStack p)) as Hin.
  { rewrite Hsort. apply initial_stack_elem. unfold len in Hi. lia. }
  unfold sort_Ints in Hin. by rewrite merge_sort_Permutation in Hin.
Qed.

Lemma full_stack_all_idle p :
  pool_inv p → len (workerStack p) = len (workers p) →
  ∀ (i : nat) w, workers p !! i = Some w → worker_taskQueue w = [].
Proof.
  intros (Hst & (Hb1 & _) & _) Hlen i w Hw.
  destruct (worker_taskQueue w) eqn:Hm; [done|]. exfalso.
  destruct (Hb1 i w Hw) as (Hnotin & _); [by rewrite Hm|].
  apply Hnotin, full_stack_elem; [done|done|].
  apply lookup_lt_Some in Hw. unfold len. lia.
Qed.

(** X15.  One task through an idle pool.  With the queue empty, the
    dispatcher waiting and index [i] on top of the idle stack, the steps
    submit, receive, observe, pop, send and one round of worker [i] hand
    the task to worker [i], the worker that became idle last.  Afterwards
    the queue is empty again, the dispatcher waits again, the mailboxes are
    as before, the callback calls of the task are appended to the log, and
    [i] is back on top of the stack, unless the task never came back, in
    which case [i] stays off the stack. *)
Theorem task_round_trip p t i st sched :
  pool_inv p → dispatching p = Receiving → taskQueue p = [] →
  workerStack p = st ++ [i] →
  let h := worker_handle t p sched in
  ∃ p', pool_run [EvSubmit t; EvReceive; EvObserve; EvPop; EvSend;
                  EvWorker (Z.to_nat i) sched] p = Some p' ∧
    workers p' = workers p ∧ taskQueue p' = [] ∧ dispatching p' = Receiving ∧
    called p' = called p ++ callbacks h ∧
    workerStack p' = (if finished h then st ++ [i] else st) ∧
    spawned p' = spawned p ∧ same_config p p'.
Proof.
  intros Hinv Hd Hq Hst h.
  destruct Hinv as ((Hnd & Hrange) & (Hb1 & Hb2) & _ & _).
  assert (0 ≤ i < len (workers p)) as Hi by (apply Hrange; rewrite Hst; set_solver).
  destruct (lookup_lt_is_Some_2 (workers p) (Z.to_nat i)) as [w Hw];
    [unfold len in Hi; lia|].
  assert (worker_taskQueue w = []) as Hmail.
  { destruct (worker_taskQueue w) eqn:Hm; [done|]. exfalso.
    destruct (Hb1 _ _ Hw) as [Hnotin _]; [by rewrite Hm|].
    apply Hnotin. rewrite Z2Nat.id by lia. rewrite Hst. set_solver. }
  destruct w as [serial mail]. simpl in Hmail. subst mail.
  assert (Z.to_nat i < length (workers p))%nat as Hlt by (unfold len in Hi; lia).
  subst h. clear Hnd Hrange Hb1 Hb2.
  destruct p as [ws stk mx mn q cap rc tout rcb ecb d sp cl]. simpl in *. subst.
  set (p0 := mkPool ws (st ++ [i]) mx mn [] cap rc tout rcb ecb Receiving sp cl).
  assert (dispatch_receive (default p0 (Submit t p0)) =
          mkPool ws (st ++ [i]) mx mn [] cap rc tout rcb ecb (Holding t) sp cl)
    as Hrecv.
  { unfold Submit, dispatch_receive. simpl. by case_decide. }
  cbn [pool_run pool_step]. rewrite Hrecv.
  unfold dispatch_observe. simpl.
  rewrite decide_False by (unfold len; rewrite length_app; simpl; lia).
  unfold dispatch_pop, popWorker. simpl. rewrite last_snoc, length_app. simpl.
  replace (length st + 1 - 1)%nat with (length st) by lia.
  rewrite take_app_length.
  unfold dispatch_send. simpl. rewrite decide_True by lia. rewrite Hw. simpl.
  unfold worker_round. simpl. rewrite list_lookup_insert_eq by done. simpl.
  set (pw := set_dispatching Receiving _).
  rewrite (worker_handle_config p0 pw) by (by repeat split).
  rewrite Z2Nat.id by lia.
  rewrite list_insert_insert_eq, (list_insert_id ws) by exact Hw.
  destruct (finished (worker_handle t p0 sched)); eexists;
    (split; [reflexivity|]); unfold same_config; split_and!; reflexivity.
Qed.

Lemma pool_after_burst_inv : pool_inv pool_after_burst.
Proof.
  assert (pool_inv (mkPool [mkWorker 0 []] [0] 4 1 [] 1000000 0 0 None None
                           Receiving 1%nat [])) as Hinv0.
  { eapply (NewGoroutinePool_inv 4 [WithMinWorkers 1]);
      [reflexivity|by vm_compute|by vm_compute]. }
  eapply (pool_run_inv burst _ _ Hinv0). vm_compute. reflexivity.
Qed.

Lemma task_round_trip_witness :
  ∃ p', pool_run [EvSubmit (Func fails_once); EvReceive; EvObserve; EvPop;
                  EvSend; EvWorker 1 prompt] pool_after_burst = Some p' ∧
        workerStack p' = [0; 1] ∧ taskQueue p' = [].
Proof.
  destruct (task_round_trip pool_after_burst (Func fails_once) 1 [0] prompt)
    as (p' & Hrun & _ & Hq & _ & _ & Hst & _).
  - exact pool_after_burst_inv.
  - reflexivity.
  - reflexivity.
  - reflexivity.
  - exists p'. split_and!; [exact Hrun|exact Hst|exact Hq].
Defined.

Lemma starved_step ev p :
  starved p → ∃ p', pool_step ev p = Some p' ∧ starved p'.
Proof.
  intros (Hw & Hs & Hc & Hm & Hd). destruct ev as [t| | | | |i sched|]; simpl.
  - eexists. split; [done|]. unfold Submit. case_decide; simpl; [done|].
    destruct (taskQueue p), Hd as [Hd|[t' Hd]]; rewrite ?Hd; simpl;
      unfold starved; simpl; rewrite ?Hd; eauto 10.
  - eexists. split; [done|]. unfold dispatch_receive.
    destruct Hd as [Hd|[t' Hd]]; rewrite Hd; [|by unfold starved; eauto 10].
    destruct (taskQueue p); unfold starved; simpl; eauto 10.
  - eexists. split; [done|]. unfold dispatch_observe.
    destruct Hd as [Hd|[t' Hd]]; rewrite Hd; [by unfold starved; eauto 10|].
    rewrite decide_True by (by rewrite Hs). unfold starved; eauto 10.
  - exists p. unfold dispatch_pop.
    destruct Hd as [Hd|[t' Hd]]; rewrite Hd; unfold starved; eauto 10.
  - exists p. unfold dispatch_send.
    destruct Hd as [Hd|[t' Hd]]; rewrite Hd; unfold starved; eauto 10.
  - eexists. split; [done|]. unfold worker_round. rewrite Hw. simpl.
    unfold starved; eauto 10.
  - exists p. split; [|unfold starved; eauto 10].
    unfold adjustWorkers. rewrite Hw, Hs, Hm.
    change (int_quo (int_mul (len []) 3) 4) with (Some 0).
    change (int_mul (len (@nil Worker)) 2) with 0.
    change (len (@nil Worker)) with 0.
    repeat case_decide;
      repeat match goal with
             | H : _ ∧ _ ∧ 0 > 0 |- _ => destruct H as (_ & _ & ?); lia
             | H : _ > 0 ∧ 0 < maxWorkers p |- _ =>
                 destruct H as [_ ?]; rewrite Z.min_l by lia;
                 replace (int_sub 0 0) with 0 by (by vm_compute)
             end; done.
Qed.

(** X16.  A pool created with a floor of zero workers never gets a worker:
    the scaling loop doubles the worker count, and twice zero is zero.
    Whatever is submitted and however often the scaling loop runs, no step
    panics, the pool has no worker and no callback is ever called. *)
Theorem zero_floor_pool_never_works m options pool0 evs :
  NewGoroutinePool m options = Some pool0 → configured_min m options = 0 →
  ∃ pool, pool_run evs pool0 = Some pool ∧
          GetWorkers pool = 0 ∧ workers pool = [] ∧ called pool = [].
Proof.
  intros Hnew Hmin.
  assert (starved pool0) as Hstarved.
  { destruct (NewGoroutinePool_facts _ _ _ Hnew)
      as (_ & Hm & _ & _ & _ & _ & Hws & Hstk & _ & Hd).
    rewrite Hmin in Hm. rewrite Hm in Hws, Hstk.
    unfold starved. split_and!; try done; [|by left].
    revert Hnew. unfold NewGoroutinePool.
    repeat case_decide; [done|done|]. intros [= <-]. simpl.
    assert (∀ os p, called (foldl apply_option p os) = called p) as ->; [|done].
    induction os as [|o os IH]; intros p; [done|].
    simpl. rewrite IH. by destruct o. }
  clear Hnew. revert pool0 Hstarved.
  induction evs as [|ev evs IH]; intros p Hp.
  - exists p. destruct Hp as (Hw & _ & Hc & _). unfold GetWorkers.
    by rewrite Hw.
  - destruct (starved_step ev p Hp) as (p1 & Hstep & Hp1).
    simpl. rewrite Hstep. by apply IH.
Qed.

Lemma zero_floor_pool_never_works_witness :
  ∃ pool0 pool,
    NewGoroutinePool 4 [WithMinWorkers 0] = Some pool0 ∧
    pool_run burst pool0 = Some pool ∧ GetWorkers pool = 0 ∧ called pool = [].
Proof.
  destruct (zero_floor_pool_never_works 4 [WithMinWorkers 0]
              (mkPool [] [] 4 0 [] 1000000 0 0 None None Receiving 0%nat [])
              burst)
    as (pool & Hrun & Hw & _ & Hc).
  - reflexivity.
  - reflexivity.
  - eexists _, pool. split_and!; [reflexivity|exact Hrun|exact Hw|exact Hc].
Defined.

(** X17.  [Wait] can return while a task has not run.  Its test looks at
    the queue and at the idle stack only; once the dispatcher has taken a
    submitted task out of the queue and has not yet popped a worker, the
    queue is empty and every worker is still on the stack, so the test
    holds although no callback of the task has been called. *)
Theorem Wait_returns_before_task_runs p t :
  Wait_returns p = true → dispatching p = Receiving →
  ∃ p1 p2,
    pool_run [EvSubmit t; EvReceive] p = Some p1 ∧
    pool_run [EvObserve] p1 = Some p2 ∧
    Wait_returns p1 = true ∧ Wait_returns p2 = true ∧
    dispatching p1 = Holding t ∧
    (dispatching p2 = Holding t ∨ dispatching p2 = Ready t) ∧
    called p2 = called p ∧ workers p2 = workers p.
Proof.
  intros Hwait Hd. apply bool_decide_eq_true in Hwait as [Hq Hidle].
  assert (taskQueue p = []) as Hq0.
  { destruct (taskQueue p); [done|]. unfold len in Hq. simpl in Hq. lia. }
  destruct p as [ws stk mx mn q cap rc tout rcb ecb d sp cl]. simpl in *. subst.
  set (p1 := mkPool ws stk mx mn [] cap rc tout rcb ecb (Holding t) sp cl).
  exists p1, (dispatch_observe p1). split_and!.
  - cbn [pool_run pool_step]. unfold Submit, dispatch_receive. simpl.
    by case_decide.
  - done.
  - by apply bool_decide_eq_true.
  - unfold dispatch_observe. simpl. case_decide; by apply bool_decide_eq_true.
  - done.
  - unfold dispatch_observe. simpl. case_decide; [by left|by right].
  - unfold dispatch_observe. simpl. by case_decide.
  - unfold dispatch_observe. simpl. by case_decide.
Qed.

Lemma Wait_returns_before_task_runs_witness :
  ∃ p1, pool_run [EvSubmit (Func fails_once); EvReceive] pool_after_burst
          = Some p1 ∧
        Wait_returns p1 = true ∧ dispatching p1 = Holding (Func fails_once) ∧
        called p1 = [].
Proof.
  destruct (Wait_returns_before_task_runs pool_after_burst (Func fails_once))
    as (p1 & p2 & Hrun & Hobs & Hw1 & _ & Hd1 & _ & Hc & _).
  - reflexivity.
  - reflexivity.
  - exists p1. split_and!; [exact Hrun|exact Hw1|exact Hd1|].
    vm_compute in Hrun. injection Hrun as <-. reflexivity.
Defined.

Lemma pool_run_app evs1 evs2 :
  ∀ p p1, pool_run evs1 p = Some p1 →
    pool_run (evs1 ++ evs2) p = pool_run evs2 p1.
Proof.
  induction evs1 as [|ev evs1 IH]; intros p p1; simpl.
  - by intros [= ->].
  - destruct (pool_step ev p); [apply IH|done].
Qed.

Lemma Submit_many ts :
  ∀ p, len (taskQueue p) + len ts ≤ taskQueueSize p →
    ∃ p', pool_run (EvSubmit <$> ts) p = Some p' ∧
          p' = set_taskQueue (taskQueue p ++ ts) p.
Proof.
  induction ts as [|t ts IH]; intros p Hfit.
  - exists p. split; [done|]. rewrite app_nil_r. by destruct p.
  - unfold len in Hfit. rewrite length_cons in Hfit.
    destruct (IH (set_taskQueue (taskQueue p ++ [t]) p)) as (p' & Hrun & Hp').
    { simpl. unfold len. rewrite length_app. simpl. lia. }
    exists p'. split.
    + cbn [fmap list_fmap pool_run pool_step]. unfold Submit.
      rewrite decide_True by (unfold len; lia). simpl. exact Hrun.
    + rewrite Hp'. simpl. by rewrite <- app_assoc.
Qed.

(** X18.  The task queue is first in, first out.  Submissions that fit the
    capacity complete at once and append to the queue in the order made,
    changing nothing else; the dispatcher then receives the task submitted
    first.  A submission blocks exactly when the buffer is full and the
    dispatcher cannot take the task directly. *)
Theorem Submit_queues_in_order p ts :
  len (taskQueue p) + len ts ≤ taskQueueSize p →
  (∃ p', pool_run (EvSubmit <$> ts) p = Some p' ∧
         taskQueue p' = taskQueue p ++ ts ∧
         workers p' = workers p ∧ workerStack p' = workerStack p ∧
         dispatching p' = dispatching p ∧ called p' = called p) ∧
  (∀ t ts', taskQueue p = [] → dispatching p = Receiving → ts = t :: ts' →
     ∃ p', pool_run ((EvSubmit <$> ts) ++ [EvReceive]) p = Some p' ∧
           dispatching p' = Holding t ∧ taskQueue p' = ts') ∧
  (∀ q t, Submit t q = None ↔
     taskQueueSize q ≤ len (taskQueue q) ∧
     (taskQueue q ≠ [] ∨ dispatching q ≠ Receiving)).
Proof.
  intros Hfit. destruct (Submit_many ts p Hfit) as (p' & Hrun & Hp').
  split_and!.
  - exists p'. subst p'. by split_and!.
  - intros t ts' Hq Hd ->. eexists. split.
    + rewrite (pool_run_app _ _ _ _ Hrun). reflexivity.
    + rewrite Hp'. unfold dispatch_receive. simpl. by rewrite Hd, Hq.
  - intros q t. unfold Submit. case_decide.
    + split; [done|]. lia.
    + destruct (taskQueue q) as [|t0 q0] eqn:Hq, (dispatching q) eqn:Hdq;
        split; try done;
        try (intros _; split; [lia|]; (by left) || (by right));
        intros [_ [?|?]]; done.
Qed.

Lemma Submit_queues_in_order_witness :
  ∃ p', pool_run [EvSubmit nilTask; EvSubmit (Func fails_once); EvReceive]
          pool_after_burst = Some p' ∧
        dispatching p' = Holding nilTask ∧ taskQueue p' = [Func fails_once].
Proof.
  destruct (Submit_queues_in_order pool_after_burst
              [nilTask; Func fails_once]) as (_ & Hfirst & _).
  - by vm_compute.
  - exact (Hfirst nilTask [Func fails_once] eq_refl eq_refl eq_refl).
Defined.

Lemma idle_pool_step ev p :
  pool_inv p → taskQueue p = [] → dispatching p = Receiving →
  len (workerStack p) = len (workers p) →
  runs_after_Release ev = true → pool_step ev p = Some p.
Proof.
  intros Hinv Hq Hd Hidle Hev.
  destruct ev as [t| | | | |i sched|]; simpl in *; try done.
  - unfold dispatch_receive. by rewrite Hd, Hq.
  - unfold dispatch_observe. by rewrite Hd.
  - unfold dispatch_pop. by rewrite Hd.
  - unfold dispatch_send. by rewrite Hd.
  - unfold worker_round. destruct (workers p !! i) as [w|] eqn:Hw; [|done].
    pose proof (full_stack_all_idle p Hinv Hidle i w Hw) as Hmail.
    destruct w as [serial mail]. simpl in Hmail. by subst mail.
Qed.

(** X19.  [Release] waits until the idle stack is as long as [minWorkers],
    not as long as the worker list.  In an idle pool that has more workers
    than [minWorkers] (after a scale-up) the test of its wait loop holds,
    and no step of the dispatcher or of a worker changes the pool: unless
    the scaling loop, which [Release] has cancelled, makes one more pass,
    [Release] does not return. *)
Theorem Release_waits_on_idle_surplus p evs :
  pool_inv p → taskQueue p = [] → dispatching p = Receiving →
  len (workerStack p) = len (workers p) →
  len (workers p) > minWorkers p →
  Forall (λ ev, runs_after_Release ev = true) evs →
  pool_run evs p = Some p ∧ Release_waits p = true.
Proof.
  intros Hinv Hq Hd Hidle Hgt Hevs. split.
  - induction Hevs as [|ev evs Hev _ IH]; [done|].
    simpl. by rewrite (idle_pool_step ev p).
  - apply bool_decide_eq_true. lia.
Qed.

Lemma Release_waits_on_idle_surplus_witness :
  pool_run [EvReceive; EvObserve; EvPop; EvSend; EvWorker 0 prompt;
            EvWorker 1 prompt] pool_after_burst = Some pool_after_burst ∧
  Release_waits pool_after_burst = true.
Proof.
  apply Release_waits_on_idle_surplus.
  - exact pool_after_burst_inv.
  - reflexivity.
  - reflexivity.
  - reflexivity.
  - by vm_compute.
  - repeat constructor.
Defined.

Lemma adjustWorkers_at_floor p :
  pool_inv p → taskQueue p = [] → len (workers p) ≤ minWorkers p →
  adjustWorkers p = Some p.
Proof.
  intros (_ & _ & _ & (Hm0 & [Hmb1 Hmb2] & Hdb)) Hq Hle.
  assert (0 ≤ len (workers p)) as Hn0 by (unfold len; lia).
  unfold adjustWorkers, int_mul. unfold int_max in *.
  rewrite wrap_id by (unfold is_int, int_min, int_max; lia).
  rewrite int_quo_exact by (unfold is_int, int_min, int_max; lia).
  rewrite Hq. rewrite decide_False.
  2:{ intros [Hup _]. change (len []) with 0 in Hup.
      pose proof (Z.quot_pos (len (workers p) * 3) 4). lia. }
  rewrite decide_False; [done|]. intros (_ & _ & ?). lia.
Qed.

Lemma scale_down_count n m :
  m ≤ n → n - ceil_half (n - m) = m + (n - m) `div` 2.
Proof. intros Hmn. unfold ceil_half. Z.div_mod_to_equations. lia. Qed.

(** X20.  Left idle, the pool shrinks back to its floor.  With the queue
    empty and every worker idle, each pass of the scaling loop halves the
    surplus over [minWorkers] (rounding down what is kept): after [k]
    passes the pool has [minWorkers + (n - minWorkers) / 2^k] workers, the
    first of the list, all idle; once [2^k] exceeds the surplus the worker
    count is [minWorkers] and stays there. *)
Theorem scale_down_reaches_floor k :
  ∀ p, pool_inv p → taskQueue p = [] →
    len (workerStack p) = len (workers p) →
    ∃ p', pool_run (replicate k EvAdjust) p = Some p' ∧
      GetWorkers p' =
        minWorkers p + (len (workers p) - minWorkers p) `div` 2 ^ Z.of_nat k ∧
      workers p' = take (length (workers p')) (workers p) ∧
      len (workerStack p') = len (workers p') ∧ GetRunning p' = 0 ∧
      taskQueue p' = [] ∧
      (len (workers p) - minWorkers p < 2 ^ Z.of_nat k →
         GetWorkers p' = minWorkers p).
Proof.
  induction k as [|k IH]; intros p Hinv Hq Hidle.
  - exists p. pose proof Hinv as (_ & _ & _ & (Hm0 & [Hmb1 Hmb2] & Hdb)).
    unfold GetWorkers, GetRunning, int_sub. rewrite Hidle, Z.sub_diag.
    change (2 ^ Z.of_nat 0) with 1. rewrite Z.div_1_r.
    split_and!; try done; try lia.
    by rewrite firstn_all.
  - pose proof Hinv as (_ & _ & _ & (Hm0 & [Hmb1 Hmb2] & Hdb)).
    assert (∃ p1, adjustWorkers p = Some p1 ∧ pool_inv p1 ∧ taskQueue p1 = [] ∧
                  len (workerStack p1) = len (workers p1) ∧
                  minWorkers p1 = minWorkers p ∧
                  len (workers p1) =
                    minWorkers p + (len (workers p) - minWorkers p) `div` 2 ∧
                  workers p1 = take (length (workers p1)) (workers p))
      as (p1 & Hadj & Hinv1 & Hq1 & Hidle1 & Hmin1 & Hlen1 & Htake1).
    { destruct (decide (len (workers p) > minWorkers p)) as [Hgt|Hle].
      - destruct (adjustWorkers_scale_down p Hinv Hq Hidle Hgt) as [Hadj Hr].
        set (n' := Z.to_nat (len (workers p) -
                             ceil_half (len (workers p) - minWorkers p))) in *.
        assert (n' ≤ length (workers p))%nat as Hn' by (unfold n', len in *; lia).
        eexists. split; [exact Hadj|]. simpl.
        assert (length (take n' (workers p)) = n') as Hlt
          by (rewrite length_take; lia).
        split_and!.
        + by eapply adjustWorkers_inv.
        + done.
        + unfold len, initial_stack. by rewrite length_fmap, length_seq, Hlt.
        + done.
        + unfold len at 1. rewrite Hlt. unfold n'.
          rewrite Z2Nat.id by lia. apply scale_down_count. lia.
        + by rewrite Hlt.
      - exists p. rewrite adjustWorkers_at_floor by (done || lia).
        split_and!; try done.
        + Z.div_mod_to_equations. lia.
        + by rewrite firstn_all. }
    destruct (IH p1 Hinv1 Hq1 Hidle1)
      as (p' & Hrun & Hw & Htake & Hidle' & Hrun0 & Hq' & Hfloor).
    exists p'.
    assert ((len (workers p1) - minWorkers p1) `div` 2 ^ Z.of_nat k =
            (len (workers p) - minWorkers p) `div` 2 ^ Z.of_nat (S k)) as Hdiv.
    { rewrite Hlen1, Hmin1.
      replace (minWorkers p + (len (workers p) - minWorkers p) `div` 2 - minWorkers p)
        with ((len (workers p) - minWorkers p) `div` 2) by lia.
      rewrite Z.div_div by lia.
      by rewrite Nat2Z.inj_succ, Z.pow_succ_r by lia. }
    split_and!.
    + simpl. by rewrite Hadj.
    + by rewrite Hw, Hdiv, Hmin1.
    + rewrite Htake, Htake1 at 1. rewrite take_take. f_equal.
      assert (length (workers p') ≤ length (workers p1))%nat; [|lia].
      pose proof (Z.div_le_upper_bound (len (workers p1) - minWorkers p1)
                    (2 ^ Z.of_nat k) (len (workers p1) - minWorkers p1)) as Hub.
      unfold GetWorkers, len in *.
      assert (0 < 2 ^ Z.of_nat k) by (apply Z.pow_pos_nonneg; lia).
      destruct Hinv1 as (_ & _ & _ & (_ & [Hlo _] & _)).
      pose proof (Z.div_le_upper_bound
                    (Z.of_nat (length (workers p1)) - minWorkers p1)
                    (2 ^ Z.of_nat k)
                    (Z.of_nat (length (workers p1)) - minWorkers p1)).
      unfold len in *. nia.
    + done.
    + done.
    + done.
    + intros Hsmall. rewrite Hw, Hdiv, Hmin1.
      rewrite Z.div_small; lia.
Qed.

Lemma scale_down_reaches_floor_witness :
  ∃ p', pool_run [EvAdjust; EvAdjust] pool_after_burst = Some p' ∧
        GetWorkers p' = 1 ∧ workers p' = [mkWorker 0 []].
Proof.
  destruct (scale_down_reaches_floor 2 pool_after_burst)
    as (p' & Hrun & _ & Htake & _ & _ & _ & Hfloor).
  - exact pool_after_burst_inv.
  - reflexivity.
  - reflexivity.
  - exists p'. assert (GetWorkers p' = 1) as Hw by (apply Hfloor; by vm_compute).
    split_and!; [exact Hrun|exact Hw|].
    rewrite Htake. unfold GetWorkers, len in Hw.
    by replace (length (workers p')) with 1%nat by lia.
Defined.

(** ** The container of package [di] *)

Lemma Register_Registered name v d d' :
  DefaultContainer_Register name v d = Registered d' →
  ∃ ty ref, v = Impl ty false ref ∧ type_Kind ty = Ptr ∧
    status d = initStatus ∧
    interfaceMap d !! name = None ∧ typeMap d !! ty = None ∧
    d' = mkContainer
           (if decide (name ≠ EmptyString) then <[name := v]> (interfaceMap d)
            else interfaceMap d)
           (<[ty := v]> (typeMap d)) (status d).
Proof.
  unfold DefaultContainer_Register. case_decide as Hst; [done|].
  destruct v as [|ty n ref]; [done|]. simpl.
  case_decide as Hk; [done|]. destruct n; [done|].
  case_decide as Hn; [done|]. case_decide as Ht; [done|].
  intros [= <-]. exists ty, ref. split_and!; try done.
  - by apply eq_None_not_Some.
  - by apply eq_None_not_Some.
Qed.

Lemma NewContainer_ok : container_ok NewContainer.
Proof. unfold container_ok, NewContainer. simpl. split_and!; set_solver. Qed.

(** As long as the container is not cleared, a component stays filed under
    its type and under its name, and a type without a named component stays
    without one. *)
Lemma registers_keep name v ty cs :
  Forall (λ c, c ≠ CallClear) cs →
  ∀ d, typeMap d !! ty = Some v →
    (name ≠ EmptyString → interfaceMap d !! name = Some v) →
    (name = EmptyString →
       ∀ n w, interfaceMap d !! n = Some w → TypeOf w ≠ Some ty) →
    typeMap (container_run cs d) !! ty = Some v ∧
    (name ≠ EmptyString → interfaceMap (container_run cs d) !! name = Some v) ∧
    (name = EmptyString →
       ∀ n w, interfaceMap (container_run cs d) !! n = Some w →
              TypeOf w ≠ Some ty).
Proof.
  induction 1 as [|c cs Hc _ IH]; intros d Hty Hname Hnone; [done|].
  simpl. apply IH; destruct c as [n w|]; try done; simpl;
    destruct (DefaultContainer_Register n w d) as [d1|msg] eqn:Hreg; try done;
    destruct (Register_Registered _ _ _ _ Hreg)
      as (ty1 & ref1 & -> & Hk1 & _ & Hn1 & Ht1 & ->); simpl.
  - rewrite lookup_insert_ne; [done|]. congruence.
  - intros Hne. specialize (Hname Hne). case_decide; [|done].
    rewrite lookup_insert_ne; [done|]. congruence.
  - intros He n' w' Hw'. specialize (Hnone He).
    case_decide; [|by eapply Hnone].
    destruct (decide (n = n')) as [<-|Hne].
    + rewrite lookup_insert_eq in Hw'. injection Hw' as <-. simpl. congruence.
    + rewrite lookup_insert_ne in Hw' by done. by eapply Hnone.
Qed.

(** X21.  Let [Register name v] succeed on a well-formed container, and
    let any calls of [Register] follow, successful or not, but no [Clear].
    With a non-empty name, [MustGet name] returns [(v, nil)] and
    [TryGet name] returns [v] from then on, and every [Register] under this
    name panics.  With the empty name no name returns [v], nor any value of
    its type.  Either way the type is taken: every [Register] of a value
    of the type of [v] panics, whatever the name.  Lookups by other names
    are not changed by the call.  After a [Clear] the same call succeeds
    again. *)
Theorem Register_then_get name v d d' cs :
  container_ok d →
  DefaultContainer_Register name v d = Registered d' →
  Forall (λ c, c ≠ CallClear) cs →
  let d2 := container_run cs d' in
  (name ≠ EmptyString →
     DefaultContainer_MustGet name d2 = (v, None) ∧
     DefaultContainer_TryGet name d2 = v ∧
     ∀ v', ∃ msg, DefaultContainer_Register name v' d2 = RegisterPanics msg) ∧
  (name = EmptyString →
     ∀ n, TypeOf (DefaultContainer_MustGet n d2).1 ≠ TypeOf v ∧
          TypeOf (DefaultContainer_TryGet n d2) ≠ TypeOf v) ∧
  (∀ name' v', TypeOf v' = TypeOf v →
     ∃ msg, DefaultContainer_Register name' v' d2 = RegisterPanics msg) ∧
  (∀ other, other ≠ name →
     DefaultContainer_MustGet other d' = DefaultContainer_MustGet other d ∧
     DefaultContainer_TryGet other d' = DefaultContainer_TryGet other d) ∧
  (∃ d3, DefaultContainer_Register name v (DefaultContainer_Clear d2) =
           Registered d3).
Proof.
  intros (Hempty & Hty & Hnamed) Hreg Hcs d2.
  destruct (Register_Registered _ _ _ _ Hreg)
    as (ty & ref & -> & Hk & Hst & Hn & Ht & ->).
  destruct (registers_keep name (Impl ty false ref) ty cs Hcs
              (mkContainer
                 (if decide (name ≠ EmptyString)
                  then <[name := Impl ty false ref]> (interfaceMap d)
                  else interfaceMap d)
                 (<[ty := Impl ty false ref]> (typeMap d)) (status d)))
    as (Hty2 & Hname2 & Hnone2); simpl.
  { apply lookup_insert_eq. }
  { intros Hne. rewrite decide_True by done. apply lookup_insert_eq. }
  { intros He n w. rewrite decide_False by (by intros ?). intros Hw.
    destruct (Hnamed _ _ Hw) as (ty' & HT & Hin). rewrite HT.
    intros [= ->]. congruence. }
  fold d2 in Hty2, Hname2, Hnone2. clearbody d2.
  assert (∀ name' v', TypeOf v' = Some ty →
            ∃ msg, DefaultContainer_Register name' v' d2 = RegisterPanics msg)
    as Htaken.
  { intros name' v' HT. unfold DefaultContainer_Register. rewrite HT.
    destruct (IsNil v'); repeat case_decide; eauto.
    all: exfalso;
      match goal with H : ¬ is_Some _ |- _ => apply H; solve [eauto] end. }
  split_and!.
  - intros Hne. specialize (Hname2 Hne).
    unfold DefaultContainer_MustGet, DefaultContainer_TryGet.
    rewrite !decide_False by done. rewrite Hname2. split_and!; try done.
    intros v'. unfold DefaultContainer_Register.
    destruct (TypeOf v') as [ty'|]; [|repeat case_decide; eauto].
    destruct (IsNil v'); repeat case_decide; eauto.
    all: exfalso;
      match goal with H : ¬ is_Some _ |- _ => apply H; solve [eauto] end.
  - intros He n. specialize (Hnone2 He n).
    unfold DefaultContainer_MustGet, DefaultContainer_TryGet.
    destruct (decide (n = EmptyString)); simpl; [by split|].
    destruct (interfaceMap d2 !! n) as [w|]; simpl; [|by split].
    split; by apply Hnone2.
  - intros name' v' HT. by apply Htaken.
  - intros other Hne. unfold DefaultContainer_MustGet, DefaultContainer_TryGet.
    simpl. repeat case_decide; try done; by rewrite lookup_insert_ne.
  - unfold DefaultContainer_Register. simpl.
    repeat case_decide; eauto; exfalso;
      first [ done
            | match goal with
              | H : is_Some (∅ !! _) |- _ =>
                  rewrite lookup_empty in H; by destruct H
              end ].
Qed.

(** A person registered by name is still returned after a school has been
    registered, another person is refused under any name, and after
    [Clear] a person can be registered again. *)
Lemma Register_then_get_witness :
  ∃ d' d2,
    DefaultContainer_Register "person" alice NewContainer = Registered d' ∧
    container_run [CallRegister "school" school] d' = d2 ∧
    DefaultContainer_MustGet "school" d2 = (school, None) ∧
    DefaultContainer_MustGet "person" d2 = (alice, None) ∧
    DefaultContainer_Register "other" bob d2 =
      RegisterPanics "interface already registered: *di.Person" ∧
    ∃ d3, DefaultContainer_Register "person" alice (DefaultContainer_Clear d2)
            = Registered d3.
Proof.
  eexists _, _. split; [reflexivity|]. split; [reflexivity|].
  split; [reflexivity|].
  match goal with
  | |- DefaultContainer_MustGet _ (container_run _ ?d) = _ ∧ _ =>
    destruct (Register_then_get "person" alice NewContainer d
                [CallRegister "school" school] NewContainer_ok eq_refl)
      as (Hget & _ & _ & _ & Hclear)
  end.
  - repeat constructor; done.
  - destruct Hget as (Hmust & _); [done|].
    split; [exact Hmust|]. split; [reflexivity|exact Hclear].
Defined.

Lemma container_step_ok c d : container_ok d → container_ok (container_step c d).
Proof.
  intros (Hempty & Hty & Hname). destruct c as [name v|]; simpl;
    [|apply NewContainer_ok].
  destruct (DefaultContainer_Register name v d) as [d'|msg] eqn:Hreg;
    [|done].
  destruct (Register_Registered _ _ _ _ Hreg)
    as (ty & ref & -> & Hk & Hst & Hn & Ht & ->).
  unfold container_ok. simpl. split_and!.
  - case_decide; [|done]. by rewrite lookup_insert_ne.
  - intros ty' v'. destruct (decide (ty = ty')) as [<-|Hne].
    + rewrite lookup_insert_eq. by intros [= <-].
    + rewrite lookup_insert_ne by done. apply Hty.
  - intros name' v' Hv'.
    assert (v' = Impl ty false ref ∨ interfaceMap d !! name' = Some v') as [->|Hold].
    { case_decide; [|by right].
      destruct (decide (name = name')) as [<-|Hne].
      - rewrite lookup_insert_eq in Hv'. left. congruence.
      - rewrite lookup_insert_ne in Hv' by done. by right. }
    + exists ty. by rewrite lookup_insert_eq.
    + destruct (Hname _ _ Hold) as (ty' & Hty' & Hin). exists ty'.
      split; [done|]. rewrite lookup_insert_ne; [done|]. congruence.
Qed.

Lemma container_run_ok cs : ∀ d, container_ok d → container_ok (container_run cs d).
Proof.
  induction cs as [|c cs IH]; intros d Hd; [done|].
  simpl. apply IH. by apply container_step_ok.
Qed.

(** X22.  Whatever is registered and cleared, starting from a new
    container, what the container holds stays well formed: every component
    is a non-nil pointer filed under its own type, and a named component is
    also filed by type.  So [TryGet] and [MustGet] agree: [MustGet] returns
    an error exactly when [TryGet] returns nil, otherwise both return the
    same non-nil pointer, and [MustGet] never returns nil without an
    error. *)
Theorem TryGet_MustGet_agree cs name :
  let d := container_run cs NewContainer in
  container_ok d ∧
  (DefaultContainer_MustGet name d).1 = DefaultContainer_TryGet name d ∧
  ((DefaultContainer_MustGet name d).2 = None ↔
     DefaultContainer_TryGet name d ≠ nil_impl) ∧
  ((DefaultContainer_MustGet name d).2 = None →
     ∃ ty ref, DefaultContainer_TryGet name d = Impl ty false ref ∧
               type_Kind ty = Ptr ∧
               typeMap d !! ty = Some (Impl ty false ref)).
Proof.
  intros d. assert (container_ok d) as Hok.
  { apply container_run_ok, NewContainer_ok. }
  split; [done|]. destruct Hok as (Hempty & Hty & Hname).
  unfold DefaultContainer_MustGet, DefaultContainer_TryGet.
  case_decide as Hn; simpl; [by split_and!|].
  destruct (interfaceMap d !! name) as [v|] eqn:Hv; simpl; [|by split_and!].
  destruct (Hname _ _ Hv) as (ty & HT & Hin).
  destruct (Hty _ _ Hin) as (_ & Hk & Hnil).
  destruct v as [|ty' n ref]; [done|]. simpl in *. injection HT as ->. subst n.
  split_and!; try done. intros _. eauto.
Qed.

(** X23.  [Clear] forgets everything and makes the container accept
    registrations again, in any state: after [Clear] no name is found, and
    a [Register] succeeds exactly as it does on a new container. *)
Theorem Clear_resets d name v :
  DefaultContainer_Clear d = NewContainer ∧
  DefaultContainer_TryGet name (DefaultContainer_Clear d) = nil_impl ∧
  (DefaultContainer_MustGet name (DefaultContainer_Clear d)).2 =
    Some interfaceNilError ∧
  (DefaultContainer_Register name v (DefaultContainer_Clear d) =
     DefaultContainer_Register name v NewContainer) ∧
  ((∃ d', DefaultContainer_Register name v (DefaultContainer_Clear d) =
            Registered d') ↔
   ∃ ty ref, v = Impl ty false ref ∧ type_Kind ty = Ptr).
Proof.
  split_and!; try done.
  - unfold DefaultContainer_TryGet. by case_decide.
  - unfold DefaultContainer_MustGet. by case_decide.
  - split.
    + intros [d' Hreg]. apply Register_Registered in Hreg
        as (ty & ref & -> & Hk & _). eauto.
    + intros (ty & ref & -> & Hk). unfold DefaultContainer_Register. simpl.
      repeat case_decide; eauto; exfalso;
        first [ done
              | match goal with
                | H : is_Some (∅ !! _) |- _ =>
                    rewrite lookup_empty in H; by destruct H
                end ].
Qed.
